(** * Chord spelling worker: a shallow embedding and its properties

    The worker (the Web Worker script of the pinchord lookup page) builds four
    candidate lists out of a chord table, enumerates every chord, and searches
    all the ways a target word splits into chord outputs; a small scheduler
    runs one search at a time in batches and drops work that a newer request
    has superseded.

    Strings are JavaScript strings: finite sequences of UTF-16 code units.
    [length], [startsWith] and [slice] of the source all count code units, so
    a string is modelled as a [list N] of code units. *)

From Stdlib Require Import Ascii String.
From stdpp Require Import base numbers option list sorting gmap.

Local Open Scope Z_scope.

(** ** JavaScript strings *)

Module Js.

Abbreviation jsstring := (list N).

(** An ASCII literal of the source, as code units. *)
Definition lit (s : string) : jsstring :=
  List.map N_of_ascii (list_ascii_of_string s).

(** Truthiness of a string: only the empty string is falsy. *)
Definition truthy (s : jsstring) : bool :=
  match s with
  | [] => false
  | _ :: _ => true
  end.

(** [s.includes(c)] for a one-unit needle [c]. *)
Definition includes (c : N) (s : jsstring) : bool :=
  existsb (N.eqb c) s.

(** [s.startsWith(p)]. *)
Fixpoint startsWith (s p : jsstring) {struct p} : bool :=
  match p, s with
  | [], _ => true
  | _ :: _, [] => false
  | a :: p', b :: s' => N.eqb a b && startsWith s' p'
  end.

(** [s.slice(n)] for [0 <= n]. *)
Definition slice (n : nat) (s : jsstring) : jsstring := drop n s.

(** [s.replace(/c/g, d)] for one-unit [c] and [d]. *)
Definition replaceAll (c d : N) (s : jsstring) : jsstring :=
  List.map (fun x => if N.eqb x c then d else x) s.

(** [xs.join(sep)]. *)
Fixpoint join (sep : jsstring) (xs : list jsstring) : jsstring :=
  match xs with
  | [] => []
  | [x] => x
  | x :: rest => x ++ sep ++ join sep rest
  end.

(** The names every plain object inherits from [Object.prototype] in a
    browser; [k in o] is true for them whatever [o] owns, and none of the
    inherited values is iterable. *)
Definition objectPrototypeNames : list jsstring :=
  List.map lit
    [ "constructor"; "__defineGetter__"; "__defineSetter__"; "hasOwnProperty";
      "__lookupGetter__"; "__lookupSetter__"; "isPrototypeOf";
      "propertyIsEnumerable"; "toString"; "valueOf"; "__proto__";
      "toLocaleString" ]%string.

Definition inherited (k : jsstring) : bool :=
  bool_decide (k ∈ objectPrototypeNames).

(** [Array.prototype.sort(cmp)]: the language requires a stable sort; for a
    consistent comparator the result is the stable insertion sort below. *)
Section Sort.
Context {A : Type} (cmp : A -> A -> Z).

Fixpoint sort_insert (x : A) (l : list A) : list A :=
  match l with
  | [] => [x]
  | y :: l' => if Z.leb (cmp x y) 0 then x :: y :: l' else y :: sort_insert x l'
  end.

Definition sort (l : list A) : list A := foldr sort_insert [] l.
End Sort.

End Js.

Import Js.

(** ** Data model *)

(** A [Record<string, string>] of the chord file, held as the sequence
    [Object.entries] gives for it (own properties in enumeration order). *)
Abbreviation Entries := (list (jsstring * jsstring)).

Record ChordData := mkChordData {
  initials : option Entries;
  vowels : option Entries;
  finals : option Entries;
  suffix : option Entries;
  suffixes : option Entries
}.

(** [Strokes]: the four chord identifiers (initial, vowel, final, suffix). *)
Definition Strokes : Type := jsstring * jsstring * jsstring * jsstring.

(** A chord as the search keeps it: its output and its strokes. *)
Definition Chord : Type := jsstring * Strokes.

Definition Spelling : Type := list Chord.

(** The four candidate lists [buildComponents] returns. *)
Record Components := mkComponents {
  c_initials : Entries;
  c_vowels : Entries;
  c_finals : Entries;
  c_suffixes : Entries
}.

(** ** Literal fragments *)

Definition isLiteral (s : jsstring) : bool :=
  if negb (truthy s) then true
  else negb (includes 123%N s) && negb (includes 125%N s) && negb (includes 124%N s).

Definition literalPart (s : jsstring) : jsstring :=
  if isLiteral s then s else [].

(** ** Component table builder *)

Definition hasEmptyKey (items : Entries) : bool :=
  existsb (fun kv => bool_decide (kv.1 = [])) items.

Definition withEmpty (m : option Entries) : Entries :=
  let items := default [] m in
  if negb (hasEmptyKey items) then ([], []) :: items else items.

(** [data.suffix && Object.keys(data.suffix).length ? data.suffix : data.suffixes] *)
Definition suffixMap (data : ChordData) : option Entries :=
  match suffix data with
  | Some ((_ :: _) as m) => Some m
  | _ => suffixes data
  end.

Definition buildComponents (data : ChordData) : Components :=
  let suffixes0 := default [] (suffixMap data) in
  let suffixes1 :=
    if negb (hasEmptyKey suffixes0) then ([], []) :: suffixes0 else suffixes0 in
  {| c_initials := withEmpty (initials data);
     c_vowels := withEmpty (vowels data);
     c_finals := withEmpty (finals data);
     c_suffixes := suffixes1 |}.

(** ** The order of the properties of an object *)

(** An object with string values, as the chord file has them for its tables:
    its own properties in the order they were created (for a parsed JSON
    text, the order of the text), their names pairwise distinct. *)
Abbreviation Obj := (list (jsstring * jsstring)).

Definition digitValue (c : N) : option N :=
  if (N.leb 48 c && N.leb c 57)%bool then Some (c - 48)%N else None.

Fixpoint numeral (acc : N) (s : jsstring) : option N :=
  match s with
  | [] => Some acc
  | c :: s' =>
      match digitValue c with
      | Some d => numeral (10 * acc + d)%N s'
      | None => None
      end
  end.

(** The array index a property name is, if it is one: a decimal numeral with
    no leading zero (["0"] itself apart) whose value is below 2^32 - 1. *)
Definition arrayIndex (k : jsstring) : option N :=
  match k with
  | [] => None
  | c :: rest =>
      if (N.eqb c 48 && truthy rest)%bool then None
      else
        match numeral 0 k with
        | Some n => if N.ltb n 4294967295 then Some n else None
        | None => None
        end
  end.

Definition isArrayIndex (kv : jsstring * jsstring) : bool :=
  match arrayIndex kv.1 with
  | Some _ => true
  | None => false
  end.

Definition indexOf (kv : jsstring * jsstring) : N := default 0%N (arrayIndex kv.1).

Fixpoint insertByIndex (x : jsstring * jsstring) (l : Entries) : Entries :=
  match l with
  | [] => [x]
  | y :: l' =>
      if N.leb (indexOf x) (indexOf y) then x :: y :: l' else y :: insertByIndex x l'
  end.

(** [Object.entries(o)]: the properties named by an array index first, by
    ascending index, then the other properties in the order they were
    created. *)
Definition entries (o : Obj) : Entries :=
  foldr insertByIndex [] (List.filter isArrayIndex o)
  ++ List.filter (fun kv => negb (isArrayIndex kv)) o.

(** The chord file as parsed: each table an object, or absent. *)
Record ChordFile := mkChordFile {
  file_initials : option Obj;
  file_vowels : option Obj;
  file_finals : option Obj;
  file_suffix : option Obj;
  file_suffixes : option Obj
}.

(** What [buildComponents] reads off the chord file: [Object.entries] of each
    table that is there. *)
Definition tablesOf (file : ChordFile) : ChordData :=
  mkChordData (entries <$> file_initials file) (entries <$> file_vowels file)
    (entries <$> file_finals file) (entries <$> file_suffix file)
    (entries <$> file_suffixes file).

(** ** Chord enumerator *)

Definition allChordOutputs (components : Components) : list Chord :=
  flat_map (fun '(iStroke, iVal) =>
    flat_map (fun '(vStroke, vVal) =>
      flat_map (fun '(fStroke, fVal) =>
        List.map (fun '(sStroke, sVal) =>
          (literalPart iVal ++ literalPart vVal ++ literalPart fVal ++ literalPart sVal,
           (iStroke, vStroke, fStroke, sStroke)))
          (c_suffixes components))
        (c_finals components))
      (c_vowels components))
    (c_initials components).

(** ** Chord display *)

(** The placeholder literal of the source: the code points U+00E2 U+02C6
    U+2026 (the UTF-8 bytes of the empty-set sign read as Windows-1252). *)
Definition placeholder : jsstring := [226%N; 710%N; 8230%N].

Definition dash : N := 45%N.
Definition bar : N := 124%N.
Definition ampersand : N := 38%N.

Definition chordRepr (strokes : Strokes) : jsstring :=
  let '(i, v, f, s) := strokes in
  let fDisplay :=
    if truthy f && startsWith f [dash] && negb (truthy i) && negb (truthy v) then f
    else if startsWith f [dash] then slice 1 f
    else f in
  let joined := i ++ v ++ fDisplay ++ s in
  let raw := if truthy joined then joined else placeholder in
  replaceAll bar ampersand raw.

(** ** Prefix matcher *)

Definition byOutputLengthDesc (a b : Chord) : Z :=
  Z.of_nat (length b.1) - Z.of_nat (length a.1).

Definition isPrefixChord (target : jsstring) (c : Chord) : bool :=
  truthy c.1 && startsWith target c.1.

Definition getPrefixChords (target : jsstring) (components : Components) : list Chord :=
  sort byOutputLengthDesc
    (List.filter (isPrefixChord target) (allChordOutputs components)).

(** ** Spelling search *)

(** The memo object: own properties only; what it inherits is [inherited]. *)
Abbreviation Memo := (gmap jsstring (list Spelling)).

(** [k in memo]: own properties and the inherited ones. *)
Definition inMemo (k : jsstring) (memo : Memo) : bool :=
  bool_decide (is_Some (memo !! k)) || inherited k.

(** How a generator driven to its end finishes: it returns, or iterating an
    inherited (non-iterable) value raises a [TypeError]. *)
Inductive Completion := Returned | Threw.

(** A generator driven to its end: the Spellings it yields in order, the memo
    it leaves, and how it finishes. *)
Definition Run : Type := list Spelling * Memo * Completion.

Section Search.
Variable components : Components.

(** The loop over [chordList] of a generator for [target], given the
    generators [gen] for the rests. A throwing inner generator ends the
    loop: what was yielded stays yielded, nothing is memoized. *)
Fixpoint forChords (gen : jsstring -> Memo -> option Run)
    (target : jsstring) (chordList : list Chord) (memo : Memo) : option Run :=
  match chordList with
  | [] => Some ([], memo, Returned)
  | (out, strokes) :: chordList' =>
      let rest := slice (length out) target in
      match gen rest memo with
      | None => None
      | Some (restWays, memo1, Threw) =>
          Some (List.map (cons (out, strokes)) restWays, memo1, Threw)
      | Some (restWays, memo1, Returned) =>
          match forChords gen target chordList' memo1 with
          | None => None
          | Some (ways', memo2, c) =>
              Some (List.map (cons (out, strokes)) restWays ++ ways', memo2, c)
          end
      end
  end.

(** [findSpellingsGenerator target components memo], driven to its end.
    [fuel] bounds the depth of nested generators; [None] is out of fuel. *)
Fixpoint findSpellingsGenerator (fuel : nat) (target : jsstring) (memo : Memo)
    : option Run :=
  match fuel with
  | O => None
  | S fuel' =>
      if bool_decide (target = []) then
        Some ([[]], <[ [] := [[]] ]> memo, Returned)
      else if inMemo target memo then
        match memo !! target with
        | Some ways => Some (ways, memo, Returned)
        | None => Some ([], memo, Threw)
        end
      else
        match forChords (findSpellingsGenerator fuel') target
                (getPrefixChords target components) memo with
        | None => None
        | Some (ways, memo', Returned) => Some (ways, <[ target := ways ]> memo', Returned)
        | Some (ways, memo', Threw) => Some (ways, memo', Threw)
        end
  end.

(** Fuel that always suffices (see [findSpellingsGenerator_total]). *)
Definition enoughFuel (target : jsstring) : nat := S (length target).

End Search.

(** ** Job scheduler *)

Definition YIELD_EVERY : nat := 5.

(** The generator object [runJob] holds: what [next()] has still to hand out
    and how the generator ends. The search is deterministic and its memo is
    private to it, so the object is the run of [findSpellingsGenerator] with a
    cursor; the default is never taken ([findSpellingsGenerator_total]). *)
Record Generator := mkGenerator {
  toYield : list Spelling;
  ending : Completion
}.

Definition newGenerator (components : Components) (target : jsstring) : Generator :=
  match findSpellingsGenerator components (enoughFuel target) target ∅ with
  | Some (ways, _, c) => mkGenerator ways c
  | None => mkGenerator [] Returned
  end.

Inductive NextResult :=
| Value (value : Spelling)
| Done
| Raise.

(** [gen.next()]. *)
Definition next (gen : Generator) : NextResult * Generator :=
  match toYield gen with
  | way :: rest => (Value way, mkGenerator rest (ending gen))
  | [] =>
      match ending gen with
      | Returned => (Done, gen)
      | Threw => (Raise, mkGenerator [] Returned)
      end
  end.

Record Request := mkRequest {
  req_id : Z;
  req_version : jsstring;
  req_target : jsstring;
  req_maxEntries : option Z
}.

Inductive ErrorText :=
| FailedToLoad (version : jsstring)
| NotIterable.

Inductive Message :=
| chunk (id : Z) (spellings : list jsstring) (ways : list (list Strokes))
| resultDone (id : Z) (total : Z)
| error (id : Z) (message : ErrorText).

Definition msgId (m : Message) : Z :=
  match m with
  | chunk id _ _ => id
  | resultDone id _ => id
  | error id _ => id
  end.

(** A suspended coroutine of the worker: [startJob] waiting for its fetch
    ([caught] tells whether the caller attached a [catch] handler), or the
    loop of [runJob] waiting for its zero-delay timer. *)
Inductive Task :=
| AwaitFetch (job : Request) (caught : bool)
| AwaitTick (id : Z) (maxEntries : option Z) (total : Z) (gen : Generator).

(** The module-level variables, the suspended coroutines and the messages
    posted so far (oldest first). *)
Record Worker := mkWorker {
  currentJobId : option Z;
  jobRunning : bool;
  pendingJob : option Request;
  cache : gmap jsstring ChordData;
  tasks : list Task;
  posted : list Message
}.

Definition setCurrentJobId (v : option Z) (w : Worker) : Worker :=
  mkWorker v (jobRunning w) (pendingJob w) (cache w) (tasks w) (posted w).
Definition setJobRunning (v : bool) (w : Worker) : Worker :=
  mkWorker (currentJobId w) v (pendingJob w) (cache w) (tasks w) (posted w).
Definition setPendingJob (v : option Request) (w : Worker) : Worker :=
  mkWorker (currentJobId w) (jobRunning w) v (cache w) (tasks w) (posted w).
Definition setCache (v : gmap jsstring ChordData) (w : Worker) : Worker :=
  mkWorker (currentJobId w) (jobRunning w) (pendingJob w) v (tasks w) (posted w).
Definition setTasks (v : list Task) (w : Worker) : Worker :=
  mkWorker (currentJobId w) (jobRunning w) (pendingJob w) (cache w) v (posted w).
Definition postMessage (m : Message) (w : Worker) : Worker :=
  mkWorker (currentJobId w) (jobRunning w) (pendingJob w) (cache w) (tasks w)
    (posted w ++ [m]).
Definition suspend (t : Task) (w : Worker) : Worker :=
  setTasks (tasks w ++ [t]) w.

(** [currentJobId === id]. *)
Definition isCurrent (id : Z) (w : Worker) : bool :=
  bool_decide (currentJobId w = Some id).

(** [maxEntries !== undefined && total >= maxEntries]. *)
Definition capReached (maxEntries : option Z) (total : Z) : bool :=
  match maxEntries with
  | Some k => Z.leb k total
  | None => false
  end.

(** The [for (let i = 0; i < YIELD_EVERY; i++)] loop of [runJob], with [n]
    iterations left. *)
Inductive Collected :=
| Batch (batch : list Spelling) (total : Z) (gen : Generator) (generatorDone : bool)
| Raised.

Fixpoint collectBatch (n : nat) (maxEntries : option Z) (total : Z)
    (gen : Generator) (batch : list Spelling) : Collected :=
  match n with
  | O => Batch batch total gen false
  | S n' =>
      if capReached maxEntries total then Batch batch total gen false
      else
        match next gen with
        | (Done, gen') => Batch batch total gen' true
        | (Raise, _) => Raised
        | (Value value, gen') =>
            collectBatch n' maxEntries (total + 1) gen' (batch ++ [value])
        end
  end.

Definition separator : jsstring := lit " / ".

(** The callback [startJob] hands to [runJob]. *)
Definition onChunk (id : Z) (display : list jsstring) (ways : list (list Strokes))
    (w : Worker) : Worker :=
  if isCurrent id w then postMessage (chunk id display ways) w else w.

Definition emitWay (id : Z) (w : Worker) (way : Spelling) : Worker :=
  let display := join separator (List.map (fun c => chordRepr c.2) way) in
  let strokes := List.map (fun c => c.2) way in
  onChunk id [display] [strokes] w.

(** One pass of the [while (true)] body of [runJob], from its head to the
    [await], the [return] or the exception (with [finally] and [catch]). *)
Definition loopBody (id : Z) (maxEntries : option Z) (total : Z) (gen : Generator)
    (w : Worker) : Worker :=
  match collectBatch YIELD_EVERY maxEntries total gen [] with
  | Raised =>
      let w1 := setJobRunning false w in
      if isCurrent id w1 then postMessage (error id NotIterable) w1 else w1
  | Batch batch total' gen' generatorDone =>
      let w1 := foldl (emitWay id) w batch in
      if generatorDone || capReached maxEntries total' then
        let w2 := if isCurrent id w1 then postMessage (resultDone id total') w1 else w1 in
        setJobRunning false w2
      else suspend (AwaitTick id maxEntries total' gen') w1
  end.

Definition runJob (id : Z) (data : ChordData) (target : jsstring)
    (maxEntries : option Z) (w : Worker) : Worker :=
  let w1 := setJobRunning true w in
  let components := buildComponents data in
  let gen := newGenerator components target in
  loopBody id maxEntries 0 gen w1.

(** A chord file with none of the five tables: what reading the table fields
    off an inherited value of the cache object gives. *)
Definition noTables : ChordData := mkChordData None None None None None.

(** [cache[version]], truthy or not. *)
Definition cacheGet (version : jsstring) (c : gmap jsstring ChordData) : option ChordData :=
  match c !! version with
  | Some data => Some data
  | None => if inherited version then Some noTables else None
  end.

Definition startJob (caught : bool) (job : Request) (w : Worker) : Worker :=
  match cacheGet (req_version job) (cache w) with
  | Some data => runJob (req_id job) data (req_target job) (req_maxEntries job) w
  | None => suspend (AwaitFetch job caught) w
  end.

(** What the event loop runs next: a message from the page, the end of a
    fetch (with the parsed chord file, or failing), or a timer. [n] is the
    position of the coroutine in [tasks]. *)
Inductive Event :=
| Receive (type : jsstring) (job : Request)
| FetchOk (n : nat) (data : ChordData)
| FetchFail (n : nat)
| Tick (n : nat).

(** [self.onmessage]. *)
Definition onmessage (type : jsstring) (job : Request) (w : Worker) : Worker :=
  if negb (bool_decide (type = lit "compute")) then w
  else
    let w1 := setCurrentJobId (Some (req_id job)) w in
    let w2 := setPendingJob (Some job) w1 in
    if negb (jobRunning w2) then startJob true job (setPendingJob None w2)
    else w2.

(** [startJob] after its fetch. *)
Definition fetched (job : Request) (data : ChordData) (w : Worker) : Worker :=
  let w1 := setCache (<[ req_version job := data ]> (cache w)) w in
  runJob (req_id job) data (req_target job) (req_maxEntries job) w1.

(** [startJob] rejecting; only the call in [onmessage] has a handler. *)
Definition fetchFailed (job : Request) (caught : bool) (w : Worker) : Worker :=
  if caught then
    postMessage (error (req_id job) (FailedToLoad (req_version job)))
      (setCurrentJobId None w)
  else w.

(** [runJob] after its timer. *)
Definition resumed (id : Z) (maxEntries : option Z) (total : Z) (gen : Generator)
    (w : Worker) : Worker :=
  if negb (isCurrent id w) then
    let next_ := pendingJob w in
    let w1 := setPendingJob None w in
    let w2 := match next_ with
              | Some job => startJob false job w1
              | None => w1
              end in
    setJobRunning false w2
  else loopBody id maxEntries total gen w.

Definition step (w : Worker) (e : Event) : Worker :=
  match e with
  | Receive type job => onmessage type job w
  | FetchOk n data =>
      match tasks w !! n with
      | Some (AwaitFetch job _) => fetched job data (setTasks (delete n (tasks w)) w)
      | _ => w
      end
  | FetchFail n =>
      match tasks w !! n with
      | Some (AwaitFetch job caught) => fetchFailed job caught (setTasks (delete n (tasks w)) w)
      | _ => w
      end
  | Tick n =>
      match tasks w !! n with
      | Some (AwaitTick id maxEntries total gen) =>
          resumed id maxEntries total gen (setTasks (delete n (tasks w)) w)
      | _ => w
      end
  end.

Definition run (w : Worker) (events : list Event) : Worker := foldl step w events.

(** The worker when the script has loaded. *)
Definition initialWorker : Worker := mkWorker None false None ∅ [] [].

(** The state of the loop of a job at its head, [total] and [gen]: at its
    start, or after a batch that left it waiting for its timer. *)
Inductive jobAt (components : Components) (target : jsstring) (maxEntries : option Z)
    : Z -> Generator -> Prop :=
| jobAt_start :
    jobAt components target maxEntries 0 (newGenerator components target)
| jobAt_resume total gen batch total' gen' :
    jobAt components target maxEntries total gen ->
    collectBatch YIELD_EVERY maxEntries total gen [] = Batch batch total' gen' false ->
    capReached maxEntries total' = false ->
    jobAt components target maxEntries total' gen'.

(** ** Notions the properties are stated with *)

(** The Spellings the search for [target] yields when driven to its end, as
    [runJob] starts it (fresh memo). *)
Definition spellings (components : Components) (target : jsstring) : list Spelling :=
  toYield (newGenerator components target).

(** The outputs of a Spelling, concatenated in order. *)
Definition spelled (way : Spelling) : jsstring := concat (List.map fst way).

(** Every memoized Spelling of a key spells that key. *)
Definition memoSound (memo : Memo) : Prop :=
  forall k ways, memo !! k = Some ways -> Forall (fun way => spelled way = k) ways.

(** The key [""] is unset or holds the one empty Spelling. *)
Definition memoBase (memo : Memo) : Prop :=
  forall ways, memo !! [] = Some ways -> ways = [[]].

(** The search in the words of the specification, with no memo: the empty
    target has the one empty Spelling; otherwise, for each chord of the
    prefix matcher in its order, every Spelling of the rest with the chord in
    front. [fuel] bounds the depth. *)
Fixpoint decompositions (components : Components) (fuel : nat) (target : jsstring)
    : list Spelling :=
  match fuel with
  | O => []
  | S fuel' =>
      if bool_decide (target = []) then [[]]
      else
        flat_map
          (fun c => List.map (cons c)
                      (decompositions components fuel' (slice (length c.1) target)))
          (getPrefixChords target components)
  end.

Definition allSpellings (components : Components) (target : jsstring) : list Spelling :=
  decompositions components (enoughFuel target) target.

(** Every memo entry is the full list of Spellings of its key. *)
Definition memoExact (components : Components) (memo : Memo) : Prop :=
  forall k ways, memo !! k = Some ways -> ways = allSpellings components k.

(** What a run may have yielded of the full list: all of it when it
    returned, a front part when it threw. *)
Definition yieldedOf (full : list Spelling) (ways : list Spelling) (st : Completion) : Prop :=
  match st with
  | Returned => ways = full
  | Threw => ways `prefix_of` full
  end.

(** The mapping has an entry for the empty identifier. *)
Definition hasEmptyIdentifier (m : Entries) : Prop := exists frag, ([], frag) ∈ m.

(** [l] is the candidate list of the mapping [m] (absent: empty): the entries
    of [m], with [("", "")] in front when [m] has no empty identifier. *)
Definition normalizes (m : option Entries) (l : Entries) : Prop :=
  (hasEmptyIdentifier (default [] m) -> l = default [] m) /\
  (~ hasEmptyIdentifier (default [] m) -> l = ([], []) :: default [] m).

(** [l] lists the properties of the object [o] the way [Object.entries]
    does: those whose name is an array index first, by ascending index, then
    the others in insertion order. *)
Definition enumerated (o : Obj) (l : Entries) : Prop :=
  exists indexed,
    l = indexed ++ filter (fun kv : jsstring * jsstring => arrayIndex kv.1 = None) o /\
    indexed ≡ₚ filter (fun kv : jsstring * jsstring => is_Some (arrayIndex kv.1)) o /\
    StronglySorted (fun a b => (indexOf a <= indexOf b)%N) indexed.

(** [l] is the candidate list of the table [o] of the chord file (absent:
    empty): the properties of [o] as [Object.entries] lists them, with
    [("", "")] in front when [o] has no property named [""]. *)
Definition candidateList (o : option Obj) (l : Entries) : Prop :=
  exists es,
    enumerated (default [] o) es /\
    (hasEmptyIdentifier (default [] o) -> l = es) /\
    (~ hasEmptyIdentifier (default [] o) -> l = ([], []) :: es).

(** No identifier of the table is an array index. *)
Definition noIndexNames (o : Obj) : Prop :=
  Forall (fun kv : jsstring * jsstring => arrayIndex kv.1 = None) o.

(** Chord display, in the words of the specification: the final identifier
    without its leading marker, unless the chord has neither an initial nor a
    vowel identifier. *)
Definition stripMarker (f : jsstring) : jsstring :=
  match f with
  | c :: f' => if bool_decide (c = dash) then f' else f
  | [] => []
  end.

Definition shownFinal (i v f : jsstring) : jsstring :=
  if bool_decide (i = [] /\ v = []) then f else stripMarker f.

Definition displaySafe (c : N) : N := if bool_decide (c = bar) then ampersand else c.

Definition renderedChord (strokes : Strokes) : jsstring :=
  let '(i, v, f, s) := strokes in
  if bool_decide (i = [] /\ v = [] /\ f = [] /\ s = []) then placeholder
  else List.map displaySafe (i ++ v ++ shownFinal i v f ++ s).

(** The chords of the enumerator a branch may take: non-empty output that the
    remaining target starts with. *)
Definition matches (target : jsstring) (c : Chord) : Prop :=
  c.1 <> [] /\ c.1 `prefix_of` target.

#[global] Instance matches_dec (target : jsstring) (c : Chord) : Decision (matches target c).
Proof. unfold matches. apply _. Defined.

Definition longestFirst (a b : Chord) : Prop := (length b.1 <= length a.1)%nat.

Definition outputLength (n : nat) (c : Chord) : Prop := length c.1 = n.

#[global] Instance outputLength_dec (n : nat) (c : Chord) : Decision (outputLength n c).
Proof. unfold outputLength. apply _. Defined.

(** [total] Spellings of the search for [target] are consumed and [gen]
    holds the rest. *)
Definition consumed (components : Components) (target : jsstring)
    (total : Z) (gen : Generator) : Prop :=
  0 <= total /\
  toYield gen = drop (Z.to_nat total) (toYield (newGenerator components target)) /\
  ending gen = ending (newGenerator components target).

(** Every loop of [runJob] that waits for its timer stands at a batch head of
    some job. *)
Definition tasksFromJobs (w : Worker) : Prop :=
  forall id maxEntries total gen,
    AwaitTick id maxEntries total gen ∈ tasks w ->
    exists components target, jobAt components target maxEntries total gen.

(** The message is a chunk of job [id]. *)
Definition isChunk (id : Z) (m : Message) : Prop :=
  match m with
  | chunk id' _ _ => id' = id
  | _ => False
  end.

(** No suspended [startJob] of job [id] has the handler of [onmessage]. *)
Definition noCaughtLoad (id : Z) (w : Worker) : Prop :=
  forall job, AwaitFetch job true ∈ tasks w -> req_id job <> id.

(** Job [id] is not the current one and no load of it can still fail into
    the handler of [onmessage]. *)
Definition quiet (id : Z) (w : Worker) : Prop :=
  currentJobId w <> Some id /\ noCaughtLoad id w.

(** What a superseded job does when its timer fires: it starts the pending
    request, if any, and is over; its generator is not asked again. *)
Definition handOff (w : Worker) : Worker :=
  setJobRunning false
    match pendingJob w with
    | Some job => startJob false job (setPendingJob None w)
    | None => setPendingJob None w
    end.

(** [w'] is [w] after code guarded by [currentJobId === id]: the current id is
    the same, no fetch was started, and what was posted carries [id] and was
    posted only if [id] is current. *)
Definition guarded (id : Z) (w w' : Worker) : Prop :=
  currentJobId w' = currentJobId w /\
  (forall job caught, AwaitFetch job caught ∈ tasks w' -> AwaitFetch job caught ∈ tasks w) /\
  exists new,
    posted w' = posted w ++ new /\
    Forall (fun m => msgId m = id) new /\
    (isCurrent id w = false -> new = []).

(** The event is a compute request carrying [id]. *)
Definition requests (id : Z) (e : Event) : Prop :=
  match e with
  | Receive type job => type = lit "compute" /\ req_id job = id
  | _ => False
  end.

(** ** Sample data *)

Module Sample.
Definition T : jsstring := lit "T".
Definition A : jsstring := lit "A".

(** initials {"T":"t"}, vowels {"A":"a"}, finals {}, suffixes {}. *)
Definition table : ChordData :=
  mkChordData (Some [(T, lit "t")]) (Some [(A, lit "a")]) (Some []) None (Some []).

Definition ta : Chord := (lit "ta", (T, A, [], [])).
Definition t_ : Chord := (lit "t", (T, [], [], [])).
Definition a_ : Chord := (lit "a", ([], A, [], [])).

(** initials {"": "x"}: the empty identifier with a fragment of its own. *)
Definition ownEmpty : ChordData :=
  mkChordData (Some [([], lit "x")]) None None None None.

(** initials {"b": "x", "10": "y", "2": "z"}, in the order of the chord file. *)
Definition indexNames : ChordFile :=
  mkChordFile (Some [(lit "b", lit "x"); (lit "10", lit "y"); (lit "2", lit "z")])
    None None None None.

(** Request 1 has eight Spellings, more than one batch; request 2 follows. *)
Definition request1 : Request := mkRequest 1 (lit "v1") (lit "tatata") None.
Definition request2 : Request := mkRequest 2 (lit "v1") (lit "ta") None.

(** Job 1 after its first batch, waiting for its timer. *)
Definition job1Waiting : Worker :=
  run initialWorker [Receive (lit "compute") request1; FetchOk 0 table].
End Sample.

(** ** Further notions: tables, jobs run to their end *)

(** The identifiers of a mapping are pairwise distinct, as the keys of an
    object are. *)
Definition uniqueIdentifiers (m : Entries) : Prop := NoDup (List.map fst m).

(** A template mark: one of the three characters that make a fragment
    non-literal. *)
Definition templateMark (c : N) : Prop := c = 123%N \/ c = 125%N \/ c = 124%N.

(** The chunk [runJob] hands to [onChunk] for one Spelling. *)
Definition chunkOf (id : Z) (way : Spelling) : Message :=
  chunk id [join separator (List.map (fun c => chordRepr c.2) way)]
           [List.map (fun c => c.2) way].

(** A chunk as the page expects it: one display, one list of strokes, the
    display made of those strokes. *)
Definition shaped (m : Message) : Prop :=
  match m with
  | chunk _ spellings ways =>
      exists strokes,
        ways = [strokes] /\ spellings = [join separator (List.map chordRepr strokes)]
  | _ => True
  end.

(** The cap is met by what the generator still has: [maxEntries] is set and
    the Spellings still allowed are no more than those left. *)
Definition capWithin (maxEntries : option Z) (total : Z) (left : nat) : bool :=
  match maxEntries with
  | Some k => Nat.leb (Z.to_nat (k - total)) left
  | None => false
  end.

Definition allowed (maxEntries : option Z) (total : Z) : nat :=
  match maxEntries with
  | Some k => Z.to_nat (k - total)
  | None => O
  end.

(** The Spellings a job that stays current shows from a batch head on: up to
    the cap; or all that is left when the generator returns; or, when it
    throws, the full batches only. *)
Definition shown (maxEntries : option Z) (total : Z) (gen : Generator) : list Spelling :=
  if capWithin maxEntries total (length (toYield gen))
  then take (allowed maxEntries total) (toYield gen)
  else match ending gen with
       | Returned => toYield gen
       | Threw => take (YIELD_EVERY * (length (toYield gen) / YIELD_EVERY)) (toYield gen)
       end.

(** The terminal message of such a job. *)
Definition closing (id : Z) (maxEntries : option Z) (total : Z) (gen : Generator) : Message :=
  if capWithin maxEntries total (length (toYield gen))
  then resultDone id (total + Z.of_nat (allowed maxEntries total))
  else match ending gen with
       | Returned => resultDone id (total + Z.of_nat (length (toYield gen)))
       | Threw => error id NotIterable
       end.

(** [w] after a job has posted [msgs] and is over. *)
Definition finished (w : Worker) (msgs : list Message) : Worker :=
  mkWorker (currentJobId w) false (pendingJob w) (cache w) (tasks w) (posted w ++ msgs).

(** A raised [jobRunning] comes with a loop waiting for its timer. *)
Definition flagBacked (w : Worker) : Prop :=
  jobRunning w = true ->
  exists id maxEntries total gen, AwaitTick id maxEntries total gen ∈ tasks w.



(** How many Spellings one pass of the batch loop with [n] iterations takes
    when the generator has enough: [n], or what the cap still allows. *)
Definition batchSize (n : nat) (maxEntries : option Z) (total : Z) : nat :=
  match maxEntries with
  | Some k => Nat.min n (Z.to_nat (k - total))
  | None => n
  end.

(** From [w] to [w'] the messages posted are new ones that all satisfy [P],
    put after those of [w]. *)
Definition posts (P : Message -> Prop) (w w' : Worker) : Prop :=
  exists new, posted w' = posted w ++ new /\ Forall P new.

(** The chord file of a version is at hand: [cache[version]] is truthy. *)
Definition available (version : jsstring) (w : Worker) : Prop :=
  is_Some (cacheGet version (cache w)).


(** ** The page: what it does with the worker's messages

    The page (main.ts) sends the requests and shows what the worker posts.
    The parts of the document its handlers write are held as the data they
    show: the result list as its bucket elements with their rows, a row as
    its chord boxes, the count line, the CSV table. *)

Module Page.

(** [s.split(sep)] for a non-empty separator: [s] is cut at each occurrence
    of [sep], found from the left. [cur] is the piece being read, [skip] the
    code units of a separator just found that are still to pass. *)
Fixpoint splitFrom (sep : jsstring) (skip : nat) (cur s : jsstring) {struct s}
    : list jsstring :=
  match s with
  | [] => [cur]
  | c :: s' =>
      match skip with
      | S k => splitFrom sep k cur s'
      | O =>
          if startsWith s sep then cur :: splitFrom sep (length sep - 1) [] s'
          else splitFrom sep O (cur ++ [c]) s'
      end
  end.

Definition split (sep s : jsstring) : list jsstring := splitFrom sep O [] s.

(** [chordIndex > 0 ? "+" + c : c]. *)
Definition withJoiner (chordIndex : nat) (c : jsstring) : jsstring :=
  if (0 <? chordIndex)%nat then lit "+" ++ c else c.

Definition chordOutputWithJoiner (display : jsstring) : jsstring :=
  join separator (imap withJoiner (split separator display)).

(** A chord box of a row: its four [data-] attributes, its index and its
    label. *)
Record Box := mkBox {
  box_stroke : Strokes;
  box_index : nat;
  box_label : jsstring
}.

Definition noStroke : Strokes := ([], [], [], []).

Definition buildRow (display : jsstring) (strokes : list Strokes) : list Box :=
  imap (fun chordIndex c =>
          mkBox (default noStroke (strokes !! chordIndex)) chordIndex
            (withJoiner chordIndex c))
    (split separator display).

(** A bucket element: its [data-chord-count] and its rows. *)
Definition Bucket : Type := nat * list (list Box).

(** The end of [getOrCreateBucket]: the new bucket goes before the first
    bucket with a greater count, else last. *)
Fixpoint insertBucket (chordCount : nat) (buckets : list Bucket) : list Bucket :=
  match buckets with
  | [] => [(chordCount, [])]
  | b :: rest =>
      if (chordCount <? b.1)%nat then (chordCount, []) :: b :: rest
      else b :: insertBucket chordCount rest
  end.

(** The container after [getOrCreateBucket]. *)
Definition getOrCreateBucket (buckets : list Bucket) (chordCount : nat) : list Bucket :=
  if existsb (fun b : Bucket => Nat.eqb b.1 chordCount) buckets then buckets
  else insertBucket chordCount buckets.

(** [bucket.insertAdjacentHTML("beforeend", row)] on the first bucket of that
    count, the one [querySelector] finds. *)
Fixpoint addRow (chordCount : nat) (row : list Box) (buckets : list Bucket) : list Bucket :=
  match buckets with
  | [] => []
  | b :: rest =>
      if Nat.eqb b.1 chordCount then (b.1, b.2 ++ [row]) :: rest
      else b :: addRow chordCount row rest
  end.

(** The [for] loop of [appendChunk] on the container. *)
Definition appendChunk (spellings : list jsstring) (ways : list (list Strokes))
    (buckets : list Bucket) : list Bucket :=
  foldl (fun bs (entry : nat * jsstring) =>
           let way := default [] (ways !! entry.1) in
           addRow (length way) (buildRow entry.2 way) (getOrCreateBucket bs (length way)))
    buckets (imap pair spellings).

(** What the output element shows. *)
Inductive Output :=
| Dash
| Computing
| Rows (buckets : list Bucket)
| NoneFound
| Failed (message : ErrorText).

(** The [.chord-output-inner] container of the output element; [appendChunk]
    puts an empty one in when there is none. *)
Definition container (o : Output) : list Bucket :=
  match o with
  | Rows buckets => buckets
  | _ => []
  end.

(** The count line: empty, "n way(s) so far…" or "n way(s)". *)
Inductive Count :=
| Blank
| SoFar (n : Z)
| Ways (n : Z).

Definition CSV_REQUEST_ID : Z := -1.

(** The variables of the page, the select and what it shows; [sent] are the
    requests posted to the worker, oldest first. *)
Record Page := mkPage {
  requestId : Z;
  totalShownForRequest : Z;
  versionValue : jsstring;
  outputCount : Count;
  output : Output;
  csvTableData : list (jsstring * jsstring);
  csvWordQueue : list jsstring;
  csvCurrentWord : jsstring;
  csvDone : bool;
  sent : list Request
}.

Definition setRequestId (v : Z) (p : Page) : Page :=
  mkPage v (totalShownForRequest p) (versionValue p) (outputCount p) (output p)
    (csvTableData p) (csvWordQueue p) (csvCurrentWord p) (csvDone p) (sent p).
Definition setTotalShownForRequest (v : Z) (p : Page) : Page :=
  mkPage (requestId p) v (versionValue p) (outputCount p) (output p)
    (csvTableData p) (csvWordQueue p) (csvCurrentWord p) (csvDone p) (sent p).
Definition setOutputCount (v : Count) (p : Page) : Page :=
  mkPage (requestId p) (totalShownForRequest p) (versionValue p) v (output p)
    (csvTableData p) (csvWordQueue p) (csvCurrentWord p) (csvDone p) (sent p).
Definition setOutput (v : Output) (p : Page) : Page :=
  mkPage (requestId p) (totalShownForRequest p) (versionValue p) (outputCount p) v
    (csvTableData p) (csvWordQueue p) (csvCurrentWord p) (csvDone p) (sent p).
Definition pushCsvRow (word chordOutput : jsstring) (p : Page) : Page :=
  mkPage (requestId p) (totalShownForRequest p) (versionValue p) (outputCount p) (output p)
    (csvTableData p ++ [(word, chordOutput)]) (csvWordQueue p) (csvCurrentWord p)
    (csvDone p) (sent p).
Definition setCsvDone (v : bool) (p : Page) : Page :=
  mkPage (requestId p) (totalShownForRequest p) (versionValue p) (outputCount p) (output p)
    (csvTableData p) (csvWordQueue p) (csvCurrentWord p) v (sent p).
Definition shiftCsvWord (word : jsstring) (queue : list jsstring) (p : Page) : Page :=
  mkPage (requestId p) (totalShownForRequest p) (versionValue p) (outputCount p) (output p)
    (csvTableData p) queue word (csvDone p) (sent p).
Definition postMessage (r : Request) (p : Page) : Page :=
  mkPage (requestId p) (totalShownForRequest p) (versionValue p) (outputCount p) (output p)
    (csvTableData p) (csvWordQueue p) (csvCurrentWord p) (csvDone p) (sent p ++ [r]).

Section Handlers.

(** [s.trim().toLowerCase()]. *)
Variable trimLower : jsstring -> jsstring.

(** [requestUpdate], with the target and the cap as read off the inputs. *)
Definition requestUpdate (target : jsstring) (maxEntries : option Z) (p : Page) : Page :=
  let id := requestId p + 1 in
  let p1 := setRequestId id p in
  if negb (truthy target) then setOutput Dash (setOutputCount Blank p1)
  else
    let p2 := setTotalShownForRequest 0 p1 in
    let p3 := setOutput Computing (setOutputCount Blank p2) in
    postMessage (mkRequest id (versionValue p) target maxEntries) p3.

Definition processNextCsvWord (p : Page) : Page :=
  match csvWordQueue p with
  | [] => setCsvDone true p
  | word :: queue =>
      let p1 := shiftCsvWord word queue p in
      postMessage (mkRequest CSV_REQUEST_ID (versionValue p1) (trimLower word) (Some 1)) p1
  end.

(** One of the three branches of the CSV part of [worker.onmessage]. *)
Definition csvRow (chordOutput : jsstring) (p : Page) : Page :=
  processNextCsvWord (pushCsvRow (csvCurrentWord p) chordOutput p).

(** [worker.onmessage]. *)
Definition onmessage (p : Page) (m : Message) : Page :=
  if bool_decide (msgId m = CSV_REQUEST_ID) then
    match m with
    | chunk _ (display :: _) _ => csvRow (chordOutputWithJoiner display) p
    | chunk _ [] _ => p
    | resultDone _ total => if bool_decide (total = 0) then csvRow [] p else p
    | error _ _ => csvRow [] p
    end
  else if negb (bool_decide (msgId m = requestId p)) then p
  else
    match m with
    | chunk _ spellings ways =>
        let p1 := setOutput (Rows (appendChunk spellings ways (container (output p)))) p in
        let p2 :=
          setTotalShownForRequest (totalShownForRequest p1 + Z.of_nat (length spellings)) p1 in
        setOutputCount (SoFar (totalShownForRequest p2)) p2
    | resultDone _ total =>
        let p1 := setOutputCount (Ways total) p in
        if bool_decide (total = 0) then setOutput NoneFound p1 else p1
    | error _ message => setOutput (Failed message) (setOutputCount Blank p)
    end.

End Handlers.

(** The page when the script has loaded, with [version] selected. *)
Definition initialPage (version : jsstring) : Page :=
  mkPage 0 0 version Blank Dash [] [] [] false [].

(** [keyNamesSorted]. *)
Definition byKeyLengthDesc (a b : jsstring) : Z :=
  Z.of_nat (length b) - Z.of_nat (length a).

Definition keyNamesSorted (keyNames : list jsstring) : list jsstring :=
  sort byKeyLengthDesc (List.filter (fun k => (0 <? length k)%nat) keyNames).

(** [keys.add(key)] on a [Set], held in insertion order. *)
Definition setAdd (key : jsstring) (keys : list jsstring) : list jsstring :=
  if bool_decide (key ∈ keys) then keys else keys ++ [key].

(** The [for (const key of sorted)] loop with its [break]: the first key
    [rest] starts with. *)
Definition firstKey (sorted : list jsstring) (rest : jsstring) : option jsstring :=
  List.find (fun key => startsWith rest key) sorted.

(** The [while (rest)] loop of [parseChordToKeys], with the keys added so far
    and what is left of the chord string. *)
Fixpoint parseLoop (fuel : nat) (sorted keys : list jsstring) (rest : jsstring)
    : option (list jsstring * jsstring) :=
  match fuel with
  | O => None
  | S fuel' =>
      if negb (truthy rest) then Some (keys, rest)
      else
        match firstKey sorted rest with
        | Some key => parseLoop fuel' sorted (setAdd key keys) (slice (length key) rest)
        | None => Some (keys, rest)
        end
  end.

Definition parseChordToKeys (chordStr : jsstring) (keyNames : list jsstring)
    : option (list jsstring) :=
  fst <$> parseLoop (S (length chordStr)) (keyNamesSorted keyNames) [] chordStr.

(** [escapeCsv]: a value with a line feed, a quote or a comma is put in
    quotes, its quotes doubled. *)
Definition needsQuotes (val : jsstring) : bool :=
  existsb (fun c => N.eqb c 10 || N.eqb c 34 || N.eqb c 44)%N val.

Definition doubleQuotes (val : jsstring) : jsstring :=
  flat_map (fun c => if N.eqb c 34 then [34; 34]%N else [c]) val.

Definition escapeCsv (val : jsstring) : jsstring :=
  if negb (needsQuotes val) then val
  else [34%N] ++ doubleQuotes val ++ [34%N].

End Page.

(** ** Further notions: the page *)

(** The greedy reading of a chord string: [taken] are the keys taken off the
    front of [s], each the longest key name (or one of them) that [s] starts
    with at that point, till [rest] is left, which no non-empty key name
    starts. *)
Inductive greedy (keyNames : list jsstring) : list jsstring -> jsstring -> jsstring -> Prop :=
| greedy_stop (rest : jsstring) :
    (forall k, k ∈ keyNames -> k <> [] -> ~ k `prefix_of` rest) ->
    greedy keyNames [] rest rest
| greedy_take (k : jsstring) (taken : list jsstring) (s rest : jsstring) :
    k ∈ keyNames -> k <> [] ->
    (forall k', k' ∈ keyNames -> k' `prefix_of` k ++ s -> (length k' <= length k)%nat) ->
    greedy keyNames taken s rest ->
    greedy keyNames (k :: taken) (k ++ s) rest.

(** The bucket elements stand by their chord count, fewest first, one bucket
    for each count. *)
Definition bucketsSorted (buckets : list Page.Bucket) : Prop :=
  StronglySorted lt (List.map fst buckets).

(** The rows of the result list. *)
Definition rowCount (o : Page.Output) : nat :=
  length (flat_map snd (Page.container o)).

(** What the worker posted from [w] to [w']. *)
Definition newPosts (w w' : Worker) : list Message :=
  drop (length (posted w)) (posted w').


(** * Properties *)

(** ** Strings *)

Lemma truthy_true (s : jsstring) : truthy s = true <-> s <> [].
Proof. destruct s; simpl; split; intros; congruence. Qed.

Lemma truthy_false (s : jsstring) : truthy s = false <-> s = [].
Proof. destruct s; simpl; split; intros; congruence. Qed.

Lemma startsWith_prefix (s p : jsstring) : startsWith s p = true <-> p `prefix_of` s.
Proof.
  revert s. induction p as [|a p IH]; intros s; simpl.
  - split; [intros _; apply prefix_nil | done].
  - destruct s as [|b s].
    + split; [done | intros H; by apply prefix_nil_not in H].
    + rewrite andb_true_iff, N.eqb_eq, IH. split.
      * intros [-> H]. by apply prefix_cons.
      * intros H. split; [by apply prefix_cons_inv_1 in H | by apply prefix_cons_inv_2 in H].
Qed.

Lemma slice_prefix (s p : jsstring) : p `prefix_of` s -> p ++ slice (length p) s = s.
Proof. intros [k ->]. unfold slice. by rewrite drop_app_length. Qed.

Lemma includes_elem (c : N) (s : jsstring) : includes c s = true <-> c ∈ s.
Proof.
  unfold includes. rewrite existsb_exists. split.
  - intros [x [Hin Hx]]. apply N.eqb_eq in Hx. subst x. by apply list_elem_of_In.
  - intros Hin. exists c. split; [by apply list_elem_of_In | apply N.eqb_refl].
Qed.

(** A fragment is literal when it has none of the three template marks;
    only literal fragments add to a chord's output. *)
Lemma isLiteral_spec (s : jsstring) :
  isLiteral s = true <-> (123%N ∉ s) /\ (125%N ∉ s) /\ (124%N ∉ s).
Proof.
  unfold isLiteral. destruct s as [|c s]; simpl negb.
  - cbn iota. split; [|done]. intros _. repeat split; apply not_elem_of_nil.
  - cbn iota. rewrite !andb_true_iff, !negb_true_iff.
    rewrite <- !not_true_iff_false.
    rewrite (includes_elem 123 (c :: s)), (includes_elem 125 (c :: s)),
      (includes_elem 124 (c :: s)). tauto.
Qed.

Lemma literalPart_spec (s : jsstring) :
  literalPart s = s \/ (literalPart s = [] /\ (123%N ∈ s \/ 125%N ∈ s \/ 124%N ∈ s)).
Proof.
  unfold literalPart. destruct (isLiteral s) eqn:E; [by left|]. right. split; [done|].
  apply not_true_iff_false in E. rewrite isLiteral_spec in E.
  destruct (decide (123%N ∈ s)); [tauto|].
  destruct (decide (125%N ∈ s)); [tauto|].
  destruct (decide (124%N ∈ s)); tauto.
Qed.

(** ** Component table builder *)

Lemma hasEmptyKey_spec (items : Entries) :
  hasEmptyKey items = true <-> hasEmptyIdentifier items.
Proof.
  unfold hasEmptyKey, hasEmptyIdentifier. rewrite existsb_exists. split.
  - intros [[k frag] [Hin Hk]]. apply bool_decide_eq_true in Hk. simpl in Hk. subst k.
    exists frag. by apply list_elem_of_In.
  - intros [frag Hin]. exists ([], frag). split; [by apply list_elem_of_In|].
    by apply bool_decide_eq_true.
Qed.

Lemma prepend_normalizes (m : option Entries) :
  normalizes m
    (if negb (hasEmptyKey (default [] m)) then ([], []) :: default [] m else default [] m).
Proof.
  unfold normalizes. destruct (hasEmptyKey (default [] m)) eqn:E; simpl.
  - apply hasEmptyKey_spec in E. split; [done | intros H; by destruct H].
  - split; [|done]. intros H. apply hasEmptyKey_spec in H. congruence.
Qed.

Lemma normalizes_hasEmptyIdentifier (m : option Entries) (l : Entries) :
  normalizes m l -> hasEmptyIdentifier l.
Proof.
  intros [Hyes Hno]. destruct (hasEmptyKey (default [] m)) eqn:E.
  - apply hasEmptyKey_spec in E. by rewrite (Hyes E).
  - rewrite Hno.
    + exists []. apply list_elem_of_here.
    + intros H. apply hasEmptyKey_spec in H. congruence.
Qed.

Lemma normalizes_empty_pair (m : option Entries) (l : Entries) :
  normalizes m l ->
  (([], []) ∈ l <-> ([], []) ∈ default [] m \/ ~ hasEmptyIdentifier (default [] m)).
Proof.
  intros [Hyes Hno]. destruct (hasEmptyKey (default [] m)) eqn:E.
  - apply hasEmptyKey_spec in E. rewrite (Hyes E). split; [by left|].
    intros [H|H]; [done | by destruct H].
  - assert (~ hasEmptyIdentifier (default [] m)) as Hn.
    { intros H. apply hasEmptyKey_spec in H. congruence. }
    rewrite (Hno Hn). split; [by right | intros _; apply list_elem_of_here].
Qed.

Lemma suffixMap_spec (data : ChordData) :
  (forall m, suffix data = Some m -> m <> [] -> suffixMap data = Some m) /\
  (suffix data = None \/ suffix data = Some [] -> suffixMap data = suffixes data).
Proof.
  unfold suffixMap. split.
  - intros m -> Hm. destruct m; congruence.
  - by intros [-> | ->].
Qed.

(** Over the sequences [Object.entries] gave: each of the four lists
    [buildComponents] returns is that sequence, with [("", "")] in front when
    it has no entry for the empty identifier; the suffix list comes from
    [suffix] when that is present and non-empty and from [suffixes]
    otherwise. *)
Lemma buildComponents_lists (data : ChordData) :
  let c := buildComponents data in
  let lists :=
    [ (initials data, c_initials c); (vowels data, c_vowels c);
      (finals data, c_finals c); (suffixMap data, c_suffixes c) ] in
  Forall (fun ml => normalizes ml.1 ml.2) lists /\
  Forall (fun ml => hasEmptyIdentifier ml.2) lists /\
  Forall (fun ml => ([], []) ∈ ml.2 <->
                    ([], []) ∈ default [] ml.1 \/ ~ hasEmptyIdentifier (default [] ml.1))
         lists /\
  (forall m, suffix data = Some m -> m <> [] -> suffixMap data = Some m) /\
  (suffix data = None \/ suffix data = Some [] -> suffixMap data = suffixes data).
Proof.
  intros c lists.
  assert (Forall (fun ml => normalizes ml.1 ml.2) lists) as Hn.
  { subst lists c. unfold buildComponents, withEmpty. simpl.
    repeat (constructor; [apply prepend_normalizes|]). constructor. }
  split; [exact Hn|]. split; [|split].
  - eapply Forall_impl; [exact Hn|]. intros [m l]. apply normalizes_hasEmptyIdentifier.
  - eapply Forall_impl; [exact Hn|]. intros [m l]. apply normalizes_empty_pair.
  - apply suffixMap_spec.
Qed.

(** *** The order [Object.entries] gives *)

Lemma filter_reflect {A : Type} (f : A -> bool) (P : A -> Prop)
    `{!forall x, Decision (P x)} (l : list A) :
  (forall x, f x = true <-> P x) -> List.filter f l = filter P l.
Proof.
  intros Hf. induction l as [|x l IH]; [done|].
  simpl. rewrite filter_cons. destruct (f x) eqn:E.
  - rewrite decide_True by (by apply Hf). by rewrite IH.
  - rewrite decide_False; [done|]. rewrite <- Hf. congruence.
Qed.

Lemma isArrayIndex_true (kv : jsstring * jsstring) :
  isArrayIndex kv = true <-> is_Some (arrayIndex kv.1).
Proof.
  unfold isArrayIndex. destruct (arrayIndex kv.1) as [n|]; split; done.
Qed.

Lemma isArrayIndex_false (kv : jsstring * jsstring) :
  negb (isArrayIndex kv) = true <-> arrayIndex kv.1 = None.
Proof. unfold isArrayIndex. by destruct (arrayIndex kv.1). Qed.

Lemma insertByIndex_perm (x : jsstring * jsstring) (l : Entries) :
  insertByIndex x l ≡ₚ x :: l.
Proof.
  induction l as [|y l IH]; simpl; [done|].
  destruct (N.leb (indexOf x) (indexOf y)); [done|].
  rewrite IH. apply Permutation_swap.
Qed.

Lemma byIndex_perm (l : Entries) : foldr insertByIndex [] l ≡ₚ l.
Proof.
  induction l as [|x l IH]; simpl; [done|]. by rewrite insertByIndex_perm, IH.
Qed.

Lemma insertByIndex_sorted (x : jsstring * jsstring) (l : Entries) :
  StronglySorted (fun a b => (indexOf a <= indexOf b)%N) l ->
  StronglySorted (fun a b => (indexOf a <= indexOf b)%N) (insertByIndex x l).
Proof.
  induction 1 as [|y l Hl IH Hy]; simpl.
  - repeat constructor.
  - destruct (N.leb_spec (indexOf x) (indexOf y)) as [Hle|Hgt].
    + constructor; [by constructor|]. constructor; [done|].
      eapply Forall_impl; [exact Hy|]. simpl. intros z Hz. lia.
    + constructor; [done|]. rewrite insertByIndex_perm. constructor; [lia | done].
Qed.

Lemma byIndex_sorted (l : Entries) :
  StronglySorted (fun a b => (indexOf a <= indexOf b)%N) (foldr insertByIndex [] l).
Proof.
  induction l as [|x l IH]; simpl; [constructor|]. by apply insertByIndex_sorted.
Qed.

Lemma entries_enumerated (o : Obj) : enumerated o (entries o).
Proof.
  exists (foldr insertByIndex [] (List.filter isArrayIndex o)). split; [|split].
  - unfold entries. f_equal. apply filter_reflect. apply isArrayIndex_false.
  - rewrite byIndex_perm. by rewrite (filter_reflect _ _ _ isArrayIndex_true).
  - apply byIndex_sorted.
Qed.

Lemma entries_elem (o : Obj) (kv : jsstring * jsstring) : kv ∈ entries o <-> kv ∈ o.
Proof.
  unfold entries. rewrite elem_of_app, byIndex_perm.
  rewrite !list_elem_of_In, !filter_In, <- !list_elem_of_In.
  destruct (isArrayIndex kv); simpl; intuition congruence.
Qed.

Lemma entries_hasEmptyIdentifier (o : Obj) :
  hasEmptyIdentifier (entries o) <-> hasEmptyIdentifier o.
Proof.
  unfold hasEmptyIdentifier. split; intros [frag H]; exists frag; by apply entries_elem.
Qed.

Lemma entries_noIndexNames (o : Obj) : noIndexNames o -> entries o = o.
Proof.
  intros Hno. unfold entries.
  assert (List.filter isArrayIndex o = [] /\
          List.filter (fun kv => negb (isArrayIndex kv)) o = o) as [-> ->]; [|done].
  induction Hno as [|kv o Hkv Ho [IH1 IH2]]; [done|]. simpl.
  assert (isArrayIndex kv = false) as -> by (unfold isArrayIndex; by rewrite Hkv).
  simpl. by rewrite IH2.
Qed.

Lemma entries_default (o : option Obj) :
  default [] (entries <$> o) = entries (default [] o).
Proof. by destruct o. Qed.

Lemma suffixMap_tablesOf (file : ChordFile) :
  suffixMap (tablesOf file)
  = entries <$> match file_suffix file with
                | Some (_ :: _) => file_suffix file
                | _ => file_suffixes file
                end.
Proof.
  unfold suffixMap, tablesOf. cbn [suffix suffixes].
  destruct (file_suffix file) as [[|kv o]|]; [done| |done].
  cbn [fmap option_fmap option_map]. destruct (entries (kv :: o)) as [|e es] eqn:E; [|done].
  assert (kv ∈ entries (kv :: o)) as H by (apply entries_elem; left).
  rewrite E in H. by apply elem_of_nil in H.
Qed.

Lemma withEmpty_candidateList (o : option Obj) :
  let l := withEmpty (entries <$> o) in
  candidateList o l /\
  hasEmptyIdentifier l /\
  (([], []) ∈ l <-> ([], []) ∈ default [] o \/ ~ hasEmptyIdentifier (default [] o)) /\
  (noIndexNames (default [] o) -> l = default [] o \/ l = ([], []) :: default [] o).
Proof.
  intros l.
  assert (normalizes (entries <$> o) l) as Hn by apply prepend_normalizes.
  assert (candidateList o l) as Hc.
  { exists (entries (default [] o)). split; [apply entries_enumerated|].
    destruct Hn as [Hyes Hno]. rewrite entries_default, entries_hasEmptyIdentifier in Hyes, Hno.
    by split. }
  split; [exact Hc|]. split; [by eapply normalizes_hasEmptyIdentifier|]. split.
  - rewrite (normalizes_empty_pair _ _ Hn), entries_default.
    by rewrite entries_elem, entries_hasEmptyIdentifier.
  - intros Hno. destruct Hn as [Hyes Hnone].
    rewrite entries_default, entries_hasEmptyIdentifier, (entries_noIndexNames _ Hno)
      in Hyes, Hnone.
    destruct (hasEmptyKey (default [] o)) eqn:E.
    + left. apply Hyes. by apply hasEmptyKey_spec.
    + right. apply Hnone. intros H. apply hasEmptyKey_spec in H. congruence.
Qed.

(** C7, as the code has it. Each of the four lists [buildComponents] returns
    is the properties of its table in the order [Object.entries] gives them
    (those whose identifier is an array index first, by ascending index, then
    the others in insertion order; so insertion order when no identifier is
    an array index), with [("", "")] in front when the table has no property
    for the empty identifier; the suffix list comes from [suffix] when that
    is present and non-empty and from [suffixes] otherwise. So every list has
    an entry for the identifier [""], and it has the pair [("", "")] exactly
    when the table had that pair or had no empty identifier at all: a
    property of the table that gives [""] a fragment of its own is kept as it
    is. *)
Theorem buildComponents_normalizes (file : ChordFile) :
  let c := buildComponents (tablesOf file) in
  let suffixTable :=
    match file_suffix file with
    | Some (_ :: _) => file_suffix file
    | _ => file_suffixes file
    end in
  let lists :=
    [ (file_initials file, c_initials c); (file_vowels file, c_vowels c);
      (file_finals file, c_finals c); (suffixTable, c_suffixes c) ] in
  Forall (fun ol => candidateList ol.1 ol.2) lists /\
  Forall (fun ol => hasEmptyIdentifier ol.2) lists /\
  Forall (fun ol => ([], []) ∈ ol.2 <->
                    ([], []) ∈ default [] ol.1 \/ ~ hasEmptyIdentifier (default [] ol.1))
         lists /\
  Forall (fun ol => noIndexNames (default [] ol.1) ->
                    ol.2 = default [] ol.1 \/ ol.2 = ([], []) :: default [] ol.1)
         lists.
Proof.
  intros c suffixTable lists.
  assert (c_suffixes c = withEmpty (entries <$> suffixTable)) as Hs.
  { subst c suffixTable. unfold buildComponents. cbn [c_suffixes].
    rewrite suffixMap_tablesOf. reflexivity. }
  assert (Forall (fun ol : option Obj * Entries => ol.2 = withEmpty (entries <$> ol.1)) lists)
    as Hall.
  { subst lists. repeat (constructor; [done || exact Hs|]). constructor. }
  repeat split.
  all: eapply Forall_impl; [exact Hall|].
  all: intros [o l] Hl; simpl in Hl; subst l.
  all: by destruct (withEmpty_candidateList o) as (H1 & H2 & H3 & H4).
Qed.

(** C7 as written fails. A table that gives the empty identifier a fragment
    of its own is left alone, and its list has no pair [("", "")]. And a table
    with identifiers that are array indices is not listed in insertion order:
    {"b", "10", "2"} gives "2", "10", "b". *)
Lemma buildComponents_keeps_own_empty_identifier :
  (c_initials (buildComponents Sample.ownEmpty) = [([], lit "x")] /\
   ~ (([], []) ∈ c_initials (buildComponents Sample.ownEmpty))) /\
  (c_initials (buildComponents (tablesOf Sample.indexNames))
   = [([], []); (lit "2", lit "z"); (lit "10", lit "y"); (lit "b", lit "x")] /\
   c_initials (buildComponents (tablesOf Sample.indexNames))
   <> ([], []) :: default [] (file_initials Sample.indexNames)).
Proof.
  split; split.
  - reflexivity.
  - intros H. vm_compute in H. apply list_elem_of_singleton in H. discriminate H.
  - reflexivity.
  - vm_compute. discriminate.
Qed.

Lemma buildComponents_normalizes_witness :
  let file := mkChordFile (Some [(Sample.T, lit "t"); (lit "K", lit "k")]) None None None None in
  c_initials (buildComponents (tablesOf file)) = [(Sample.T, lit "t"); (lit "K", lit "k")]
  \/ c_initials (buildComponents (tablesOf file))
     = [([], []); (Sample.T, lit "t"); (lit "K", lit "k")].
Proof.
  intros file.
  pose proof (buildComponents_normalizes file) as (_ & _ & _ & H).
  apply Forall_cons in H as [H _]. apply H. by repeat constructor.
Defined.

(** ** Chord display *)

Lemma replaceAll_displaySafe (s : jsstring) :
  replaceAll bar ampersand s = List.map displaySafe s.
Proof.
  unfold replaceAll. apply map_ext. intros c. unfold displaySafe.
  destruct (N.eqb_spec c bar) as [->|Hne].
  - by rewrite bool_decide_eq_true_2.
  - by rewrite bool_decide_eq_false_2.
Qed.

Lemma fDisplay_shownFinal (i v f : jsstring) :
  (if truthy f && startsWith f [dash] && negb (truthy i) && negb (truthy v) then f
   else if startsWith f [dash] then slice 1 f else f)
  = shownFinal i v f.
Proof.
  unfold shownFinal, stripMarker, slice. destruct f as [|c f'].
  - simpl. by case_bool_decide.
  - cbn [truthy startsWith drop andb]. rewrite andb_true_r.
    destruct (N.eqb_spec dash c) as [Heq|Hne].
    + rewrite (bool_decide_eq_true_2 (c = dash)) by done.
      destruct i, v; simpl; try case_bool_decide; try done; naive_solver.
    + rewrite (bool_decide_eq_false_2 (c = dash)) by congruence.
      simpl. by case_bool_decide.
Qed.

Lemma displaySafe_not_bar (c : N) : displaySafe c <> bar.
Proof. unfold displaySafe. case_bool_decide; [discriminate | done]. Qed.

Lemma map_displaySafe_no_bar (s : jsstring) : bar ∉ List.map displaySafe s.
Proof.
  intros H. apply list_elem_of_In, in_map_iff in H. destruct H as [c [Hc _]].
  by apply displaySafe_not_bar in Hc.
Qed.

(** C9. The display of a chord is its four identifiers in a row, the final
    one without its leading ["-"] unless the chord has neither an initial nor
    a vowel identifier (then the ["-"] stays), with every ["|"] replaced by
    ["&"]; the chord of four empty identifiers is shown as the placeholder.
    The display never holds a ["|"] and is never empty. *)
Theorem chordRepr_rendered (strokes : Strokes) :
  chordRepr strokes = renderedChord strokes /\
  (bar ∉ chordRepr strokes) /\
  chordRepr strokes <> [].
Proof.
  destruct strokes as [[[i v] f] s].
  assert (chordRepr (i, v, f, s) = renderedChord (i, v, f, s)) as Heq.
  { unfold chordRepr, renderedChord. rewrite fDisplay_shownFinal.
    case_bool_decide as Hall.
    - destruct Hall as (-> & -> & -> & ->). reflexivity.
    - destruct (truthy (i ++ v ++ shownFinal i v f ++ s)) eqn:E.
      + apply replaceAll_displaySafe.
      + exfalso. apply Hall. apply truthy_false in E.
        apply app_eq_nil in E as [-> E]. apply app_eq_nil in E as [-> E].
        apply app_eq_nil in E as [E ->]. unfold shownFinal in E.
        rewrite bool_decide_eq_true_2 in E by done. done. }
  split; [exact Heq|]. rewrite Heq. unfold renderedChord.
  case_bool_decide as Hall.
  - split; [|done]. intros H. vm_compute in H.
    apply list_elem_of_In in H. simpl in H. intuition discriminate.
  - split; [apply map_displaySafe_no_bar|].
    intros Hnil. apply map_eq_nil in Hnil. apply Hall.
    apply app_eq_nil in Hnil as [-> E]. apply app_eq_nil in E as [-> E].
    apply app_eq_nil in E as [E ->]. unfold shownFinal in E.
    rewrite bool_decide_eq_true_2 in E by done. done.
Qed.

(** The reading of "no initial or vowel identifier": with a vowel and no
    initial the marker goes, with neither it stays. *)
Example chordRepr_marker :
  chordRepr ([], Sample.A, lit "-F", []) = lit "AF" /\
  chordRepr ([], [], lit "-F", []) = lit "-F" /\
  chordRepr (Sample.T, [], lit "-F|G", lit "S") = lit "TF&GS" /\
  chordRepr ([], [], [], []) = placeholder.
Proof. repeat split. Qed.

(** ** The example table *)

(** C2, as the code has it. With initials {"T":"t"}, vowels {"A":"a"} and no
    finals or suffixes, the search for "ta" yields exactly two Spellings, in
    this order: the one chord [("ta", ["T","A","",""])], then the two chords
    [("t", ["T","","",""]), ("a", ["","A","",""])]; and the generator
    returns. *)
Theorem spellings_ta :
  newGenerator (buildComponents Sample.table) (lit "ta")
  = mkGenerator [[Sample.ta]; [Sample.t_; Sample.a_]] Returned.
Proof. vm_compute. reflexivity. Qed.

(** C2 as written fails: the one-chord Spelling is not the only one. *)
Lemma spellings_ta_not_single :
  spellings (buildComponents Sample.table) (lit "ta") <> [[Sample.ta]].
Proof. vm_compute. discriminate. Qed.

(** ** Sorting by a key, largest first *)

Section SortByKey.
Context {A : Type} (key : A -> nat) (cmp : A -> A -> Z).
Hypothesis cmp_key : forall a b, cmp a b = Z.of_nat (key b) - Z.of_nat (key a).

Let before (a b : A) : Prop := (key b <= key a)%nat.

Lemma cmp_leb (a b : A) : Z.leb (cmp a b) 0 = true <-> before a b.
Proof. rewrite cmp_key, Z.leb_le. unfold before. lia. Qed.

Lemma sort_insert_perm (x : A) (l : list A) : sort_insert cmp x l ≡ₚ x :: l.
Proof.
  induction l as [|y l IH]; simpl; [done|].
  destruct (Z.leb (cmp x y) 0); [done|].
  rewrite IH. apply Permutation_swap.
Qed.

Lemma sort_perm (l : list A) : sort cmp l ≡ₚ l.
Proof.
  induction l as [|x l IH]; simpl; [done|].
  unfold sort in *. simpl. by rewrite sort_insert_perm, IH.
Qed.

Lemma sort_insert_sorted (x : A) (l : list A) :
  StronglySorted before l -> StronglySorted before (sort_insert cmp x l).
Proof.
  induction 1 as [|y l Hl IH Hy]; simpl.
  - repeat constructor.
  - destruct (Z.leb (cmp x y) 0) eqn:E.
    + apply cmp_leb in E. constructor; [by constructor|].
      constructor; [done|]. eapply Forall_impl; [exact Hy|].
      unfold before in *. intros z Hz. lia.
    + assert (~ before x y) as Hn by (rewrite <- cmp_leb; congruence).
      constructor; [done|].
      rewrite sort_insert_perm. constructor; [|done].
      unfold before in *. lia.
Qed.

Lemma sort_sorted (l : list A) : StronglySorted before (sort cmp l).
Proof.
  induction l as [|x l IH]; [constructor|].
  unfold sort in *. simpl. by apply sort_insert_sorted.
Qed.

(** Stability: the elements of one key keep their order. *)
Lemma sort_insert_stable (n : nat) (x : A) (l : list A) :
  List.filter (fun a => Nat.eqb (key a) n) (sort_insert cmp x l)
  = List.filter (fun a => Nat.eqb (key a) n) (x :: l).
Proof.
  induction l as [|y l IH]; [done|]. simpl.
  destruct (Z.leb (cmp x y) 0) eqn:E; [done|].
  assert (key x <> key y) as Hne.
  { intros Heq. assert (before x y) as Hb by (unfold before; lia).
    apply cmp_leb in Hb. congruence. }
  simpl. rewrite IH. simpl.
  destruct (Nat.eqb_spec (key x) n), (Nat.eqb_spec (key y) n); try done. lia.
Qed.

Lemma sort_stable (n : nat) (l : list A) :
  List.filter (fun a => Nat.eqb (key a) n) (sort cmp l)
  = List.filter (fun a => Nat.eqb (key a) n) l.
Proof.
  induction l as [|x l IH]; [done|].
  unfold sort in *. simpl foldr. rewrite sort_insert_stable. simpl. by rewrite IH.
Qed.
End SortByKey.

(** ** Prefix matcher *)

Lemma isPrefixChord_matches (target : jsstring) (c : Chord) :
  isPrefixChord target c = true <-> matches target c.
Proof.
  unfold isPrefixChord, matches.
  by rewrite andb_true_iff, truthy_true, startsWith_prefix.
Qed.

Lemma byOutputLengthDesc_key (a b : Chord) :
  byOutputLengthDesc a b = Z.of_nat (length b.1) - Z.of_nat (length a.1).
Proof. reflexivity. Qed.

Lemma getPrefixChords_perm (target : jsstring) (components : Components) :
  getPrefixChords target components
  ≡ₚ filter (matches target) (allChordOutputs components).
Proof.
  unfold getPrefixChords.
  rewrite (sort_perm byOutputLengthDesc).
  by rewrite (filter_reflect _ (matches target)) by apply isPrefixChord_matches.
Qed.

Lemma getPrefixChords_elem (target : jsstring) (components : Components) (c : Chord) :
  c ∈ getPrefixChords target components <->
  c ∈ allChordOutputs components /\ matches target c.
Proof. rewrite getPrefixChords_perm, list_elem_of_filter. tauto. Qed.

(** C3. The prefix matcher returns exactly the enumerated chords (each as
    often as the enumerator gives it) whose output is non-empty and a prefix
    of the remaining target; the result is sorted by output length, longest
    first; and the chords of one output length stand in the order the chord
    enumerator gave them. *)
Theorem getPrefixChords_sorted_stable (target : jsstring) (components : Components) :
  let found := getPrefixChords target components in
  let wanted := filter (matches target) (allChordOutputs components) in
  found ≡ₚ wanted /\
  StronglySorted longestFirst found /\
  forall n, filter (outputLength n) found = filter (outputLength n) wanted.
Proof.
  intros found wanted. split; [apply getPrefixChords_perm|]. split.
  - apply (sort_sorted (fun c : Chord => length c.1) _ byOutputLengthDesc_key).
  - intros n. subst found wanted. unfold getPrefixChords.
    rewrite <- (filter_reflect (isPrefixChord target) (matches target))
      by apply isPrefixChord_matches.
    rewrite <- !(filter_reflect (fun c : Chord => Nat.eqb (length c.1) n) (outputLength n))
      by (intros c; apply Nat.eqb_eq).
    apply (sort_stable (fun c : Chord => length c.1) _ byOutputLengthDesc_key).
Qed.

(** Two enumerated chords with the same output stay in enumeration order. *)
Example getPrefixChords_ties :
  getPrefixChords (lit "ab")
    (mkComponents [([], []); (lit "X", lit "a"); (lit "Y", lit "ab"); (lit "Z", lit "a")]
       [([], [])] [([], [])] [([], [])])
  = [ (lit "ab", (lit "Y", [], [], []));
      (lit "a", (lit "X", [], [], []));
      (lit "a", (lit "Z", [], [], [])) ].
Proof. reflexivity. Qed.

(** ** Spelling search: termination *)

Section SearchFacts.
Variable components : Components.

Let gen := findSpellingsGenerator components.
Let chords (target : jsstring) := getPrefixChords target components.

Lemma branch_shorter (target : jsstring) (c : Chord) :
  matches target c ->
  c.1 ++ slice (length c.1) target = target /\
  (length (slice (length c.1) target) < length target)%nat.
Proof.
  intros [Hne Hpre]. pose proof (slice_prefix _ _ Hpre) as Heq. split; [done|].
  rewrite <- Heq at 2. rewrite length_app.
  destruct (c.1); [done|]. simpl. lia.
Qed.

Lemma chords_match (target : jsstring) (c : Chord) :
  c ∈ chords target -> matches target c.
Proof. intros H. by apply getPrefixChords_elem in H as [_ H]. Qed.

Lemma forChords_total (g : jsstring -> Memo -> option Run) (target : jsstring)
    (chordList : list Chord) (memo : Memo) :
  (forall c m, c ∈ chordList -> is_Some (g (slice (length c.1) target) m)) ->
  is_Some (forChords g target chordList memo).
Proof.
  revert memo. induction chordList as [|[out strokes] cl IH]; intros memo Hg; simpl.
  - by eexists.
  - destruct (Hg (out, strokes) memo) as [[[restWays memo1] st] Hr]; [left|].
    simpl in Hr. rewrite Hr. destruct st; [|by eexists].
    destruct (IH memo1) as [[[ways' memo2] st'] Hl].
    + intros c m Hc. apply Hg. by right.
    + rewrite Hl. by eexists.
Qed.

Lemma findSpellingsGenerator_is_Some (fuel : nat) (target : jsstring) (memo : Memo) :
  (length target < fuel)%nat -> is_Some (gen fuel target memo).
Proof.
  revert target memo. induction fuel as [|fuel IH]; intros target memo Hlt; [lia|].
  subst gen. simpl. case_bool_decide; [by eexists|].
  destruct (inMemo target memo).
  { destruct (memo !! target); by eexists. }
  destruct (forChords_total (findSpellingsGenerator components fuel) target
              (getPrefixChords target components) memo) as [[[ways memo'] st] Hr].
  - intros c m Hc. apply IH. apply chords_match, branch_shorter in Hc as [_ Hc]. lia.
  - rewrite Hr. destruct st; by eexists.
Qed.

Lemma forChords_mono (g g' : jsstring -> Memo -> option Run) (target : jsstring)
    (chordList : list Chord) (memo : Memo) (r : Run) :
  (forall t m r, g t m = Some r -> g' t m = Some r) ->
  forChords g target chordList memo = Some r ->
  forChords g' target chordList memo = Some r.
Proof.
  intros Hg. revert memo r.
  induction chordList as [|[out strokes] cl IH]; intros memo r; simpl; [done|].
  destruct (g (slice (length out) target) memo) as [[[restWays memo1] st]|] eqn:E; [|done].
  rewrite (Hg _ _ _ E). destruct st; [|done].
  destruct (forChords g target cl memo1) as [[[ways' memo2] st']|] eqn:E'; [|done].
  by rewrite (IH _ _ E').
Qed.

Lemma findSpellingsGenerator_mono (fuel fuel' : nat) (target : jsstring)
    (memo : Memo) (r : Run) :
  (fuel <= fuel')%nat -> gen fuel target memo = Some r -> gen fuel' target memo = Some r.
Proof.
  revert fuel' target memo r.
  induction fuel as [|fuel IH]; intros fuel' target memo r Hle; [done|].
  destruct fuel' as [|fuel']; [lia|]. subst gen. simpl.
  case_bool_decide; [done|]. destruct (inMemo target memo); [done|].
  destruct (forChords (findSpellingsGenerator components fuel) target
              (getPrefixChords target components) memo) as [r'|] eqn:E; [|done].
  erewrite forChords_mono; [done| |exact E].
  intros t m r0. apply IH. lia.
Qed.

Lemma findSpellingsGenerator_total (target : jsstring) (memo : Memo) :
  exists r, forall n, gen (enoughFuel target + n)%nat target memo = Some r.
Proof.
  destruct (findSpellingsGenerator_is_Some (enoughFuel target) target memo) as [r Hr].
  { unfold enoughFuel. lia. }
  exists r. intros n. eapply findSpellingsGenerator_mono; [|exact Hr]. lia.
Qed.

Lemma newGenerator_run (target : jsstring) :
  exists memo',
    gen (enoughFuel target) target ∅
    = Some (toYield (newGenerator components target), memo',
            ending (newGenerator components target)).
Proof.
  destruct (findSpellingsGenerator_total target ∅) as [[[ways memo'] st] Hr].
  specialize (Hr O). rewrite Nat.add_0_r in Hr.
  exists memo'. unfold newGenerator. subst gen. by rewrite Hr.
Qed.

End SearchFacts.

Lemma flat_map_length_const {A B : Type} (f : A -> list B) (k : nat) (l : list A) :
  (forall x, length (f x) = k) -> length (flat_map f l) = (length l * k)%nat.
Proof.
  intros Hf. induction l as [|x l IH]; [done|].
  simpl. rewrite length_app, Hf, IH. lia.
Qed.

Lemma allChordOutputs_length (components : Components) :
  length (allChordOutputs components)
  = (length (c_initials components) * (length (c_vowels components) *
      (length (c_finals components) * length (c_suffixes components))))%nat.
Proof.
  unfold allChordOutputs.
  apply flat_map_length_const. intros [iStroke iVal].
  apply flat_map_length_const. intros [vStroke vVal].
  apply flat_map_length_const. intros [fStroke fVal].
  apply length_map.
Qed.

Lemma getPrefixChords_length (target : jsstring) (components : Components) :
  (length (getPrefixChords target components) <= length (allChordOutputs components))%nat.
Proof. rewrite getPrefixChords_perm. apply length_filter. Qed.

(** A target that names a property every object inherits is "in" the empty
    memo, and iterating the inherited value throws: the generator ends at
    once, having yielded nothing, and the job posts an error. *)
Example inherited_name_throws :
  newGenerator (buildComponents Sample.table) (lit "constructor") = mkGenerator [] Threw /\
  posted (runJob 1 Sample.table (lit "constructor") None
            (mkWorker (Some 1) false None ∅ [] []))
  = [error 1 NotIterable].
Proof. vm_compute. split; reflexivity. Qed.

(** C10. Driven to its end, the generator comes to an end, having yielded
    finitely many Spellings: the same run for every fuel from
    [enoughFuel target] on. Every chord the prefix matcher supplies has a
    non-empty output, so the rest a branch recurses on is strictly shorter
    than the target, and the branches of a target are no more than the
    chords the tables give. *)
Theorem findSpellingsGenerator_terminates (components : Components)
    (target : jsstring) (memo : Memo) :
  (exists ways memo' c, forall n,
     findSpellingsGenerator components (enoughFuel target + n) target memo
     = Some (ways, memo', c)) /\
  Forall (fun c : Chord =>
            c.1 <> [] /\ (length (slice (length c.1) target) < length target)%nat)
         (getPrefixChords target components) /\
  (length (getPrefixChords target components)
   <= length (c_initials components) * (length (c_vowels components) *
        (length (c_finals components) * length (c_suffixes components))))%nat.
Proof.
  split; [|split].
  - destruct (findSpellingsGenerator_total components target memo) as [[[ways memo'] c] Hr].
    by exists ways, memo', c.
  - apply Forall_forall. intros c Hc. apply chords_match in Hc.
    split; [apply Hc | by apply branch_shorter].
  - rewrite <- allChordOutputs_length. apply getPrefixChords_length.
Qed.

(** ** Spelling search: every Spelling spells the target *)

Section SearchSound.
Variable components : Components.

Lemma spelled_cons (c : Chord) (way : Spelling) : spelled (c :: way) = c.1 ++ spelled way.
Proof. reflexivity. Qed.

Lemma memoSound_empty : memoSound ∅.
Proof. intros k ways H. by rewrite lookup_empty in H. Qed.

Lemma memoSound_insert (memo : Memo) (k : jsstring) (ways : list Spelling) :
  memoSound memo -> Forall (fun way => spelled way = k) ways ->
  memoSound (<[ k := ways ]> memo).
Proof.
  intros Hm Hw k' ways' H. rewrite lookup_insert in H. case_decide.
  - by simplify_eq.
  - by apply (Hm k').
Qed.

Lemma forChords_sound (g : jsstring -> Memo -> option Run) (target : jsstring)
    (chordList : list Chord) :
  (forall c, c ∈ chordList -> matches target c) ->
  (forall c m ways m' st, c ∈ chordList -> memoSound m ->
     g (slice (length c.1) target) m = Some (ways, m', st) ->
     Forall (fun way => spelled way = slice (length c.1) target) ways /\ memoSound m') ->
  forall memo ways memo' st,
    memoSound memo ->
    forChords g target chordList memo = Some (ways, memo', st) ->
    Forall (fun way => spelled way = target) ways /\ memoSound memo'.
Proof.
  induction chordList as [|[out strokes] cl IH]; intros Hmatch Hg memo ways memo' st Hm; simpl.
  - intros [= <- <- <-]. by split.
  - assert (forall ways0,
              Forall (fun way => spelled way = slice (length out) target) ways0 ->
              Forall (fun way => spelled way = target)
                     (List.map (cons (out, strokes)) ways0)) as Hcons.
    { intros ways0 H. apply Forall_forall. intros way Hway.
      apply list_elem_of_In, in_map_iff in Hway as [rest [<- Hrest]].
      apply list_elem_of_In in Hrest. rewrite Forall_forall in H.
      rewrite spelled_cons, (H _ Hrest). simpl.
      apply (branch_shorter target (out, strokes)), Hmatch. left. }
    destruct (g (slice (length out) target) memo) as [[[restWays memo1] st1]|] eqn:E; [|done].
    destruct (Hg (out, strokes) memo restWays memo1 st1) as [Hrest Hm1]; [left|done|done|].
    destruct st1.
    + destruct (forChords g target cl memo1) as [[[ways' memo2] st2]|] eqn:E'; [|done].
      intros [= <- <- <-].
      destruct (IH (fun c Hc => Hmatch c (list_elem_of_further _ _ _ Hc))
                   (fun c m w m' s Hc => Hg c m w m' s (list_elem_of_further _ _ _ Hc))
                   memo1 ways' memo2 st2 Hm1 E') as [Hways' Hm2].
      split; [|done]. apply Forall_app. split; [by apply Hcons | done].
    + intros [= <- <- <-]. split; [by apply Hcons | done].
Qed.

Lemma findSpellingsGenerator_sound (fuel : nat) (target : jsstring) (memo : Memo)
    (ways : list Spelling) (memo' : Memo) (st : Completion) :
  memoSound memo ->
  findSpellingsGenerator components fuel target memo = Some (ways, memo', st) ->
  Forall (fun way => spelled way = target) ways /\ memoSound memo'.
Proof.
  revert target memo ways memo' st.
  induction fuel as [|fuel IH]; intros target memo ways memo' st Hm; [done|].
  simpl. case_bool_decide as Hnil.
  { intros [= <- <- <-]. subst target. split; [by repeat constructor|].
    apply memoSound_insert; [done | by repeat constructor]. }
  destruct (inMemo target memo).
  { destruct (memo !! target) as [ws|] eqn:E.
    - intros [= <- <- <-]. split; [by apply (Hm target) | done].
    - intros [= <- <- <-]. by split. }
  destruct (forChords (findSpellingsGenerator components fuel) target
              (getPrefixChords target components) memo)
    as [[[ways0 memo0] st0]|] eqn:E; [|done].
  destruct (forChords_sound _ target (getPrefixChords target components)
              (chords_match components target)
              (fun c m w m' s _ Hm0 Hr => IH _ m w m' s Hm0 Hr)
              memo ways0 memo0 st0 Hm E) as [Hways Hm0].
  destruct st0; intros [= <- <- <-]; (split; [done|]); [|done].
  by apply memoSound_insert.
Qed.

End SearchSound.

(** C1. Every Spelling the search for a target yields is a sequence of
    (output, Strokes) pairs whose outputs, put together in order, are exactly
    the target: for the generator [runJob] starts (fresh memo), and for every
    generator run on a memo whose entries spell their keys, as every nested
    generator of the search is. *)
Theorem spellings_spell_target (components : Components) (target : jsstring) :
  Forall (fun way => spelled way = target) (spellings components target) /\
  forall fuel memo ways memo' st,
    memoSound memo ->
    findSpellingsGenerator components fuel target memo = Some (ways, memo', st) ->
    Forall (fun way => spelled way = target) ways.
Proof.
  split.
  - destruct (newGenerator_run components target) as [memo' Hr].
    by destruct (findSpellingsGenerator_sound components _ _ _ _ _ _ memoSound_empty Hr).
  - intros fuel memo ways memo' st Hm Hr.
    by destruct (findSpellingsGenerator_sound components _ _ _ _ _ _ Hm Hr).
Qed.

Lemma spellings_spell_target_witness :
  Forall (fun way => spelled way = lit "ta") [[Sample.ta]; [Sample.t_; Sample.a_]].
Proof.
  apply (proj2 (spellings_spell_target (buildComponents Sample.table) (lit "ta"))
           3%nat ∅ _ (<[ lit "ta" := [[Sample.ta]; [Sample.t_; Sample.a_]] ]>
                        (<[ lit "a" := [[Sample.a_]] ]> (<[ [] := [[]] ]> ∅))) Returned).
  - apply memoSound_empty.
  - vm_compute. reflexivity.
Defined.

(** ** Spelling search: the memo *)

Section SearchMemo.
Variable components : Components.

Lemma inMemo_own (k : jsstring) (memo : Memo) (ways : list Spelling) :
  memo !! k = Some ways -> inMemo k memo = true.
Proof. intros H. unfold inMemo. rewrite bool_decide_eq_true_2; [done | by eexists]. Qed.

Lemma inMemo_false (k : jsstring) (memo : Memo) :
  inMemo k memo = false -> memo !! k = None /\ inherited k = false.
Proof.
  unfold inMemo. intros H. apply orb_false_iff in H as [H1 H2]. split; [|done].
  apply bool_decide_eq_false in H1. by apply eq_None_not_Some.
Qed.

(** A generator that returns leaves what it yielded under its target. *)
Lemma returned_recorded (fuel : nat) (s : jsstring) (memo0 : Memo)
    (ways : list Spelling) (memo1 : Memo) :
  findSpellingsGenerator components fuel s memo0 = Some (ways, memo1, Returned) ->
  memo1 !! s = Some ways /\ (s = [] -> ways = [[]]).
Proof.
  destruct fuel as [|fuel]; [done|]. simpl. case_bool_decide as Hnil.
  { intros [= <- <-]. subst s. by rewrite lookup_insert_eq. }
  destruct (inMemo s memo0).
  { destruct (memo0 !! s) eqn:E; [|done]. intros [= <- <-]. by split. }
  destruct (forChords _ s _ memo0) as [[[ways0 memo'] st]|]; [|done].
  destruct st; [|done]. intros [= <- <-]. by rewrite lookup_insert_eq.
Qed.

(** A generator for a memoized target replays the entry: no prefix matcher,
    no nested generator (any fuel will do), the memo as it was. *)
Lemma memoized_replayed (fuel : nat) (s : jsstring) (memo : Memo) (ways : list Spelling) :
  memo !! s = Some ways -> (s = [] -> ways = [[]]) ->
  findSpellingsGenerator components (S fuel) s memo = Some (ways, memo, Returned).
Proof.
  intros Hs Hbase. simpl. case_bool_decide as Hnil.
  - subst s. rewrite (Hbase eq_refl) in *. by rewrite insert_id.
  - by rewrite (inMemo_own _ _ _ Hs), Hs.
Qed.

Lemma forChords_invariant (I : Memo -> Prop) (g : jsstring -> Memo -> option Run)
    (target : jsstring) (chordList : list Chord) :
  (forall t m r, I m -> g t m = Some r -> I r.1.2) ->
  forall memo r, I memo -> forChords g target chordList memo = Some r -> I r.1.2.
Proof.
  intros Hg. induction chordList as [|[out strokes] cl IH]; intros memo r HI; simpl.
  - by intros [= <-].
  - destruct (g (slice (length out) target) memo) as [[[restWays memo1] st1]|] eqn:E; [|done].
    pose proof (Hg _ _ _ HI E) as HI1. simpl in HI1.
    destruct st1; [|by intros [= <-]].
    destruct (forChords g target cl memo1) as [[[ways' memo2] st2]|] eqn:E'; [|done].
    intros [= <-]. apply (IH _ _ HI1 E').
Qed.

(** No generator changes an entry that is there. *)
Lemma entries_kept (k : jsstring) (ws : list Spelling) (fuel : nat) (t : jsstring)
    (memo : Memo) (r : Run) :
  (k = [] -> ws = [[]]) ->
  memo !! k = Some ws ->
  findSpellingsGenerator components fuel t memo = Some r -> r.1.2 !! k = Some ws.
Proof.
  intros Hbase. revert t memo r.
  induction fuel as [|fuel IH]; intros t memo r Hk; [done|].
  simpl. case_bool_decide as Hnil.
  { intros [= <-]. simpl. rewrite lookup_insert. case_decide; [|done].
    subst k. by rewrite (Hbase eq_refl). }
  destruct (inMemo t memo) eqn:Hin.
  { destruct (memo !! t); by intros [= <-]. }
  destruct (forChords _ t _ memo) as [[[ways0 memo'] st]|] eqn:E; [|done].
  pose proof (forChords_invariant (fun m => m !! k = Some ws) _ t _
                (fun t0 m r0 => IH t0 m r0) memo _ Hk E) as Hk'.
  simpl in Hk'. destruct st; intros [= <-]; simpl; [|done].
  rewrite lookup_insert_ne; [done|]. intros ->.
  apply inMemo_false in Hin as [Hnone _]. congruence.
Qed.

Lemma memoBase_kept (fuel : nat) (t : jsstring) (memo : Memo) (r : Run) :
  memoBase memo ->
  findSpellingsGenerator components fuel t memo = Some r -> memoBase r.1.2.
Proof.
  revert t memo r. induction fuel as [|fuel IH]; intros t memo r Hb; [done|].
  simpl. case_bool_decide as Hnil.
  { intros [= <-]. intros ws. simpl. rewrite lookup_insert_eq. congruence. }
  destruct (inMemo t memo).
  { destruct (memo !! t); by intros [= <-]. }
  destruct (forChords _ t _ memo) as [[[ways0 memo'] st]|] eqn:E; [|done].
  pose proof (forChords_invariant memoBase _ t _ IH memo _ Hb E) as Hb'.
  simpl in Hb'. destruct st; intros [= <-]; simpl; [|done].
  intros ws. rewrite lookup_insert_ne by done. apply Hb'.
Qed.

(** The shared memo only grows. *)
Lemma memo_grows (fuel : nat) (t : jsstring) (memo : Memo) (r : Run) :
  memoBase memo ->
  findSpellingsGenerator components fuel t memo = Some r ->
  memo ⊆ r.1.2 /\ memoBase r.1.2.
Proof.
  intros Hb Hr. split; [|by eapply memoBase_kept].
  apply map_subseteq_spec. intros k ws Hk.
  eapply entries_kept; [|exact Hk|exact Hr]. intros ->. by apply Hb.
Qed.

End SearchMemo.

(** ** Spelling search: the memo does not change what is yielded *)

Lemma flat_map_ext_elem {A B : Type} (f g : A -> list B) (l : list A) :
  (forall x, x ∈ l -> f x = g x) -> flat_map f l = flat_map g l.
Proof.
  induction l as [|x l IH]; intros H; [done|]. simpl.
  rewrite (H x) by left. rewrite IH; [done|]. intros y Hy. apply H. by right.
Qed.

Section SearchExact.
Variable components : Components.

Let rest (target : jsstring) (c : Chord) : jsstring := slice (length c.1) target.
Let full (target : jsstring) : list Spelling := allSpellings components target.

Lemma decompositions_fuel (fuel fuel' : nat) (target : jsstring) :
  (length target < fuel)%nat -> (length target < fuel')%nat ->
  decompositions components fuel target = decompositions components fuel' target.
Proof.
  revert fuel' target. induction fuel as [|fuel IH]; intros fuel' target H1 H2; [lia|].
  destruct fuel' as [|fuel']; [lia|]. simpl. case_bool_decide; [done|].
  apply flat_map_ext_elem. intros c Hc. f_equal.
  apply chords_match, branch_shorter in Hc as [_ Hc]. apply IH; lia.
Qed.

Lemma decompositions_S (fuel : nat) (target : jsstring) :
  decompositions components (S fuel) target
  = if bool_decide (target = []) then [[]]
    else flat_map
           (fun c => List.map (cons c)
                       (decompositions components fuel (slice (length c.1) target)))
           (getPrefixChords target components).
Proof. reflexivity. Qed.

Lemma allSpellings_nil : full [] = [[]].
Proof. reflexivity. Qed.

Lemma allSpellings_branches (target : jsstring) :
  target <> [] ->
  full target
  = flat_map (fun c => List.map (cons c) (full (rest target c)))
      (getPrefixChords target components).
Proof.
  intros Hne. subst full rest. unfold allSpellings, enoughFuel.
  rewrite (decompositions_S (length target) target).
  rewrite bool_decide_eq_false_2 by done.
  apply flat_map_ext_elem. intros c Hc. f_equal.
  apply chords_match, branch_shorter in Hc as [_ Hc].
  apply decompositions_fuel; lia.
Qed.

Lemma memoExact_insert (memo : Memo) (k : jsstring) :
  memoExact components memo -> memoExact components (<[ k := full k ]> memo).
Proof.
  intros Hm k' ws H. rewrite lookup_insert in H. case_decide.
  - by simplify_eq.
  - by apply Hm.
Qed.

Lemma forChords_exact (g : jsstring -> Memo -> option Run) (target : jsstring)
    (chordList : list Chord) :
  (forall c m ways m' st, c ∈ chordList -> memoExact components m ->
     g (rest target c) m = Some (ways, m', st) ->
     memoExact components m' /\ yieldedOf (full (rest target c)) ways st) ->
  forall memo ways memo' st,
    memoExact components memo ->
    forChords g target chordList memo = Some (ways, memo', st) ->
    memoExact components memo' /\
    yieldedOf (flat_map (fun c => List.map (cons c) (full (rest target c))) chordList) ways st.
Proof.
  induction chordList as [|[out strokes] cl IH]; intros Hg memo ways memo' st Hm; simpl.
  - intros [= <- <- <-]. by split.
  - destruct (g (slice (length out) target) memo) as [[[restWays memo1] st1]|] eqn:E; [|done].
    destruct (Hg (out, strokes) memo restWays memo1 st1 (list_elem_of_here _ _) Hm E)
      as [Hm1 Hrest].
    destruct st1; simpl in Hrest.
    + subst restWays.
      destruct (forChords g target cl memo1) as [[[ways' memo2] st2]|] eqn:E'; [|done].
      intros [= <- <- <-].
      destruct (IH (fun c m w m' s Hc => Hg c m w m' s (list_elem_of_further _ _ _ Hc))
                   memo1 ways' memo2 st2 Hm1 E') as [Hm2 Hways'].
      split; [done|]. destruct st2; simpl in *.
      * by rewrite Hways'.
      * by apply prefix_app.
    + intros [= <- <- <-]. split; [done|]. simpl.
      destruct Hrest as [more ->]. rewrite map_app, <- app_assoc. by eexists.
Qed.

Lemma findSpellingsGenerator_exact (fuel : nat) (target : jsstring) (memo : Memo)
    (ways : list Spelling) (memo' : Memo) (st : Completion) :
  memoExact components memo ->
  findSpellingsGenerator components fuel target memo = Some (ways, memo', st) ->
  memoExact components memo' /\ yieldedOf (full target) ways st.
Proof.
  revert target memo ways memo' st.
  induction fuel as [|fuel IH]; intros target memo ways memo' st Hm; [done|].
  simpl. case_bool_decide as Hnil.
  { intros [= <- <- <-]. subst target. split; [|done].
    rewrite <- allSpellings_nil. by apply memoExact_insert. }
  destruct (inMemo target memo).
  { destruct (memo !! target) as [ws|] eqn:E.
    - intros [= <- <- <-]. split; [done|]. by apply Hm.
    - intros [= <- <- <-]. split; [done|]. apply prefix_nil. }
  destruct (forChords (findSpellingsGenerator components fuel) target
              (getPrefixChords target components) memo)
    as [[[ways0 memo0] st0]|] eqn:E; [|done].
  destruct (forChords_exact _ target (getPrefixChords target components)
              (fun c m w m' s _ Hm0 Hr => IH _ m w m' s Hm0 Hr)
              memo ways0 memo0 st0 Hm E) as [Hm0 Hways].
  rewrite <- allSpellings_branches in Hways by done.
  destruct st0; intros [= <- <- <-]; simpl in *.
  - subst ways0. split; [|done]. by apply memoExact_insert.
  - by split.
Qed.

End SearchExact.

(** The memo-free search lists exactly the decompositions of the target:
    the sequences of enumerated chords with non-empty outputs that spell it. *)
Lemma allSpellings_decompositions (components : Components) (target : jsstring)
    (way : Spelling) :
  way ∈ allSpellings components target <->
  Forall (fun c : Chord => c ∈ allChordOutputs components /\ c.1 <> []) way /\
  spelled way = target.
Proof.
  split.
  - unfold allSpellings. generalize (enoughFuel target). intros fuel.
    revert target way. induction fuel as [|fuel IH]; intros target way; simpl.
    { intros H. by apply not_elem_of_nil in H. }
    case_bool_decide as Hnil.
    { intros H. apply list_elem_of_singleton in H. by subst. }
    intros H. apply list_elem_of_In, in_flat_map in H as [c [Hc H]].
    apply in_map_iff in H as [way' [<- Hway']].
    apply list_elem_of_In in Hc, Hway'. apply IH in Hway' as [Hall Hsp].
    apply getPrefixChords_elem in Hc as [Hc Hm]. split.
    + constructor; [|done]. split; [done | apply Hm].
    + rewrite spelled_cons, Hsp. by apply branch_shorter.
  - revert target. induction way as [|c way IH]; intros target [Hall Hsp].
    { simpl in Hsp. by subst target; left. }
    apply Forall_cons in Hall as [[Hc Hne] Hall]. rewrite spelled_cons in Hsp.
    assert (matches target c) as Hm.
    { split; [done|]. exists (spelled way). by rewrite Hsp. }
    assert (target <> []) as Hnil.
    { intros ->. by destruct (c.1). }
    assert (slice (length c.1) target = spelled way) as Hrest.
    { rewrite <- Hsp. unfold slice. by rewrite drop_app_length. }
    rewrite (allSpellings_branches components target Hnil).
    apply list_elem_of_In, in_flat_map. exists c. split.
    + apply list_elem_of_In, getPrefixChords_elem. by split.
    + apply in_map, list_elem_of_In, IH. by split.
Qed.

(** Memoization is transparent: the search [runJob] starts yields the
    Spellings of the memo-free search of the specification, in its order:
    all of them when the generator returns, a front part of them when it
    throws. *)
Theorem spellings_are_decompositions (components : Components) (target : jsstring) :
  yieldedOf (allSpellings components target) (spellings components target)
    (ending (newGenerator components target)).
Proof.
  destruct (newGenerator_run components target) as [memo' Hr].
  apply (findSpellingsGenerator_exact components _ _ _ _ _ _) in Hr as [_ H]; [done|].
  intros k ws Hk. by rewrite lookup_empty in Hk.
Qed.

(** C8. When a generator for [s] has run to its return (the first full
    computation), the Spellings it yielded are the memo entry of [s]; no
    generator run on the shared memo afterwards changes that entry; and a
    later generator for [s] on a memo with that entry yields the same
    Spellings, element for element and in the same order, with no prefix
    matcher and no nested generator (one unit of fuel is enough), leaving the
    memo as it was. *)
Theorem memo_replay_same_sequence (components : Components) (fuel : nat)
    (s : jsstring) (memo0 : Memo) (ways : list Spelling) (memo1 : Memo) :
  findSpellingsGenerator components fuel s memo0 = Some (ways, memo1, Returned) ->
  memo1 !! s = Some ways /\
  (forall fuel2 t memo2 ways2 memo3 st,
     memo2 !! s = Some ways ->
     findSpellingsGenerator components fuel2 t memo2 = Some (ways2, memo3, st) ->
     memo3 !! s = Some ways) /\
  (forall fuel' memo2,
     memo2 !! s = Some ways ->
     findSpellingsGenerator components (S fuel') s memo2 = Some (ways, memo2, Returned)).
Proof.
  intros Hfirst. destruct (returned_recorded _ _ _ _ _ _ Hfirst) as [Hrec Hbase].
  split; [done|]. split.
  - intros fuel2 t memo2 ways2 memo3 st Hk Hr.
    apply (entries_kept components s ways fuel2 t memo2 _ Hbase Hk Hr).
  - intros fuel' memo2 Hk. by apply memoized_replayed.
Qed.

Lemma memo_replay_same_sequence_witness :
  let memo1 : Memo := <[ lit "a" := [[Sample.a_]] ]> (<[ [] := [[]] ]> ∅) in
  findSpellingsGenerator (buildComponents Sample.table) 1 (lit "a") memo1
  = Some ([[Sample.a_]], memo1, Returned).
Proof.
  intros memo1.
  refine (proj2 (proj2 (memo_replay_same_sequence (buildComponents Sample.table) 2
                          (lit "a") ∅ [[Sample.a_]] memo1 _)) O memo1 _).
  - vm_compute. reflexivity.
  - vm_compute. reflexivity.
Defined.

(** ** Jobs: what a batch posts *)

(** The chunks of a batch: nothing else is posted, nothing else changes. *)
Lemma emitted_batch (id : Z) (batch : list Spelling) (w : Worker) :
  exists chunks,
    foldl (emitWay id) w batch
    = mkWorker (currentJobId w) (jobRunning w) (pendingJob w) (cache w) (tasks w)
        (posted w ++ chunks) /\
    Forall (isChunk id) chunks /\
    (isCurrent id w = false -> chunks = []).
Proof.
  revert w. induction batch as [|way batch IH]; intros w; simpl.
  - exists []. split; [destruct w; simpl; by rewrite (right_id_L [] app)|].
    split; [constructor|done].
  - destruct (IH (emitWay id w way)) as [chunks (Heq & Hch & Hnone)].
    unfold emitWay, onChunk in *. destruct (isCurrent id w) eqn:Hcur.
    + eexists (_ :: chunks). rewrite Heq. simpl. rewrite <- app_assoc. simpl.
      split; [done|]. split; [|done]. constructor; [|done]. reflexivity.
    + exists chunks. rewrite Heq. auto.
Qed.

(** C4. For every component tables, the search for the empty target yields
    exactly one Spelling, the empty sequence, and sets the memo entry of [""]
    to it; and a job for the target [""] (with no cap, or a cap of at least
    one as the request interface has it) posts, when its id is the current
    one, one chunk with the empty Spelling and then [resultDone] with total 1,
    and nothing when it is not. *)
Theorem empty_target_one_spelling (components : Components) (fuel : nat) (memo : Memo)
    (id : Z) (data : ChordData) (maxEntries : option Z) (w : Worker) :
  (forall k, maxEntries = Some k -> 1 <= k) ->
  findSpellingsGenerator components (S fuel) [] memo
  = Some ([[]], <[ [] := [[]] ]> memo, Returned) /\
  (<[ [] := [[]] ]> memo) !! [] = Some [[]] /\
  spellings components [] = [[]] /\
  posted (runJob id data [] maxEntries w)
  = posted w ++ (if isCurrent id w then [chunk id [[]] [[]]; resultDone id 1] else []).
Proof.
  intros Hcap. split; [done|]. split; [apply lookup_insert_eq|]. split; [done|].
  unfold runJob, loopBody.
  assert (newGenerator (buildComponents data) [] = mkGenerator [[]] Returned) as -> by done.
  assert (exists gen' done_,
            collectBatch YIELD_EVERY maxEntries 0 (mkGenerator [[]] Returned) []
            = Batch [[]] 1 gen' done_ /\ done_ || capReached maxEntries 1 = true)
    as (gen' & done_ & -> & ->).
  { destruct maxEntries as [k|]; simpl.
    - specialize (Hcap k eq_refl).
      destruct (Z.leb_spec k 0); [lia|]. simpl. change (0 + 1) with 1.
      destruct (Z.leb_spec k 1) as [Hle|Hgt].
      + by eexists _, _.
      + by eexists _, _.
    - by eexists _, _. }
  simpl. unfold emitWay, onChunk, isCurrent. simpl.
  destruct (bool_decide (currentJobId w = Some id)) eqn:Hcur; simpl; rewrite Hcur; simpl.
  - by rewrite <- app_assoc.
  - by rewrite (right_id_L [] app).
Qed.

Lemma empty_target_one_spelling_witness :
  posted (runJob 7 Sample.table [] (Some 1) (mkWorker (Some 7) false None ∅ [] []))
  = [chunk 7 [[]] [[]]; resultDone 7 1].
Proof.
  refine (proj2 (proj2 (proj2 (empty_target_one_spelling
            (buildComponents Sample.table) O ∅ 7 Sample.table (Some 1)
            (mkWorker (Some 7) false None ∅ [] []) _)))).
  intros k [= <-]. lia.
Defined.

(** ** Jobs: the cap *)

Lemma drop_cons_next {A : Type} (l : list A) (n : nat) (x : A) (r : list A) :
  x :: r = drop n l -> r = drop (S n) l.
Proof.
  revert l. induction n as [|n IH]; intros [|y l]; simpl; try done.
  - by intros [= _ ->].
  - apply IH.
Qed.

Section Cap.
Variables (components : Components) (target : jsstring).

Let all := newGenerator components target.

Let consumed := consumed components target.

Lemma consumed_next (total : Z) (gen : Generator) (way : Spelling) (rest : list Spelling) :
  consumed total gen -> toYield gen = way :: rest ->
  consumed (total + 1) (mkGenerator rest (ending gen)).
Proof.
  intros (H0 & Hdrop & Hend) Hgen. split; [lia|]. split; [|done]. simpl.
  replace (Z.to_nat (total + 1)) with (S (Z.to_nat total)) by lia.
  rewrite Hgen in Hdrop. by apply drop_cons_next in Hdrop.
Qed.

Lemma collectBatch_bounds (n : nat) (maxEntries : option Z) (total : Z)
    (gen : Generator) (batch batch' : list Spelling) (total' : Z) (gen' : Generator)
    (generatorDone : bool) :
  consumed total gen ->
  collectBatch n maxEntries total gen batch = Batch batch' total' gen' generatorDone ->
  consumed total' gen' /\
  (generatorDone = true -> toYield gen' = [] /\ ending gen' = Returned) /\
  (forall k, maxEntries = Some k -> total <= k -> total' <= k).
Proof.
  revert total gen batch. induction n as [|n IH]; intros total gen batch Hc; simpl.
  - intros [= <- <- <- <-]. split; [exact Hc|]. split; [done|]. auto.
  - destruct (capReached maxEntries total) eqn:Hcap.
    { intros [= <- <- <- <-]. split; [exact Hc|]. split; [done|]. auto. }
    unfold next. destruct (toYield gen) as [|way rest] eqn:Hgen.
    + destruct (ending gen) eqn:Hend; [|done]. intros [= <- <- <- <-].
      split; [exact Hc|]. split; [done|]. auto.
    + intros Hr. destruct (IH _ _ _ (consumed_next _ _ _ _ Hc Hgen) Hr) as (Hc' & Hd & Hk).
      split; [done|]. split; [done|]. intros k -> Hle. apply (Hk k eq_refl).
      simpl in Hcap. apply Z.leb_gt in Hcap. lia.
Qed.

Lemma jobAt_consumed (maxEntries : option Z) (total : Z) (gen : Generator) :
  jobAt components target maxEntries total gen ->
  consumed total gen /\ (forall k, maxEntries = Some k -> 0 <= k -> total <= k).
Proof.
  induction 1 as [|total gen batch total' gen' Hjob [Hc Hk] Hbatch Hcap].
  - split; [|done]. split; [done|]. by split.
  - destruct (collectBatch_bounds _ _ _ _ _ _ _ _ _ Hc Hbatch) as (Hc' & _ & Hk').
    split; [done|]. intros k -> Hk0. apply (Hk' k eq_refl), (Hk k eq_refl Hk0).
Qed.

Lemma consumed_all (total : Z) (gen : Generator) :
  consumed total gen -> toYield gen = [] ->
  Z.of_nat (length (spellings components target)) <= total.
Proof.
  intros (H0 & Hdrop & _) Hnil. rewrite Hnil in Hdrop.
  symmetry in Hdrop. apply drop_nil_inv in Hdrop. unfold spellings. subst all. lia.
Qed.

Lemma consumed_returned (total : Z) (gen : Generator) :
  consumed total gen -> ending gen = Returned ->
  spellings components target = allSpellings components target.
Proof.
  intros (_ & _ & Hend) Hret. rewrite Hret in Hend.
  pose proof (spellings_are_decompositions components target) as H.
  rewrite <- Hend in H. by symmetry.
Qed.

Lemma spellings_no_more :
  (length (spellings components target) <= length (allSpellings components target))%nat.
Proof.
  pose proof (spellings_are_decompositions components target) as H.
  destruct (ending (newGenerator components target)); simpl in H.
  - by rewrite H.
  - by apply prefix_length.
Qed.

End Cap.

Lemma loopBody_posted (id : Z) (maxEntries : option Z) (total : Z) (gen : Generator)
    (w : Worker) :
  exists new,
    posted (loopBody id maxEntries total gen w) = posted w ++ new /\
    (isCurrent id w = false -> new = []) /\
    Forall (fun m => msgId m = id) new /\
    forall id' t, resultDone id' t ∈ new ->
      exists batch gen' generatorDone,
        collectBatch YIELD_EVERY maxEntries total gen [] = Batch batch t gen' generatorDone /\
        generatorDone || capReached maxEntries t = true.
Proof.
  unfold loopBody.
  destruct (collectBatch YIELD_EVERY maxEntries total gen [])
    as [batch total' gen' generatorDone|] eqn:Hbatch.
  - destruct (emitted_batch id batch w) as [chunks (Heq & Hch & Hnone)]. rewrite Heq.
    assert (Forall (fun m => msgId m = id) chunks) as Hids.
    { eapply Forall_impl; [exact Hch|]. by intros [| |]. }
    assert (forall id' t, resultDone id' t ∉ chunks) as Hno.
    { intros id' t Hin. rewrite Forall_forall in Hch. by apply Hch in Hin. }
    destruct (generatorDone || capReached maxEntries total') eqn:Hend.
    + unfold isCurrent at 1. simpl. fold (isCurrent id w).
      destruct (isCurrent id w) eqn:Hcur; simpl.
      * exists (chunks ++ [resultDone id total']). rewrite app_assoc.
        split; [done|]. split; [done|]. split.
        { apply Forall_app. split; [done|]. by repeat constructor. }
        intros id' t Hin. apply elem_of_app in Hin as [Hin|Hin]; [by apply Hno in Hin|].
        apply list_elem_of_singleton in Hin. injection Hin as -> ->. by eexists _, _, _.
      * exists chunks. split; [done|]. split; [done|]. split; [done|].
        intros id' t Hin. by apply Hno in Hin.
    + exists chunks. split; [done|]. split; [done|]. split; [done|].
      intros id' t Hin. by apply Hno in Hin.
  - unfold isCurrent at 1. simpl. fold (isCurrent id w).
    destruct (isCurrent id w) eqn:Hcur; simpl.
    + exists [error id NotIterable]. split; [done|]. split; [done|]. split.
      * by repeat constructor.
      * intros id' t Hin. apply list_elem_of_singleton in Hin. discriminate.
    + exists []. rewrite (right_id_L [] app). split; [done|]. split; [done|].
      split; [constructor|]. intros id' t Hin. by apply not_elem_of_nil in Hin.
Qed.

(** The loops the worker holds are jobs at their batch heads: [jobAt] is what
    the event loop can reach. *)
Lemma loopBody_tasks (id : Z) (maxEntries : option Z) (total : Z) (gen : Generator)
    (w : Worker) (t : Task) :
  t ∈ tasks (loopBody id maxEntries total gen w) ->
  t ∈ tasks w \/
  exists batch total' gen',
    t = AwaitTick id maxEntries total' gen' /\
    collectBatch YIELD_EVERY maxEntries total gen [] = Batch batch total' gen' false /\
    capReached maxEntries total' = false.
Proof.
  unfold loopBody.
  destruct (collectBatch YIELD_EVERY maxEntries total gen [])
    as [batch total' gen' generatorDone|] eqn:Hbatch.
  - destruct (emitted_batch id batch w) as [chunks (Heq & _)]. rewrite Heq.
    destruct (generatorDone || capReached maxEntries total') eqn:Hend.
    + unfold isCurrent. simpl. case_bool_decide; simpl; auto.
    + simpl. intros Hin. apply elem_of_app in Hin as [Hin|Hin]; [by left|].
      apply list_elem_of_singleton in Hin. right.
      apply orb_false_iff in Hend as [-> Hcap]. by exists batch, total', gen'.
  - unfold isCurrent. simpl. case_bool_decide; simpl; auto.
Qed.

Lemma loopBody_fromJobs (components : Components) (target : jsstring) (id : Z)
    (maxEntries : option Z) (total : Z) (gen : Generator) (w : Worker) :
  jobAt components target maxEntries total gen ->
  tasksFromJobs w -> tasksFromJobs (loopBody id maxEntries total gen w).
Proof.
  intros Hjob Hw id' mx' total' gen' Hin.
  apply loopBody_tasks in Hin as [Hin|(batch & t & g & [= -> -> -> ->] & Hbatch & Hcap)].
  - by apply (Hw id').
  - exists components, target. by eapply jobAt_resume.
Qed.

Lemma startJob_fromJobs (caught : bool) (job : Request) (w : Worker) :
  tasksFromJobs w -> tasksFromJobs (startJob caught job w).
Proof.
  intros Hw. unfold startJob. destruct (cacheGet _ _) as [data|].
  - unfold runJob. eapply loopBody_fromJobs; [apply jobAt_start|]. exact Hw.
  - intros id mx total gen Hin. simpl in Hin.
    apply elem_of_app in Hin as [Hin|Hin]; [by apply (Hw id)|].
    apply list_elem_of_singleton in Hin. discriminate.
Qed.

Lemma delete_fromJobs (n : nat) (w : Worker) :
  tasksFromJobs w -> tasksFromJobs (setTasks (delete n (tasks w)) w).
Proof.
  intros Hw id mx total gen Hin. apply (Hw id). simpl in Hin.
  by eapply list_elem_of_delete_inv.
Qed.

Lemma step_fromJobs (w : Worker) (e : Event) :
  tasksFromJobs w -> tasksFromJobs (step w e).
Proof.
  intros Hw. destruct e as [type job|n data|n|n]; simpl.
  - unfold onmessage. case_bool_decide; simpl; [|done].
    destruct (jobRunning w); simpl; [done|].
    by apply startJob_fromJobs.
  - destruct (tasks w !! n) as [[job caught|]|] eqn:Ht; try done.
    unfold fetched, runJob. eapply loopBody_fromJobs; [apply jobAt_start|].
    apply (delete_fromJobs n w Hw).
  - destruct (tasks w !! n) as [[job caught|]|] eqn:Ht; try done.
    unfold fetchFailed. destruct caught; [|by apply delete_fromJobs].
    apply (delete_fromJobs n w Hw).
  - destruct (tasks w !! n) as [[|id maxEntries total gen]|] eqn:Ht; try done.
    destruct (Hw id maxEntries total gen) as (components & target & Hjob).
    { by eapply list_elem_of_lookup_2. }
    pose proof (delete_fromJobs n w Hw) as Hw1.
    unfold resumed. destruct (isCurrent id _); simpl.
    + by eapply loopBody_fromJobs.
    + destruct (pendingJob w) as [job|]; [|done].
      by apply (startJob_fromJobs false job
                  (setPendingJob None (setTasks (delete n (tasks w)) w))).
Qed.

Lemma reachable_fromJobs (events : list Event) :
  tasksFromJobs (run initialWorker events).
Proof.
  assert (forall w, tasksFromJobs w -> tasksFromJobs (run w events)) as H.
  { induction events as [|e events IH]; intros w Hw; [done|].
    apply IH. by apply step_fromJobs. }
  apply H. intros id mx total gen Hin. by apply not_elem_of_nil in Hin.
Qed.

(** C5. A job with [maxEntries = k] (a count, [0 <= k]) whose loop stands at
    one of its batch heads posts in that batch no [resultDone] but its own,
    and the total it reports is at most [k]; when the target has more than
    [k] Spellings (those the search yields, or all its decompositions), the
    total is exactly [k]. *)
Theorem cap_respected (components : Components) (target : jsstring) (k : Z)
    (total : Z) (gen : Generator) (id : Z) (w : Worker) :
  0 <= k ->
  jobAt components target (Some k) total gen ->
  exists new,
    posted (loopBody id (Some k) total gen w) = posted w ++ new /\
    forall id' t, resultDone id' t ∈ new ->
      id' = id /\ t <= k /\
      (k < Z.of_nat (length (spellings components target)) -> t = k) /\
      (k < Z.of_nat (length (allSpellings components target)) -> t = k).
Proof.
  intros Hk Hjob. destruct (jobAt_consumed _ _ _ _ _ Hjob) as [Hc Hle].
  specialize (Hle k eq_refl Hk).
  destruct (loopBody_posted id (Some k) total gen w) as [new (Heq & _ & Hids & Hdone)].
  exists new. split; [done|]. intros id' t Hin.
  rewrite Forall_forall in Hids. pose proof (Hids _ Hin) as Hid. simpl in Hid.
  destruct (Hdone _ _ Hin) as (batch & gen' & generatorDone & Hbatch & Hend).
  destruct (collectBatch_bounds _ _ _ _ _ _ _ _ _ _ _ Hc Hbatch) as (Hc' & Hd & Hcap).
  specialize (Hcap k eq_refl Hle). split; [done|]. split; [done|].
  assert (k < Z.of_nat (length (allSpellings components target)) -> t = k) as Hall.
  { intros Hmore. apply orb_true_iff in Hend as [->|Hend].
    - destruct (Hd eq_refl) as [Hnil Hret].
      pose proof (consumed_all _ _ _ _ Hc' Hnil).
      rewrite (consumed_returned _ _ _ _ Hc' Hret) in *. lia.
    - simpl in Hend. apply Z.leb_le in Hend. lia. }
  split; [|done]. intros Hmore. apply Hall.
  pose proof (spellings_no_more components target). lia.
Qed.

Lemma cap_respected_witness :
  exists new,
    posted (loopBody 1 (Some 7) 5
              (mkGenerator
                 (drop 5 (spellings (buildComponents Sample.table) (lit "tatata")))
                 Returned)
              (mkWorker (Some 1) true None ∅ [] []))
    = [] ++ new /\
    forall id' t, resultDone id' t ∈ new ->
      id' = 1 /\ t <= 7 /\
      (7 < Z.of_nat (length (spellings (buildComponents Sample.table) (lit "tatata"))) ->
       t = 7) /\
      (7 < Z.of_nat (length (allSpellings (buildComponents Sample.table) (lit "tatata"))) ->
       t = 7).
Proof.
  apply (cap_respected (buildComponents Sample.table) (lit "tatata") 7 5 _ 1
           (mkWorker (Some 1) true None ∅ [] [])).
  - lia.
  - eapply jobAt_resume.
    + apply jobAt_start.
    + vm_compute. reflexivity.
    + reflexivity.
Defined.

(** The eight Spellings of "tatata" under a cap of seven: five in the first
    batch, two in the second, and the total is the cap. *)
Example cap_seven_of_eight :
  let w := run initialWorker
             [ Receive (lit "compute") (mkRequest 1 (lit "v1") (lit "tatata") (Some 7));
               FetchOk 0 Sample.table; Tick 0 ] in
  length (spellings (buildComponents Sample.table) (lit "tatata")) = 8%nat /\
  List.map msgId (posted w) = [1; 1; 1; 1; 1; 1; 1; 1] /\
  last (posted w) = Some (resultDone 1 7).
Proof. vm_compute. repeat split. Qed.

(** ** Jobs: supersession *)

Lemma emitted_batch_tasks (id : Z) (batch : list Spelling) (w : Worker) :
  currentJobId (foldl (emitWay id) w batch) = currentJobId w /\
  tasks (foldl (emitWay id) w batch) = tasks w.
Proof.
  destruct (emitted_batch id batch w) as [chunks (-> & _)]. by split.
Qed.

Lemma loopBody_guarded (id : Z) (maxEntries : option Z) (total : Z) (gen : Generator)
    (w : Worker) :
  guarded id w (loopBody id maxEntries total gen w).
Proof.
  split; [|split].
  - unfold loopBody. destruct (collectBatch _ _ _ _ _) as [batch total' gen' d|].
    + destruct (emitted_batch_tasks id batch w) as [Hcur _].
      destruct (d || capReached maxEntries total'); simpl; [|done].
      by destruct (isCurrent id _).
    + simpl. by destruct (isCurrent id _).
  - intros job caught. unfold loopBody.
    destruct (collectBatch _ _ _ _ _) as [batch total' gen' d|].
    + destruct (emitted_batch_tasks id batch w) as [_ Htasks].
      destruct (d || capReached maxEntries total'); simpl.
      * destruct (isCurrent id _); simpl; by rewrite Htasks.
      * rewrite Htasks. intros Hin. apply elem_of_app in Hin as [Hin|Hin]; [done|].
        apply list_elem_of_singleton in Hin. discriminate.
    + simpl. by destruct (isCurrent id _).
  - destruct (loopBody_posted id maxEntries total gen w) as [new (Heq & Hnone & Hids & _)].
    by exists new.
Qed.

Lemma runJob_guarded (id : Z) (data : ChordData) (target : jsstring)
    (maxEntries : option Z) (w : Worker) :
  guarded id w (runJob id data target maxEntries w).
Proof.
  unfold runJob.
  destruct (loopBody_guarded id maxEntries 0
              (newGenerator (buildComponents data) target) (setJobRunning true w))
    as (Hcur & Htasks & new & Heq & Hids & Hnone).
  split; [done|]. split; [done|]. by exists new.
Qed.

(** Guarded code keeps a job that is not current silent. *)
Lemma guarded_quiet (j id : Z) (w w' : Worker) :
  guarded id w w' -> quiet j w ->
  quiet j w' /\ exists new, posted w' = posted w ++ new /\ Forall (fun m => msgId m <> j) new.
Proof.
  intros (Hcur & Htasks & new & Heq & Hids & Hnone) [Hj Hload]. split.
  - split; [by rewrite Hcur|]. intros job Hin. by apply Hload, Htasks.
  - exists new. split; [done|]. destruct (decide (id = j)) as [->|Hne].
    + rewrite Hnone; [constructor|]. unfold isCurrent. by apply bool_decide_eq_false.
    + eapply Forall_impl; [exact Hids|]. simpl. intros m ->. done.
Qed.

Lemma quiet_frame (j : Z) (w w' : Worker) :
  currentJobId w' = currentJobId w -> tasks w' = tasks w -> quiet j w -> quiet j w'.
Proof. intros Hcur Htasks [Hj Hload]. split; [by rewrite Hcur|]. unfold noCaughtLoad. by rewrite Htasks. Qed.

Lemma quiet_delete (j : Z) (n : nat) (w : Worker) :
  quiet j w -> quiet j (setTasks (delete n (tasks w)) w).
Proof.
  intros [Hj Hload]. split; [done|]. intros job Hin. apply Hload.
  simpl in Hin. by eapply list_elem_of_delete_inv.
Qed.

Lemma startJob_quiet (j : Z) (caught : bool) (job : Request) (w : Worker) :
  (caught = true -> req_id job <> j) -> quiet j w ->
  quiet j (startJob caught job w) /\
  exists new, posted (startJob caught job w) = posted w ++ new /\
              Forall (fun m => msgId m <> j) new.
Proof.
  intros Hcaught Hq. unfold startJob. destruct (cacheGet _ _) as [data|].
  - eapply guarded_quiet; [apply runJob_guarded | done].
  - split.
    + destruct Hq as [Hj Hload]. split; [done|]. intros job' Hin. simpl in Hin.
      apply elem_of_app in Hin as [Hin|Hin]; [by apply Hload|].
      apply list_elem_of_singleton in Hin. injection Hin as -> <-. by apply Hcaught.
    + exists []. simpl. by rewrite (right_id_L [] app).
Qed.

Lemma resumed_superseded (id : Z) (maxEntries : option Z) (total : Z) (gen : Generator)
    (w : Worker) :
  currentJobId w <> Some id -> resumed id maxEntries total gen w = handOff w.
Proof.
  intros Hne. unfold resumed, handOff, isCurrent.
  by rewrite bool_decide_eq_false_2.
Qed.

(** The conclusion of a lemma on a worker that posted as much as [w]. *)
Ltac same_posts H :=
  let Hq2 := fresh "Hq2" in
  let new := fresh "new" in
  let Heq := fresh "Heq" in
  let Hnew := fresh "Hnew" in
  destruct H as [Hq2 [new [Heq Hnew]]];
  split; [exact Hq2 | exists new; split; [exact Heq | exact Hnew]].

Ltac no_posts := exists []; simpl; by rewrite (right_id_L [] app).

(** One turn of the event loop keeps a job that is not current silent, unless
    the turn is a new request for that very id. *)
Lemma step_quiet (j : Z) (w : Worker) (e : Event) :
  quiet j w -> ~ requests j e ->
  quiet j (step w e) /\
  exists new, posted (step w e) = posted w ++ new /\ Forall (fun m => msgId m <> j) new.
Proof.
  intros Hq Hreq.
  assert (quiet j w /\ exists new, posted w = posted w ++ new /\
                                   Forall (fun m => msgId m <> j) new) as Hsame.
  { split; [done|]. no_posts. }
  destruct e as [type job|n data|n|n]; simpl.
  - unfold onmessage. case_bool_decide as Htype; simpl; [|done].
    assert (req_id job <> j) as Hne by (intros Heq; apply Hreq; by split).
    assert (quiet j (setPendingJob (Some job) (setCurrentJobId (Some (req_id job)) w))) as Hq1.
    { destruct Hq as [_ Hload]. split; [simpl; congruence | done]. }
    destruct (jobRunning w); simpl.
    + split; [done|]. no_posts.
    + assert (quiet j (setPendingJob None
                (setPendingJob (Some job) (setCurrentJobId (Some (req_id job)) w)))) as Hq2.
      { eapply quiet_frame; [..|exact Hq1]; done. }
      same_posts (startJob_quiet j true job _ (fun _ => Hne) Hq2).
  - destruct (tasks w !! n) as [[job caught|]|] eqn:Ht; try done.
    unfold fetched.
    assert (quiet j (setCache (<[req_version job:=data]> (cache w))
                       (setTasks (delete n (tasks w)) w))) as Hq2.
    { eapply quiet_frame; [..|apply (quiet_delete j n w Hq)]; done. }
    same_posts (guarded_quiet j _ _ _
                  (runJob_guarded (req_id job) data (req_target job) (req_maxEntries job) _)
                  Hq2).
  - destruct (tasks w !! n) as [[job caught|]|] eqn:Ht; try done.
    unfold fetchFailed. destruct caught.
    + assert (req_id job <> j) as Hne.
      { destruct Hq as [_ Hload]. apply Hload. by eapply list_elem_of_lookup_2. }
      split.
      * destruct (quiet_delete j n w Hq) as [_ Hload]. by split.
      * exists [error (req_id job) (FailedToLoad (req_version job))].
        split; [done|]. by repeat constructor.
    + split; [by apply quiet_delete|]. no_posts.
  - destruct (tasks w !! n) as [[|id maxEntries total gen]|] eqn:Ht; try done.
    pose proof (quiet_delete j n w Hq) as Hq1.
    destruct (decide (currentJobId w = Some id)) as [Hcur|Hcur].
    + unfold resumed, isCurrent. simpl. rewrite bool_decide_eq_true_2 by done. simpl.
      same_posts (guarded_quiet j _ _ _ (loopBody_guarded id maxEntries total gen _) Hq1).
    + rewrite resumed_superseded by done. unfold handOff. simpl.
      destruct (pendingJob w) as [job|].
      * assert (quiet j (setPendingJob None (setTasks (delete n (tasks w)) w))) as Hq2.
        { eapply quiet_frame; [..|exact Hq1]; done. }
        destruct (startJob_quiet j false job _ (fun H => False_ind _ (Bool.diff_false_true H)) Hq2)
          as [Hq3 Hnew].
        split; [|exact Hnew]. eapply quiet_frame; [..|exact Hq3]; done.
      * split; [|no_posts].
        eapply quiet_frame; [..|exact Hq1]; done.
Qed.

Lemma run_quiet (j : Z) (events : list Event) (w : Worker) :
  quiet j w -> Forall (fun e => ~ requests j e) events ->
  quiet j (run w events) /\
  exists new, posted (run w events) = posted w ++ new /\ Forall (fun m => msgId m <> j) new.
Proof.
  revert w. induction events as [|e events IH]; intros w Hq Hev; simpl.
  - split; [done|]. exists []. by rewrite (right_id_L [] app).
  - apply Forall_cons in Hev as [He Hev].
    destruct (step_quiet j w e Hq He) as [Hq1 [new1 [Heq1 Hnew1]]].
    destruct (IH (step w e) Hq1 Hev) as [Hq2 [new2 [Heq2 Hnew2]]].
    split; [done|]. exists (new1 ++ new2). unfold run in *.
    rewrite Heq2, Heq1, <- app_assoc. split; [done|]. by apply Forall_app.
Qed.

(** A job superseded in its loop. Job [j] is in the loop of [runJob], waiting
    for its timer at a batch boundary, with no load of a request [j] still in
    flight, and a request with another id arrives. Whatever the event loop runs afterwards,
    as long as no new request carries the id [j] again, no chunk, no
    [resultDone] and no error with the id [j] is posted: every post of a job
    is under [currentJobId === id]. And at each of its batch boundaries the
    job checks the id: resumed when it is not the current one, it starts the
    pending request, if any, and is over, its generator not asked again. *)
Theorem superseded_job_posts_nothing (j : Z) (w : Worker) (n : nat)
    (maxEntries : option Z) (total : Z) (gen : Generator)
    (job : Request) (events : list Event) :
  tasks w !! n = Some (AwaitTick j maxEntries total gen) ->
  noCaughtLoad j w ->
  req_id job <> j ->
  Forall (fun e => ~ requests j e) events ->
  (exists new,
     posted (run w (Receive (lit "compute") job :: events)) = posted w ++ new /\
     Forall (fun m => msgId m <> j) new) /\
  (forall w' n',
     tasks w' !! n' = Some (AwaitTick j maxEntries total gen) ->
     currentJobId w' <> Some j ->
     step w' (Tick n') = handOff (setTasks (delete n' (tasks w')) w')).
Proof.
  intros Htask Hload Hne Hev. split.
  - set (w1 := step w (Receive (lit "compute") job)).
    assert (quiet j w1 /\ exists new, posted w1 = posted w ++ new /\
                                      Forall (fun m => msgId m <> j) new) as [Hq1 [new1 [Heq1 Hnew1]]].
    { subst w1. simpl. unfold onmessage. rewrite bool_decide_eq_true_2 by done. simpl.
      assert (quiet j (setPendingJob (Some job) (setCurrentJobId (Some (req_id job)) w))) as Hq1.
      { split; [simpl; congruence | done]. }
      destruct (jobRunning w); simpl.
      - split; [done|]. no_posts.
      - assert (quiet j (setPendingJob None
                  (setPendingJob (Some job) (setCurrentJobId (Some (req_id job)) w)))) as Hq2.
        { eapply quiet_frame; [..|exact Hq1]; done. }
        same_posts (startJob_quiet j true job _ (fun _ => Hne) Hq2). }
    destruct (run_quiet j events w1 Hq1 Hev) as [_ [new2 [Heq2 Hnew2]]].
    exists (new1 ++ new2). change (run w (Receive (lit "compute") job :: events))
      with (run w1 events).
    rewrite Heq2, Heq1, <- app_assoc. split; [done|]. by apply Forall_app.
  - intros w' n' Htask' Hcur. simpl. rewrite Htask'.
    by apply resumed_superseded.
Qed.

Lemma superseded_job_posts_nothing_witness :
  exists new,
    posted (run Sample.job1Waiting [Receive (lit "compute") Sample.request2; Tick 0; Tick 0])
    = posted Sample.job1Waiting ++ new /\
    Forall (fun m => msgId m <> 1) new.
Proof.
  apply (proj1 (superseded_job_posts_nothing 1 Sample.job1Waiting 0 None 5
                  (mkGenerator
                     (drop 5 (spellings (buildComponents Sample.table) (lit "tatata")))
                     Returned)
                  Sample.request2 [Tick 0; Tick 0]
                  ltac:(vm_compute; reflexivity)
                  ltac:(intros job Hin; vm_compute in Hin;
                        apply list_elem_of_singleton in Hin; discriminate Hin)
                  ltac:(vm_compute; discriminate)
                  ltac:(repeat constructor; simpl; tauto))).
Defined.

(** The run of the sample: job 1 posts its first five Spellings and waits;
    request 2 arrives; job 1, resumed, starts job 2 and is over; job 2 posts
    its two Spellings and its total. *)
Example supersession_trace :
  List.map msgId
    (posted (run Sample.job1Waiting [Receive (lit "compute") Sample.request2; Tick 0]))
  = [1; 1; 1; 1; 1; 2; 2; 2] /\
  tasks (run Sample.job1Waiting [Receive (lit "compute") Sample.request2; Tick 0]) = [].
Proof. vm_compute. split; reflexivity. Qed.

(** C6, where the code breaks it. Request 1 is for a version that is not
    loaded yet, so its job is waiting for its fetch when request 2 arrives and
    supersedes it. When the fetch of request 1 then fails, the handler that
    [onmessage] attached to [startJob] posts an error with the id 1 although
    the current id is 2: unlike the handler at the end of [runJob], it has no
    check of the id. It also sets [currentJobId] to null, so the job of
    request 2, whose load succeeds, finds its id not current and posts
    nothing, not even its terminal message. *)
Theorem failed_load_after_supersession :
  let superseded :=
    run initialWorker
      [Receive (lit "compute") Sample.request1; Receive (lit "compute") Sample.request2] in
  let failed := step superseded (FetchFail 0) in
  let later := step failed (FetchOk 0 Sample.table) in
  (currentJobId superseded = Some 2 /\ posted superseded = []) /\
  (posted failed = [error 1 (FailedToLoad (lit "v1"))] /\ currentJobId failed = None) /\
  (posted later = posted failed /\ tasks later = [] /\ jobRunning later = false).
Proof. vm_compute. repeat split. Qed.

(** * Further properties *)

(** ** The chord enumerator *)

Lemma elem_of_flat_map {A B : Type} (f : A -> list B) (l : list A) (y : B) :
  y ∈ flat_map f l <-> exists x, x ∈ l /\ y ∈ f x.
Proof.
  rewrite list_elem_of_In, in_flat_map. split; intros [x [H1 H2]]; exists x.
  - by rewrite !list_elem_of_In.
  - by rewrite <- !list_elem_of_In.
Qed.

Lemma elem_of_map {A B : Type} (f : A -> B) (l : list A) (y : B) :
  y ∈ List.map f l <-> exists x, x ∈ l /\ y = f x.
Proof.
  rewrite list_elem_of_In, in_map_iff. split; intros [x [H1 H2]]; exists x.
  - by rewrite list_elem_of_In.
  - by rewrite <- list_elem_of_In.
Qed.

(** The enumerator gives every combination of one candidate per table, and
    nothing else: a chord is enumerated exactly when its four identifiers are
    entries of the four tables and its output is the four fragments in role
    order, each taken as it is when literal and as [""] when not. *)
Theorem allChordOutputs_combinations (components : Components) (c : Chord) :
  c ∈ allChordOutputs components <->
  exists iStroke iVal vStroke vVal fStroke fVal sStroke sVal,
    (iStroke, iVal) ∈ c_initials components /\
    (vStroke, vVal) ∈ c_vowels components /\
    (fStroke, fVal) ∈ c_finals components /\
    (sStroke, sVal) ∈ c_suffixes components /\
    c = (literalPart iVal ++ literalPart vVal ++ literalPart fVal ++ literalPart sVal,
         (iStroke, vStroke, fStroke, sStroke)).
Proof.
  unfold allChordOutputs. rewrite elem_of_flat_map. split.
  - intros [[iStroke iVal] [Hi H]]. apply elem_of_flat_map in H as [[vStroke vVal] [Hv H]].
    apply elem_of_flat_map in H as [[fStroke fVal] [Hf H]].
    apply elem_of_map in H as [[sStroke sVal] [Hs Hc]]. subst c.
    by exists iStroke, iVal, vStroke, vVal, fStroke, fVal, sStroke, sVal.
  - intros (iStroke & iVal & vStroke & vVal & fStroke & fVal & sStroke & sVal
            & Hi & Hv & Hf & Hs & ->).
    exists (iStroke, iVal). split; [done|]. apply elem_of_flat_map.
    exists (vStroke, vVal). split; [done|]. apply elem_of_flat_map.
    exists (fStroke, fVal). split; [done|]. apply elem_of_map.
    by exists (sStroke, sVal).
Qed.

Lemma literalPart_no_mark (s : jsstring) (u : N) :
  u ∈ literalPart s -> ~ templateMark u.
Proof.
  unfold literalPart. destruct (isLiteral s) eqn:E.
  - apply isLiteral_spec in E as (H1 & H2 & H3). intros Hu [-> | [-> | ->]]; tauto.
  - intros Hu. by apply not_elem_of_nil in Hu.
Qed.

(** No chord output holds a template mark: the output of every enumerated
    chord, and so every output in a Spelling's branch list, is free of
    ["{"], ["}"] and ["|"]. *)
Theorem chord_outputs_literal (components : Components) (target : jsstring) (c : Chord) :
  c ∈ allChordOutputs components \/ c ∈ getPrefixChords target components ->
  forall u, u ∈ c.1 -> ~ templateMark u.
Proof.
  intros Hc. assert (c ∈ allChordOutputs components) as Hin.
  { destruct Hc as [Hc|Hc]; [done|]. by apply getPrefixChords_elem in Hc as [Hc _]. }
  apply elem_of_flat_map in Hin as [[iStroke iVal] [_ Hin]].
  apply elem_of_flat_map in Hin as [[vStroke vVal] [_ Hin]].
  apply elem_of_flat_map in Hin as [[fStroke fVal] [_ Hin]].
  apply elem_of_map in Hin as [[sStroke sVal] [_ Heq]]. subst c. simpl.
  intros u Hu. rewrite !elem_of_app in Hu.
  destruct Hu as [Hu|[Hu|[Hu|Hu]]]; by eapply literalPart_no_mark.
Qed.

Lemma chord_outputs_literal_witness :
  Sample.ta ∈ getPrefixChords (lit "ta") (buildComponents Sample.table) /\
  ~ templateMark 116%N.
Proof.
  assert (Sample.ta ∈ getPrefixChords (lit "ta") (buildComponents Sample.table)) as H
    by (vm_compute; left).
  split; [exact H|].
  apply (chord_outputs_literal (buildComponents Sample.table) (lit "ta") Sample.ta).
  - by right.
  - vm_compute. left.
Defined.

(** ** The component table builder, again *)

Lemma hasEmptyKey_false (items : Entries) :
  hasEmptyKey items = false -> [] ∉ List.map fst items.
Proof.
  intros E Hin. apply elem_of_map in Hin as [[k frag] [Hin Hk]]. simpl in Hk. subst k.
  assert (hasEmptyKey items = true) as Ht by (apply hasEmptyKey_spec; by exists frag).
  congruence.
Qed.

Lemma prepend_unique (items : Entries) :
  uniqueIdentifiers items ->
  uniqueIdentifiers (if negb (hasEmptyKey items) then ([], []) :: items else items).
Proof.
  intros Hu. destruct (hasEmptyKey items) eqn:E; simpl; [done|].
  unfold uniqueIdentifiers. simpl. constructor; [by apply hasEmptyKey_false | done].
Qed.

Lemma prepend_hasEmptyKey (items : Entries) :
  hasEmptyKey (if negb (hasEmptyKey items) then ([], []) :: items else items) = true.
Proof. by destruct (hasEmptyKey items) eqn:E. Qed.

Lemma unique_fragment (items : Entries) (k frag frag' : jsstring) :
  uniqueIdentifiers items -> (k, frag) ∈ items -> (k, frag') ∈ items -> frag = frag'.
Proof.
  unfold uniqueIdentifiers. induction items as [|[k0 f0] items IH]; simpl; intros Hu H1 H2.
  { by apply not_elem_of_nil in H1. }
  apply NoDup_cons in Hu as [Hk0 Hu].
  apply elem_of_cons in H1 as [H1|H1]; apply elem_of_cons in H2 as [H2|H2].
  - congruence.
  - injection H1 as -> ->. exfalso. apply Hk0. apply elem_of_map. by exists (k0, frag').
  - injection H2 as -> ->. exfalso. apply Hk0. apply elem_of_map. by exists (k0, frag).
  - by apply IH.
Qed.

(** When the identifiers of every mapping of the chord file are pairwise
    distinct (as the keys of an object are), so are those of the four
    candidate lists, and each list has the empty identifier exactly once:
    there is one fragment it is mapped to. *)
Theorem buildComponents_unique (data : ChordData) :
  Forall (fun m => uniqueIdentifiers (default [] m))
    [initials data; vowels data; finals data; suffix data; suffixes data] ->
  Forall (fun l => uniqueIdentifiers l /\
                   exists frag, forall frag', ([], frag') ∈ l <-> frag' = frag)
    [ c_initials (buildComponents data); c_vowels (buildComponents data);
      c_finals (buildComponents data); c_suffixes (buildComponents data) ].
Proof.
  intros Hall. rewrite !Forall_cons in Hall.
  destruct Hall as (Hi & Hv & Hf & Hs & Hss & _).
  assert (uniqueIdentifiers (default [] (suffixMap data))) as Hsm.
  { unfold suffixMap. destruct (suffix data) as [[|e m]|]; done. }
  assert (forall items, uniqueIdentifiers items ->
            let l := if negb (hasEmptyKey items) then ([], []) :: items else items in
            uniqueIdentifiers l /\ exists frag, forall frag', ([], frag') ∈ l <-> frag' = frag)
    as Hone.
  { intros items Hu l. pose proof (prepend_unique items Hu) as Hl. split; [done|].
    pose proof (prepend_hasEmptyKey items) as He. apply hasEmptyKey_spec in He as [frag Hin].
    exists frag. intros frag'. split.
    - intros Hin'. by apply (unique_fragment _ [] frag' frag Hl).
    - by intros ->. }
  unfold buildComponents, withEmpty. simpl.
  repeat (constructor; [by apply Hone|]). constructor.
Qed.

Lemma buildComponents_unique_witness :
  Forall (fun l => uniqueIdentifiers l /\
                   exists frag, forall frag', ([], frag') ∈ l <-> frag' = frag)
    [ c_initials (buildComponents Sample.table); c_vowels (buildComponents Sample.table);
      c_finals (buildComponents Sample.table); c_suffixes (buildComponents Sample.table) ].
Proof.
  apply (buildComponents_unique Sample.table).
  repeat constructor; vm_compute; intros H;
    repeat (apply elem_of_cons in H as [H|H]; [discriminate H|]);
    by apply not_elem_of_nil in H.
Defined.


(** ** The search: what it finds *)

Lemma forChords_returned (components : Components) (g : jsstring -> Memo -> option Run)
    (target : jsstring) (chordList : list Chord) :
  (forall c m r, c ∈ chordList -> g (slice (length c.1) target) m = Some r -> r.2 = Returned) ->
  forall memo r, forChords g target chordList memo = Some r -> r.2 = Returned.
Proof.
  induction chordList as [|[out strokes] cl IH]; intros Hg memo r; simpl.
  - by intros [= <-].
  - destruct (g (slice (length out) target) memo) as [[[restWays memo1] st1]|] eqn:E; [|done].
    pose proof (Hg (out, strokes) memo _ (list_elem_of_here _ _) E) as Hst. simpl in Hst.
    subst st1.
    destruct (forChords g target cl memo1) as [[[ways' memo2] st2]|] eqn:E'; [|done].
    intros [= <-]. simpl.
    apply (IH (fun c m r Hc => Hg c m r (list_elem_of_further _ _ _ Hc)) memo1 _ E').
Qed.

(** The inherited names are words of seven letters and more. *)
Lemma inherited_length (s : jsstring) : inherited s = true -> (7 <= length s)%nat.
Proof.
  unfold inherited. intros H. apply bool_decide_eq_true in H. vm_compute in H.
  repeat (apply elem_of_cons in H as [->|H]; [vm_compute; lia|]).
  by apply not_elem_of_nil in H.
Qed.

(** The generator returns when no suffix of the target names an inherited
    property. *)
Lemma findSpellingsGenerator_returned (components : Components) (fuel : nat)
    (target : jsstring) (memo : Memo) (r : Run) :
  (forall s, s `suffix_of` target -> inherited s = false) ->
  findSpellingsGenerator components fuel target memo = Some r -> r.2 = Returned.
Proof.
  revert target memo r. induction fuel as [|fuel IH]; intros target memo r Hsuf; [done|].
  simpl. case_bool_decide; [by intros [= <-]|].
  destruct (inMemo target memo) eqn:Hin.
  { destruct (memo !! target) as [ways|] eqn:E; intros [= <-]; [done|]. exfalso.
    unfold inMemo in Hin. rewrite E, (Hsuf target) in Hin by done.
    rewrite bool_decide_eq_false_2 in Hin; [done|]. by intros [? ?]. }
  destruct (forChords _ target _ memo) as [[[ways memo'] st]|] eqn:E; [|done].
  assert (st = Returned) as ->.
  { apply (forChords_returned components _ target _) in E; [done|].
    intros c m r0 Hc Hr. eapply IH; [|exact Hr].
    intros s Hs. apply Hsuf. etrans; [exact Hs|]. apply suffix_drop. }
  by intros [= <-].
Qed.

(** For a target none of whose suffixes names an inherited property, the
    search returns, and what it yields is, in the order of the memo-free
    search, exactly the decompositions of the target: every sequence of
    enumerated chords with non-empty outputs whose outputs spell the target,
    and no other. *)
Theorem spellings_complete (components : Components) (target : jsstring) :
  (forall s, s `suffix_of` target -> inherited s = false) ->
  ending (newGenerator components target) = Returned /\
  spellings components target = allSpellings components target /\
  forall way,
    way ∈ spellings components target <->
    Forall (fun c : Chord => c ∈ allChordOutputs components /\ c.1 <> []) way /\
    spelled way = target.
Proof.
  intros Hsuf. destruct (newGenerator_run components target) as [memo' Hr].
  pose proof (findSpellingsGenerator_returned components _ _ _ _ Hsuf Hr) as Hret.
  simpl in Hret.
  assert (spellings components target = allSpellings components target) as Heq.
  { pose proof (spellings_are_decompositions components target) as H.
    by rewrite Hret in H. }
  split; [done|]. split; [done|]. intros way. rewrite Heq.
  apply allSpellings_decompositions.
Qed.

Lemma spellings_complete_witness :
  [Sample.t_; Sample.a_] ∈ spellings (buildComponents Sample.table) (lit "ta").
Proof.
  assert (forall s, s `suffix_of` lit "ta" -> inherited s = false) as Hsuf.
  { intros s Hs. apply suffix_length in Hs. apply not_true_iff_false. intros Hin.
    apply inherited_length in Hin.
    assert (length (lit "ta") = 2%nat) as Hlen by reflexivity. lia. }
  apply (proj2 (proj2 (spellings_complete (buildComponents Sample.table) (lit "ta") Hsuf))).
  split; [|reflexivity].
  repeat constructor; try discriminate; vm_compute;
    repeat (first [apply list_elem_of_here | apply list_elem_of_further]).
Defined.

(** ** The search: no Spelling twice *)

Lemma NoDup_flat_map_disjoint {A B : Type} (f : A -> list B) (l : list A) :
  NoDup l ->
  (forall x, x ∈ l -> NoDup (f x)) ->
  (forall x y b, x ∈ l -> y ∈ l -> b ∈ f x -> b ∈ f y -> x = y) ->
  NoDup (flat_map f l).
Proof.
  induction 1 as [|x l Hx Hl IH]; intros Hf Hdis; simpl; [constructor|].
  apply NoDup_app. split; [apply Hf; left|]. split.
  - intros b Hb Hin. apply elem_of_flat_map in Hin as [y [Hy Hby]].
    assert (x = y) as -> by (eapply Hdis; [left|by right|done|done]). done.
  - apply IH.
    + intros y Hy. apply Hf. by right.
    + intros y z b Hy Hz. apply Hdis; by right.
Qed.

Lemma NoDup_flat_map_keyed {A B K : Type} (key : A -> K) (tag : B -> K)
    (f : A -> list B) (l : list A) :
  NoDup l ->
  (forall x y, x ∈ l -> y ∈ l -> key x = key y -> x = y) ->
  (forall x, x ∈ l -> NoDup (f x)) ->
  (forall x b, b ∈ f x -> tag b = key x) ->
  NoDup (flat_map f l).
Proof.
  intros Hl Hkey Hf Htag. apply NoDup_flat_map_disjoint; [done|done|].
  intros x y b Hx Hy Hbx Hby. apply Hkey; [done|done|].
  by rewrite <- (Htag x b Hbx), <- (Htag y b Hby).
Qed.

Lemma NoDup_map_keyed {A B K : Type} (key : A -> K) (tag : B -> K)
    (f : A -> B) (l : list A) :
  NoDup l ->
  (forall x y, x ∈ l -> y ∈ l -> key x = key y -> x = y) ->
  (forall x, tag (f x) = key x) ->
  NoDup (List.map f l).
Proof.
  intros Hl Hkey Htag. induction Hl as [|x l Hx Hl IH]; simpl; constructor.
  - intros Hin. apply elem_of_map in Hin as [y [Hy Heq]].
    assert (x = y) as ->; [|done].
    apply Hkey; [left|by right|]. by rewrite <- !Htag, Heq.
  - apply IH. intros y z Hy Hz. apply Hkey; by right.
Qed.

Lemma unique_entries (items : Entries) : uniqueIdentifiers items -> NoDup items.
Proof.
  unfold uniqueIdentifiers. induction items as [|[k v] items IH]; simpl; intros Hu.
  { constructor. }
  apply NoDup_cons in Hu as [Hk Hu]. constructor; [|by apply IH].
  intros Hin. apply Hk. apply elem_of_map. by exists (k, v).
Qed.

Lemma unique_entry (items : Entries) :
  uniqueIdentifiers items ->
  forall x y : jsstring * jsstring, x ∈ items -> y ∈ items -> x.1 = y.1 -> x = y.
Proof.
  intros Hu [k v] [k' v']. simpl. intros H1 H2 <-.
  by rewrite (unique_fragment items k v v' Hu H1 H2).
Qed.

Lemma allChordOutputs_NoDup (components : Components) :
  uniqueIdentifiers (c_initials components) -> uniqueIdentifiers (c_vowels components) ->
  uniqueIdentifiers (c_finals components) -> uniqueIdentifiers (c_suffixes components) ->
  NoDup (allChordOutputs components).
Proof.
  intros Hi Hv Hf Hs. unfold allChordOutputs.
  apply (NoDup_flat_map_keyed fst (fun c : Chord => c.2.1.1.1));
    [by apply unique_entries | by apply unique_entry | |].
  - intros [iStroke iVal] _.
    apply (NoDup_flat_map_keyed fst (fun c : Chord => c.2.1.1.2));
      [by apply unique_entries | by apply unique_entry | |].
    + intros [vStroke vVal] _.
      apply (NoDup_flat_map_keyed fst (fun c : Chord => c.2.1.2));
        [by apply unique_entries | by apply unique_entry | |].
      * intros [fStroke fVal] _.
        apply (NoDup_map_keyed fst (fun c : Chord => c.2.2));
          [by apply unique_entries | by apply unique_entry |].
        by intros [sStroke sVal].
      * intros [fStroke fVal] b Hb. apply elem_of_map in Hb as [[sStroke sVal] [_ Hb]].
        by subst b.
    + intros [vStroke vVal] b Hb. apply elem_of_flat_map in Hb as [[fStroke fVal] [_ Hb]].
      apply elem_of_map in Hb as [[sStroke sVal] [_ Hb]]. by subst b.
  - intros [iStroke iVal] b Hb. apply elem_of_flat_map in Hb as [[vStroke vVal] [_ Hb]].
    apply elem_of_flat_map in Hb as [[fStroke fVal] [_ Hb]].
    apply elem_of_map in Hb as [[sStroke sVal] [_ Hb]]. by subst b.
Qed.

Lemma getPrefixChords_NoDup (target : jsstring) (components : Components) :
  NoDup (allChordOutputs components) -> NoDup (getPrefixChords target components).
Proof. intros H. rewrite getPrefixChords_perm. by apply NoDup_filter. Qed.

Lemma decompositions_NoDup (components : Components) (fuel : nat) (target : jsstring) :
  NoDup (allChordOutputs components) -> NoDup (decompositions components fuel target).
Proof.
  intros Hall. revert target. induction fuel as [|fuel IH]; intros target; simpl.
  { constructor. }
  case_bool_decide; [apply NoDup_singleton|].
  apply NoDup_flat_map_disjoint; [by apply getPrefixChords_NoDup| |].
  - intros c _. apply (NoDup_map_keyed id (fun way : Spelling => tail way)); [apply IH| |done].
    intros x y _ _ Hxy. exact Hxy.
  - intros c c' way _ _ Hc Hc'.
    apply elem_of_map in Hc as [w [_ ->]]. apply elem_of_map in Hc' as [w' [_ Heq]].
    by injection Heq.
Qed.

(** When the identifiers of each of the four tables are pairwise distinct, no
    Spelling is yielded twice. *)
Theorem spellings_NoDup (components : Components) (target : jsstring) :
  uniqueIdentifiers (c_initials components) -> uniqueIdentifiers (c_vowels components) ->
  uniqueIdentifiers (c_finals components) -> uniqueIdentifiers (c_suffixes components) ->
  NoDup (spellings components target).
Proof.
  intros Hi Hv Hf Hs.
  pose proof (decompositions_NoDup components (enoughFuel target) target
                (allChordOutputs_NoDup components Hi Hv Hf Hs)) as Hall.
  fold (allSpellings components target) in Hall.
  pose proof (spellings_are_decompositions components target) as H.
  destruct (ending (newGenerator components target)); simpl in H.
  - by rewrite H.
  - destruct H as [more Hmore]. rewrite Hmore in Hall. by apply NoDup_app in Hall as [? _].
Qed.

Lemma spellings_NoDup_witness :
  NoDup (spellings (buildComponents Sample.table) (lit "tatata")).
Proof.
  apply spellings_NoDup; vm_compute; repeat constructor;
    intros H; repeat (apply elem_of_cons in H as [H|H]; [discriminate H|]);
    by apply not_elem_of_nil in H.
Defined.

(** ** Jobs: a job that stays current, from its start to its end *)

Lemma emitted_current (id : Z) (batch : list Spelling) (w : Worker) :
  isCurrent id w = true ->
  foldl (emitWay id) w batch
  = mkWorker (currentJobId w) (jobRunning w) (pendingJob w) (cache w) (tasks w)
      (posted w ++ List.map (chunkOf id) batch).
Proof.
  revert w. induction batch as [|way batch IH]; intros w Hcur; simpl.
  - rewrite (right_id_L [] app). by destruct w.
  - unfold emitWay at 2, onChunk. rewrite Hcur. rewrite IH by done.
    simpl. by rewrite <- app_assoc.
Qed.

Lemma capReached_false (maxEntries : option Z) (total : Z) (n : nat) :
  capReached maxEntries total = false -> batchSize (S n) maxEntries total
  = S (batchSize n maxEntries (total + 1)).
Proof.
  destruct maxEntries as [k|]; unfold batchSize, capReached; [|done].
  intros H. apply Z.leb_gt in H. lia.
Qed.

Lemma capReached_true (maxEntries : option Z) (total : Z) (n : nat) :
  capReached maxEntries total = true -> batchSize n maxEntries total = O.
Proof.
  destruct maxEntries as [k|]; unfold batchSize, capReached; [|done].
  intros H. apply Z.leb_le in H. lia.
Qed.

(** The batch loop when the generator has enough for the batch. *)
Lemma collectBatch_enough (n : nat) (maxEntries : option Z) (total : Z)
    (ys : list Spelling) (e : Completion) (batch : list Spelling) :
  (batchSize n maxEntries total <= length ys)%nat ->
  collectBatch n maxEntries total (mkGenerator ys e) batch
  = Batch (batch ++ take (batchSize n maxEntries total) ys)
      (total + Z.of_nat (batchSize n maxEntries total))
      (mkGenerator (drop (batchSize n maxEntries total) ys) e) false.
Proof.
  revert total ys batch. induction n as [|n IH]; intros total ys batch Hle.
  - assert (batchSize 0 maxEntries total = O) as ->
      by (destruct maxEntries; unfold batchSize; lia).
    cbn [collectBatch]. by rewrite take_0, drop_0, (right_id_L [] app), Z.add_0_r.
  - cbn [collectBatch]. destruct (capReached maxEntries total) eqn:Hcap.
    + rewrite (capReached_true _ _ (S n) Hcap).
      by rewrite take_0, drop_0, (right_id_L [] app), Z.add_0_r.
    + rewrite (capReached_false _ _ n Hcap) in *.
      destruct ys as [|y ys]; [simpl in Hle; lia|]. simpl in Hle.
      unfold next. cbn [toYield ending]. rewrite IH by lia.
      cbn [take drop]. rewrite <- app_assoc. cbn [app]. f_equal. lia.
Qed.

(** The batch loop when the generator ends within the batch. *)
Lemma collectBatch_short (n : nat) (maxEntries : option Z) (total : Z)
    (ys : list Spelling) (e : Completion) (batch : list Spelling) :
  (length ys < batchSize n maxEntries total)%nat ->
  collectBatch n maxEntries total (mkGenerator ys e) batch
  = match e with
    | Returned =>
        Batch (batch ++ ys) (total + Z.of_nat (length ys)) (mkGenerator [] Returned) true
    | Threw => Raised
    end.
Proof.
  revert total ys batch. induction n as [|n IH]; intros total ys batch Hlt.
  - destruct maxEntries; unfold batchSize in Hlt; lia.
  - cbn [collectBatch]. destruct (capReached maxEntries total) eqn:Hcap.
    + rewrite (capReached_true _ _ (S n) Hcap) in Hlt. lia.
    + rewrite (capReached_false _ _ n Hcap) in Hlt.
      destruct ys as [|y ys].
      * unfold next. cbn [toYield ending]. destruct e; [|done].
        by rewrite (right_id_L [] app), Z.add_0_r.
      * unfold next. cbn [toYield ending]. simpl in Hlt. rewrite IH by lia.
        destruct e; [|done]. rewrite <- app_assoc. cbn [app length]. f_equal. lia.
Qed.

Lemma shown_cap (id : Z) (maxEntries : option Z) (total : Z) (ys : list Spelling)
    (e : Completion) :
  capReached maxEntries (total + Z.of_nat (batchSize YIELD_EVERY maxEntries total)) = true ->
  (batchSize YIELD_EVERY maxEntries total <= length ys)%nat ->
  shown maxEntries total (mkGenerator ys e)
  = take (batchSize YIELD_EVERY maxEntries total) ys /\
  closing id maxEntries total (mkGenerator ys e)
  = resultDone id (total + Z.of_nat (batchSize YIELD_EVERY maxEntries total)).
Proof.
  destruct maxEntries as [k|]; [|done].
  unfold shown, closing, capReached, capWithin, batchSize, allowed, YIELD_EVERY.
  cbn [toYield ending]. intros Hcap Hle. apply Z.leb_le in Hcap.
  assert (Nat.min 5 (Z.to_nat (k - total)) = Z.to_nat (k - total)) as Hmin by lia.
  rewrite Hmin in *. by rewrite (proj2 (Nat.leb_le _ _) Hle).
Qed.

Lemma shown_more (id : Z) (maxEntries : option Z) (total : Z) (ys : list Spelling)
    (e : Completion) :
  capReached maxEntries (total + Z.of_nat (batchSize YIELD_EVERY maxEntries total)) = false ->
  (batchSize YIELD_EVERY maxEntries total <= length ys)%nat ->
  batchSize YIELD_EVERY maxEntries total = YIELD_EVERY /\
  shown maxEntries total (mkGenerator ys e)
  = take YIELD_EVERY ys
    ++ shown maxEntries (total + Z.of_nat YIELD_EVERY) (mkGenerator (drop YIELD_EVERY ys) e) /\
  closing id maxEntries total (mkGenerator ys e)
  = closing id maxEntries (total + Z.of_nat YIELD_EVERY) (mkGenerator (drop YIELD_EVERY ys) e).
Proof.
  unfold shown, closing, capReached, capWithin, batchSize, allowed, YIELD_EVERY.
  cbn [toYield ending]. rewrite length_drop. intros Hcap Hle.
  assert ((5 <= length ys)%nat) as H5.
  { destruct maxEntries as [k|]; [|done]. apply Z.leb_gt in Hcap. lia. }
  assert ((length ys / 5 = S ((length ys - 5) / 5))%nat) as Hdiv.
  { pose proof (Nat.div_add (length ys - 5) 1 5 ltac:(lia)) as H.
    replace (length ys - 5 + 1 * 5)%nat with (length ys) in H by lia. lia. }
  destruct maxEntries as [k|].
  - apply Z.leb_gt in Hcap.
    assert (Nat.min 5 (Z.to_nat (k - total)) = 5%nat) as Hmin by lia.
    split; [done|]. rewrite Hmin in *.
    replace (Z.to_nat (k - (total + Z.of_nat 5))) with (Z.to_nat (k - total) - 5)%nat by lia.
    destruct (Nat.leb_spec (Z.to_nat (k - total)) (length ys)) as [Hin|Hout].
    + rewrite (proj2 (Nat.leb_le _ _)) by lia. split.
      * rewrite take_take_drop. f_equal. lia.
      * f_equal. lia.
    + rewrite (proj2 (Nat.leb_gt _ _)) by lia. destruct e.
      * split; [by rewrite take_drop | f_equal; lia].
      * split; [|done]. rewrite take_take_drop. f_equal. lia.
  - split; [done|]. destruct e.
    + split; [by rewrite take_drop | f_equal; lia].
    + split; [|done]. rewrite take_take_drop. f_equal. lia.
Qed.

Lemma shown_short (id : Z) (maxEntries : option Z) (total : Z) (ys : list Spelling)
    (e : Completion) :
  (length ys < batchSize YIELD_EVERY maxEntries total)%nat ->
  shown maxEntries total (mkGenerator ys e)
  = match e with Returned => ys | Threw => [] end /\
  closing id maxEntries total (mkGenerator ys e)
  = match e with
    | Returned => resultDone id (total + Z.of_nat (length ys))
    | Threw => error id NotIterable
    end.
Proof.
  unfold shown, closing, capWithin, batchSize, allowed, YIELD_EVERY.
  cbn [toYield ending]. intros Hlt.
  assert ((length ys / 5 = 0)%nat) as Hdiv
    by (apply Nat.div_small; destruct maxEntries; lia).
  assert ((match maxEntries with
           | Some k => Nat.leb (Z.to_nat (k - total)) (length ys)
           | None => false
           end) = false) as ->.
  { destruct maxEntries as [k|]; [|done]. apply Nat.leb_gt. lia. }
  rewrite Hdiv. destruct e; [done|]. by rewrite Nat.mul_0_r, take_0.
Qed.

Lemma finished_posted (w : Worker) (chunks msgs : list Message) :
  finished (mkWorker (currentJobId w) (jobRunning w) (pendingJob w) (cache w) (tasks w)
              (posted w ++ chunks)) msgs
  = finished w (chunks ++ msgs).
Proof. unfold finished. simpl. by rewrite <- app_assoc. Qed.

(** From a batch head on, a job that stays current runs, timer after timer,
    to its end: it posts the chunks of [shown], then [closing], and is
    over. *)
Lemma job_runs (id : Z) (maxEntries : option Z) (bound : nat) :
  forall (ys : list Spelling) (e : Completion) (total : Z) (w : Worker),
    (length ys <= bound)%nat ->
    isCurrent id w = true ->
    exists n,
      run (loopBody id maxEntries total (mkGenerator ys e) w)
        (replicate n (Tick (length (tasks w))))
      = finished w
          (List.map (chunkOf id) (shown maxEntries total (mkGenerator ys e))
           ++ [closing id maxEntries total (mkGenerator ys e)]).
Proof.
  induction bound as [|bound IH]; intros ys e total w Hlen Hcur.
  all: unfold loopBody.
  all: destruct (le_lt_dec (batchSize YIELD_EVERY maxEntries total) (length ys)) as [Hen|Hsh].
  all: try (rewrite (collectBatch_short _ _ _ _ _ _ Hsh);
            destruct (shown_short id maxEntries total ys e Hsh) as [-> ->];
            exists O; destruct e; cbn [run foldl replicate];
            [ rewrite emitted_current by done; cbn [orb];
              unfold isCurrent in *; cbn [currentJobId] in *; rewrite Hcur;
              unfold finished, setJobRunning, postMessage; simpl;
              by rewrite <- app_assoc
            | unfold isCurrent in *; simpl; rewrite Hcur;
              unfold finished, setJobRunning, postMessage; by simpl ]).
  all: rewrite (collectBatch_enough _ _ _ _ _ _ Hen), emitted_current by done.
  all: cbn [orb app].
  all: destruct (capReached maxEntries
                   (total + Z.of_nat (batchSize YIELD_EVERY maxEntries total))) eqn:Hcap.
  all: try (destruct (shown_cap id maxEntries total ys e Hcap Hen) as [-> ->];
            exists O; cbn [run foldl replicate];
            unfold isCurrent in *; cbn [currentJobId] in *; rewrite Hcur;
            unfold finished, setJobRunning, postMessage; simpl;
            by rewrite <- app_assoc).
  - destruct (shown_more id maxEntries total ys e Hcap Hen) as (H5 & _ & _).
    rewrite H5 in Hen. unfold YIELD_EVERY in Hen. lia.
  - destruct (shown_more id maxEntries total ys e Hcap Hen) as (H5 & -> & ->).
    rewrite H5 in *.
    set (w1 := mkWorker (currentJobId w) (jobRunning w) (pendingJob w) (cache w) (tasks w)
                 (posted w ++ List.map (chunkOf id) (take YIELD_EVERY ys))).
    destruct (IH (drop YIELD_EVERY ys) e (total + Z.of_nat YIELD_EVERY) w1) as [n Hn].
    { rewrite length_drop. unfold YIELD_EVERY in *. lia. }
    { done. }
    exists (S n). cbn [replicate]. unfold run in *. cbn [foldl].
    assert (step (suspend (AwaitTick id maxEntries (total + Z.of_nat YIELD_EVERY)
                             (mkGenerator (drop YIELD_EVERY ys) e)) w1)
              (Tick (length (tasks w)))
            = loopBody id maxEntries (total + Z.of_nat YIELD_EVERY)
                (mkGenerator (drop YIELD_EVERY ys) e) w1) as ->.
    { unfold step, suspend. cbn [tasks setTasks w1].
      rewrite (list_lookup_middle (tasks w) [] _ (length (tasks w))) by done.
      rewrite (delete_middle (tasks w) []), (right_id_L [] app).
      unfold resumed, isCurrent in *. subst w1. cbn [currentJobId setTasks].
      rewrite Hcur. reflexivity. }
    change (tasks w1) with (tasks w) in Hn.
    rewrite Hn. subst w1. rewrite finished_posted, map_app. by rewrite <- app_assoc.
Qed.

(** A job that stays current runs to its end. Started while its id is the
    current one and resumed at each of its timers with no request in
    between, a job posts one chunk for each Spelling of [shown], in the order
    the search yields them, then its terminal message [closing], and is over
    ([jobRunning] false, no loop left, the rest of the worker as it was):
    the first [maxEntries] Spellings and that total when the search has that
    many; else all the Spellings and their number when the generator returns;
    else, when the generator throws, the Spellings of the batches that were
    full, and an error. *)
Theorem job_to_its_end (id : Z) (data : ChordData) (target : jsstring)
    (maxEntries : option Z) (w : Worker) :
  isCurrent id w = true ->
  let gen := newGenerator (buildComponents data) target in
  exists n,
    run (runJob id data target maxEntries w) (replicate n (Tick (length (tasks w))))
    = finished w (List.map (chunkOf id) (shown maxEntries 0 gen)
                  ++ [closing id maxEntries 0 gen]).
Proof.
  intros Hcur gen. unfold runJob. fold gen. destruct gen as [ys e].
  destruct (job_runs id maxEntries (length ys) ys e 0 (setJobRunning true w)) as [n Hn];
    [done|done|].
  exists n. exact Hn.
Qed.

Lemma job_to_its_end_witness :
  exists n,
    run (runJob 1 Sample.table (lit "tatata") (Some 7) (mkWorker (Some 1) false None ∅ [] []))
      (replicate n (Tick 0))
    = finished (mkWorker (Some 1) false None ∅ [] [])
        (List.map (chunkOf 1)
           (shown (Some 7) 0 (newGenerator (buildComponents Sample.table) (lit "tatata")))
         ++ [closing 1 (Some 7) 0
               (newGenerator (buildComponents Sample.table) (lit "tatata"))]).
Proof.
  apply (job_to_its_end 1 Sample.table (lit "tatata") (Some 7)
           (mkWorker (Some 1) false None ∅ [] [])).
  reflexivity.
Defined.

(** What [shown] and [closing] are for the sample: seven of the eight
    Spellings of "tatata" and the total seven. *)
Example shown_seven_of_eight :
  let gen := newGenerator (buildComponents Sample.table) (lit "tatata") in
  shown (Some 7) 0 gen = take 7 (toYield gen) /\
  closing 1 (Some 7) 0 gen = resultDone 1 7 /\
  shown None 0 gen = toYield gen /\
  closing 1 None 0 gen = resultDone 1 8.
Proof. vm_compute. repeat split. Qed.

(** ** Jobs: targets with nothing to show *)

Lemma runJob_nothing (id : Z) (data : ChordData) (target : jsstring)
    (maxEntries : option Z) (w : Worker) (e : Completion) :
  newGenerator (buildComponents data) target = mkGenerator [] e ->
  runJob id data target maxEntries w
  = finished w
      (if isCurrent id w
       then [ if capReached maxEntries 0 then resultDone id 0
              else match e with
                   | Returned => resultDone id 0
                   | Threw => error id NotIterable
                   end ]
       else []).
Proof.
  intros Hgen. unfold runJob, loopBody. rewrite Hgen.
  destruct (capReached maxEntries 0) eqn:Hcap.
  - rewrite collectBatch_enough
      by (rewrite (capReached_true _ _ _ Hcap); simpl; lia).
    rewrite (capReached_true _ _ _ Hcap). cbn [app take foldl orb Z.of_nat].
    rewrite Z.add_0_r, Hcap. unfold isCurrent, finished, setJobRunning, postMessage.
    simpl. case_bool_decide; simpl; [done|]. by rewrite (right_id_L [] app).
  - rewrite collectBatch_short.
    2:{ unfold YIELD_EVERY. rewrite (capReached_false _ _ _ Hcap). simpl. lia. }
    destruct e; cbn [app foldl orb length Z.of_nat].
    + unfold isCurrent, finished, setJobRunning, postMessage.
      simpl. case_bool_decide; simpl; [done|]. by rewrite (right_id_L [] app).
    + unfold isCurrent, finished, setJobRunning, postMessage.
      simpl. case_bool_decide; simpl; [done|]. by rewrite (right_id_L [] app).
Qed.

Lemma newGenerator_inherited (components : Components) (target : jsstring) :
  inherited target = true -> newGenerator components target = mkGenerator [] Threw.
Proof.
  intros Hin. unfold newGenerator, enoughFuel. simpl.
  rewrite bool_decide_eq_false_2 by (intros ->; done).
  unfold inMemo. rewrite Hin, orb_true_r. by rewrite lookup_empty.
Qed.

(** A target that names a property every object inherits (["constructor"],
    ["__proto__"], ...) is never looked up, whatever the tables: the
    generator throws before it yields anything, and the job (with no cap, or
    a cap of at least one) posts one error if its id is current, nothing if
    not, and is over. *)
Theorem inherited_target_fails (id : Z) (data : ChordData) (target : jsstring)
    (maxEntries : option Z) (w : Worker) :
  inherited target = true ->
  (forall k, maxEntries = Some k -> 1 <= k) ->
  newGenerator (buildComponents data) target = mkGenerator [] Threw /\
  runJob id data target maxEntries w
  = finished w (if isCurrent id w then [error id NotIterable] else []).
Proof.
  intros Hin Hcap. split; [by apply newGenerator_inherited|].
  rewrite (runJob_nothing id data target maxEntries w Threw)
    by (by apply newGenerator_inherited).
  assert (capReached maxEntries 0 = false) as ->; [|done].
  destruct maxEntries as [k|]; [|done]. specialize (Hcap k eq_refl).
  apply Z.leb_gt. lia.
Qed.

Lemma inherited_target_fails_witness :
  runJob 1 Sample.table (lit "constructor") None (mkWorker (Some 1) false None ∅ [] [])
  = finished (mkWorker (Some 1) false None ∅ [] []) [error 1 NotIterable].
Proof.
  apply (inherited_target_fails 1 Sample.table (lit "constructor") None
           (mkWorker (Some 1) false None ∅ [] [])).
  - reflexivity.
  - discriminate.
Defined.

(** A target no chord can begin has no Spelling and is no error: when no
    enumerated chord with a non-empty output is a prefix of the (non-empty,
    not inherited) target, the search yields nothing and returns, and the
    job, whatever its cap, posts [resultDone] with total 0 if its id is
    current, nothing if not, and is over. *)
Theorem unmatched_target_total_zero (id : Z) (data : ChordData) (target : jsstring)
    (maxEntries : option Z) (w : Worker) :
  target <> [] ->
  inherited target = false ->
  (forall c, c ∈ allChordOutputs (buildComponents data) -> ~ matches target c) ->
  newGenerator (buildComponents data) target = mkGenerator [] Returned /\
  runJob id data target maxEntries w
  = finished w (if isCurrent id w then [resultDone id 0] else []).
Proof.
  intros Hne Hin Hnone.
  assert (getPrefixChords target (buildComponents data) = []) as Hchords.
  { destruct (getPrefixChords target (buildComponents data)) as [|c l] eqn:E; [done|].
    exfalso. apply (Hnone c); apply (getPrefixChords_elem target (buildComponents data) c);
      rewrite E; left. }
  assert (newGenerator (buildComponents data) target = mkGenerator [] Returned) as Hgen.
  { unfold newGenerator, enoughFuel. simpl.
    rewrite bool_decide_eq_false_2 by done.
    unfold inMemo. rewrite Hin, lookup_empty.
    rewrite bool_decide_eq_false_2 by (by intros [? ?]). simpl. by rewrite Hchords. }
  split; [done|]. rewrite (runJob_nothing id data target maxEntries w Returned) by done.
  by destruct (capReached maxEntries 0).
Qed.

Lemma unmatched_target_total_zero_witness :
  runJob 1 Sample.table (lit "x") None (mkWorker (Some 1) false None ∅ [] [])
  = finished (mkWorker (Some 1) false None ∅ [] []) [resultDone 1 0].
Proof.
  apply (unmatched_target_total_zero 1 Sample.table (lit "x") None
           (mkWorker (Some 1) false None ∅ [] [])).
  - discriminate.
  - reflexivity.
  - intros c Hc [Hne Hpre]. vm_compute in Hc.
    repeat (apply elem_of_cons in Hc as [->|Hc];
            [first [ by apply Hne
                   | apply startsWith_prefix in Hpre; discriminate Hpre ]|]).
    by apply not_elem_of_nil in Hc.
Defined.

(** ** The worker: what every reachable state keeps *)

Lemma posts_refl (P : Message -> Prop) (w w' : Worker) :
  posted w' = posted w -> posts P w w'.
Proof. intros H. exists []. by rewrite H, (right_id_L [] app). Qed.

Lemma posts_trans (P : Message -> Prop) (w1 w2 w3 : Worker) :
  posts P w1 w2 -> posts P w2 w3 -> posts P w1 w3.
Proof.
  intros [n1 [H1 F1]] [n2 [H2 F2]]. exists (n1 ++ n2).
  rewrite H2, H1, <- app_assoc. split; [done|]. by apply Forall_app.
Qed.

Lemma posts_one (P : Message -> Prop) (m : Message) (w : Worker) :
  P m -> posts P w (postMessage m w).
Proof. intros H. exists [m]. split; [done|]. by constructor. Qed.

Lemma emitted_shaped (id : Z) (batch : list Spelling) (w : Worker) :
  posts shaped w (foldl (emitWay id) w batch).
Proof.
  revert w. induction batch as [|way batch IH]; intros w; simpl.
  - by apply posts_refl.
  - eapply posts_trans; [|apply IH]. unfold emitWay, onChunk.
    destruct (isCurrent id w); [|by apply posts_refl].
    apply posts_one. simpl. exists (List.map (fun c : Chord => c.2) way).
    split; [done|]. by rewrite List.map_map.
Qed.

Lemma loopBody_shaped (id : Z) (maxEntries : option Z) (total : Z) (gen : Generator)
    (w : Worker) :
  posts shaped w (loopBody id maxEntries total gen w).
Proof.
  unfold loopBody. destruct (collectBatch _ _ _ _ _) as [batch total' gen' d|].
  - eapply posts_trans; [apply (emitted_shaped id batch w)|].
    destruct (d || capReached maxEntries total'); [|by apply posts_refl].
    destruct (isCurrent id _); [|by apply posts_refl].
    exists [resultDone id total']. split; [done|]. by constructor.
  - destruct (isCurrent id _); [|by apply posts_refl].
    exists [error id NotIterable]. split; [done|]. by constructor.
Qed.

Lemma startJob_shaped (caught : bool) (job : Request) (w : Worker) :
  posts shaped w (startJob caught job w).
Proof.
  unfold startJob. destruct (cacheGet _ _) as [data|]; [|by apply posts_refl].
  unfold runJob. eapply posts_trans; [|apply loopBody_shaped]. by apply posts_refl.
Qed.

Lemma step_shaped (w : Worker) (e : Event) : posts shaped w (step w e).
Proof.
  destruct e as [type job|n data|n|n]; simpl.
  - unfold onmessage. case_bool_decide; simpl; [|by apply posts_refl].
    destruct (jobRunning w); simpl; [by apply posts_refl|].
    eapply posts_trans; [|apply startJob_shaped]. by apply posts_refl.
  - destruct (tasks w !! n) as [[job caught|]|]; try by apply posts_refl.
    unfold fetched, runJob. eapply posts_trans; [|apply loopBody_shaped]. by apply posts_refl.
  - destruct (tasks w !! n) as [[job caught|]|]; try by apply posts_refl.
    unfold fetchFailed. destruct caught; [|by apply posts_refl].
    exists [error (req_id job) (FailedToLoad (req_version job))].
    split; [done|]. by constructor.
  - destruct (tasks w !! n) as [[|id maxEntries total gen]|]; try by apply posts_refl.
    unfold resumed. destruct (negb (isCurrent id _)).
    + destruct (pendingJob _) as [job|]; [|by apply posts_refl].
      apply (posts_trans _ _ (setPendingJob None (setTasks (delete n (tasks w)) w)));
        [by apply posts_refl|].
      apply (posts_trans _ _
               (startJob false job (setPendingJob None (setTasks (delete n (tasks w)) w))));
        [apply startJob_shaped | by apply posts_refl].
    + eapply posts_trans; [|apply loopBody_shaped]. by apply posts_refl.
Qed.

(** Messages are only added, and every chunk the worker ever posts has the
    shape the page reads: one display and one list of strokes, the display
    being the displays of those strokes joined by [" / "]. *)
Theorem chunks_shaped (w : Worker) (events : list Event) :
  posts shaped w (run w events) /\
  (Forall shaped (posted w) -> Forall shaped (posted (run w events))).
Proof.
  assert (posts shaped w (run w events)) as H.
  { revert w. induction events as [|e events IH]; intros w; simpl.
    - by apply posts_refl.
    - eapply posts_trans; [apply step_shaped | apply IH]. }
  split; [done|]. destruct H as [new [-> Hnew]]. intros Hw. by apply Forall_app.
Qed.

Lemma chunks_shaped_witness :
  Forall shaped (posted (run initialWorker
                           [Receive (lit "compute") Sample.request1; FetchOk 0 Sample.table])).
Proof.
  apply (chunks_shaped initialWorker). constructor.
Defined.

(** *** The running flag *)

Lemma emitted_frame (id : Z) (batch : list Spelling) (w : Worker) :
  jobRunning (foldl (emitWay id) w batch) = jobRunning w /\
  pendingJob (foldl (emitWay id) w batch) = pendingJob w /\
  cache (foldl (emitWay id) w batch) = cache w.
Proof. destruct (emitted_batch id batch w) as [chunks (-> & _)]. by repeat split. Qed.

Lemma loopBody_flagBacked (id : Z) (maxEntries : option Z) (total : Z) (gen : Generator)
    (w : Worker) :
  flagBacked (loopBody id maxEntries total gen w).
Proof.
  unfold loopBody, flagBacked.
  destruct (collectBatch _ _ _ _ _) as [batch total' gen' d|].
  - destruct (d || capReached maxEntries total').
    + by destruct (isCurrent id _).
    + intros _. exists id, maxEntries, total', gen'. simpl.
      apply elem_of_app. right. left.
  - by destruct (isCurrent id _).
Qed.

Lemma startJob_flagBacked (caught : bool) (job : Request) (w : Worker) :
  flagBacked w -> flagBacked (startJob caught job w).
Proof.
  intros Hw. unfold startJob. destruct (cacheGet _ _) as [data|].
  - apply loopBody_flagBacked.
  - intros Hrun. destruct (Hw Hrun) as (id & mx & total & gen & Hin).
    exists id, mx, total, gen. simpl. apply elem_of_app. by left.
Qed.

Lemma step_flagBacked (w : Worker) (e : Event) : flagBacked w -> flagBacked (step w e).
Proof.
  intros Hw. destruct e as [type job|n data|n|n]; simpl.
  - unfold onmessage. case_bool_decide; simpl; [|done].
    destruct (jobRunning w) eqn:Hrun; simpl.
    + intros _. by apply Hw.
    + apply startJob_flagBacked. intros Hr. simpl in Hr. congruence.
  - destruct (tasks w !! n) as [[job caught|]|] eqn:Ht; try done.
    apply loopBody_flagBacked.
  - destruct (tasks w !! n) as [[job caught|]|] eqn:Ht; try done.
    assert (flagBacked (setTasks (delete n (tasks w)) w)) as Hdel.
    { intros Hrun. destruct (Hw Hrun) as (id & mx & total & gen & Hin).
      exists id, mx, total, gen. simpl.
      apply list_elem_of_lookup in Hin as [i Hi].
      destruct (decide (i = n)) as [->|Hne]; [congruence|].
      destruct (lt_eq_lt_dec i n) as [[Hlt|Heq]|Hgt]; [|done|].
      - eapply list_elem_of_lookup_2. by rewrite list_lookup_delete_lt.
      - apply (list_elem_of_lookup_2 _ (i - 1)). rewrite list_lookup_delete_ge by lia.
        by replace (S (i - 1)) with i by lia. }
    unfold fetchFailed. destruct caught; [|done].
    intros Hrun. by apply Hdel.
  - destruct (tasks w !! n) as [[|id maxEntries total gen]|] eqn:Ht; try done.
    unfold resumed. destruct (negb (isCurrent id _)).
    + by intros H.
    + apply loopBody_flagBacked.
Qed.

(** The running flag is never left raised with nothing to lower it: in every
    state the worker reaches from its start, [jobRunning] true comes with a
    loop of [runJob] waiting for its timer (which, resumed, either goes on or
    hands off to the pending request). *)
Theorem running_flag_backed (events : list Event) :
  flagBacked (run initialWorker events).
Proof.
  assert (forall w, flagBacked w -> flagBacked (run w events)) as H.
  { induction events as [|e events IH]; intros w Hw; [done|].
    apply IH. by apply step_flagBacked. }
  apply H. by intros Hrun.
Qed.

(** *** The table cache *)

Lemma loopBody_cache (id : Z) (maxEntries : option Z) (total : Z) (gen : Generator)
    (w : Worker) :
  cache (loopBody id maxEntries total gen w) = cache w.
Proof.
  unfold loopBody. destruct (collectBatch _ _ _ _ _) as [batch total' gen' d|].
  - destruct (emitted_frame id batch w) as (_ & _ & Hc).
    destruct (d || capReached maxEntries total'); simpl; [|done].
    by destruct (isCurrent id _).
  - simpl. by destruct (isCurrent id _).
Qed.

Lemma loopBody_fetches (id : Z) (maxEntries : option Z) (total : Z) (gen : Generator)
    (w : Worker) (job : Request) (caught : bool) :
  AwaitFetch job caught ∈ tasks (loopBody id maxEntries total gen w) ->
  AwaitFetch job caught ∈ tasks w.
Proof.
  intros Hin. destruct (loopBody_guarded id maxEntries total gen w) as (_ & H & _).
  by apply H.
Qed.

Lemma available_insert (version v : jsstring) (data : ChordData) (w : Worker) :
  available version w -> available version (setCache (<[ v := data ]> (cache w)) w).
Proof.
  unfold available, cacheGet. simpl. intros H.
  destruct (decide (v = version)) as [->|Hne].
  - rewrite lookup_insert_eq. by eexists.
  - by rewrite lookup_insert_ne.
Qed.

Lemma startJob_cache (version : jsstring) (caught : bool) (job : Request) (w : Worker) :
  available version w ->
  available version (startJob caught job w) /\
  forall job' caught',
    AwaitFetch job' caught' ∈ tasks (startJob caught job w) ->
    req_version job' = version -> AwaitFetch job' caught' ∈ tasks w.
Proof.
  intros Hav. unfold startJob. destruct (cacheGet (req_version job) (cache w)) as [data|] eqn:E.
  - unfold runJob. split.
    + unfold available. by rewrite loopBody_cache.
    + intros job' caught' Hin _. by apply loopBody_fetches in Hin.
  - split; [done|]. intros job' caught' Hin Hv. simpl in Hin.
    apply elem_of_app in Hin as [Hin|Hin]; [done|].
    apply list_elem_of_singleton in Hin. injection Hin as -> ->.
    unfold available in Hav. rewrite <- Hv, E in Hav. by destruct Hav.
Qed.

Lemma step_cache (version : jsstring) (w : Worker) (e : Event) :
  available version w ->
  available version (step w e) /\
  forall job caught,
    AwaitFetch job caught ∈ tasks (step w e) ->
    req_version job = version -> AwaitFetch job caught ∈ tasks w.
Proof.
  intros Hav. destruct e as [type job|n data|n|n]; simpl.
  - unfold onmessage. case_bool_decide; simpl; [|by split].
    destruct (jobRunning w); simpl; [by split|].
    by apply (startJob_cache version true job
                (setPendingJob None
                   (setPendingJob (Some job) (setCurrentJobId (Some (req_id job)) w)))).
  - destruct (tasks w !! n) as [[job caught|]|] eqn:Ht; try by split.
    unfold fetched, runJob. split.
    + unfold available. rewrite loopBody_cache. by apply (available_insert version).
    + intros job' caught' Hin _. apply loopBody_fetches in Hin. simpl in Hin.
      by eapply list_elem_of_delete_inv.
  - destruct (tasks w !! n) as [[job caught|]|] eqn:Ht; try by split.
    unfold fetchFailed. destruct caught; simpl.
    + split; [done|]. intros job' caught' Hin _. by eapply list_elem_of_delete_inv.
    + split; [done|]. intros job' caught' Hin _. by eapply list_elem_of_delete_inv.
  - destruct (tasks w !! n) as [[|id maxEntries total gen]|] eqn:Ht; try by split.
    unfold resumed. destruct (negb (isCurrent id _)).
    + destruct (pendingJob _) as [job|] eqn:Hp.
      * destruct (startJob_cache version false job
                    (setPendingJob None (setTasks (delete n (tasks w)) w)) Hav) as [H1 H2].
        split; [done|]. intros job' caught' Hin Hv. simpl in Hin.
        specialize (H2 job' caught' Hin Hv). simpl in H2.
        by eapply list_elem_of_delete_inv.
      * split; [done|]. intros job' caught' Hin _. simpl in Hin.
        by eapply list_elem_of_delete_inv.
    + split.
      * unfold available. by rewrite loopBody_cache.
      * intros job' caught' Hin _. apply loopBody_fetches in Hin. simpl in Hin.
        by eapply list_elem_of_delete_inv.
Qed.

(** A chord file is fetched once: when the file of a version is at hand
    (loaded before, or the version names an inherited property), it stays at
    hand whatever happens (nothing is ever removed, a failed load leaves the
    cache alone) and no fetch of that version is started again: the only
    fetches of it still waiting are those from before. *)
Theorem cached_version_not_fetched_again (version : jsstring) (w : Worker)
    (events : list Event) :
  available version w ->
  available version (run w events) /\
  forall job caught,
    AwaitFetch job caught ∈ tasks (run w events) ->
    req_version job = version -> AwaitFetch job caught ∈ tasks w.
Proof.
  revert w. induction events as [|e events IH]; intros w Hav; [by split|].
  destruct (step_cache version w e Hav) as [Hav1 Hf1].
  destruct (IH (step w e) Hav1) as [Hav2 Hf2].
  split; [done|]. intros job caught Hin Hv. apply Hf1; [|done]. by apply Hf2.
Qed.

Lemma cached_version_not_fetched_again_witness :
  available (lit "v1") Sample.job1Waiting /\
  available (lit "v1")
    (run Sample.job1Waiting [Receive (lit "compute") Sample.request2; Tick 0]) /\
  forall job caught,
    AwaitFetch job caught
      ∈ tasks (run Sample.job1Waiting [Receive (lit "compute") Sample.request2; Tick 0]) ->
    req_version job = lit "v1" -> AwaitFetch job caught ∈ tasks Sample.job1Waiting.
Proof.
  assert (available (lit "v1") Sample.job1Waiting) as H by (vm_compute; by eexists).
  split; [exact H|].
  exact (cached_version_not_fetched_again (lit "v1") Sample.job1Waiting
           [Receive (lit "compute") Sample.request2; Tick 0] H).
Defined.

(** *** Requests while a job runs *)




(** *** With no current job *)






(** *** The running flag after a hand-off *)

Lemma loopBody_pendingJob (id : Z) (maxEntries : option Z) (total : Z) (gen : Generator)
    (w : Worker) :
  pendingJob (loopBody id maxEntries total gen w) = pendingJob w.
Proof.
  unfold loopBody. destruct (collectBatch _ _ _ _ _) as [batch total' gen' d|].
  - destruct (emitted_frame id batch w) as (_ & Hp & _).
    destruct (d || capReached maxEntries total'); simpl; [|done].
    by destruct (isCurrent id _).
  - simpl. by destruct (isCurrent id _).
Qed.

(** A superseded job that hands off leaves the running flag down and no
    request pending, also when the job it started is in its loop, waiting for
    its timer: [jobRunning = false] of the [finally] runs after [startJob].
    So the request that comes next is not queued behind that job but started
    at once, beside it. *)
Theorem handoff_leaves_flag_down (w : Worker) (n : nat) (id : Z)
    (maxEntries : option Z) (total : Z) (gen : Generator) (job : Request) :
  tasks w !! n = Some (AwaitTick id maxEntries total gen) ->
  currentJobId w <> Some id ->
  jobRunning (step w (Tick n)) = false /\
  pendingJob (step w (Tick n)) = None /\
  pendingJob (step (step w (Tick n)) (Receive (lit "compute") job)) = None.
Proof.
  intros Ht Hcur.
  assert (jobRunning (step w (Tick n)) = false /\ pendingJob (step w (Tick n)) = None)
    as [Hrun Hpend].
  { simpl. rewrite Ht. rewrite resumed_superseded by done. unfold handOff. simpl.
    split; [done|]. destruct (pendingJob w) as [next|]; [|done].
    unfold startJob. destruct (cacheGet _ _) as [data|]; [|done].
    unfold runJob. by rewrite loopBody_pendingJob. }
  split; [done|]. split; [done|].
  revert Hrun Hpend. generalize (step w (Tick n)). intros w1 Hrun Hpend.
  cbn [step]. unfold onmessage. rewrite bool_decide_eq_true_2 by done.
  cbn [negb]. cbn [jobRunning setPendingJob setCurrentJobId]. rewrite Hrun. cbn [negb].
  unfold startJob. destruct (cacheGet _ _) as [data|]; [|done].
  unfold runJob. by rewrite loopBody_pendingJob.
Qed.

Lemma handoff_leaves_flag_down_witness :
  jobRunning (step (step Sample.job1Waiting (Receive (lit "compute") Sample.request2)) (Tick 0))
  = false.
Proof.
  refine (proj1 (handoff_leaves_flag_down
                   (step Sample.job1Waiting (Receive (lit "compute") Sample.request2))
                   0 1 None 5 _ Sample.request1 _ _)).
  - vm_compute. reflexivity.
  - vm_compute. congruence.
Defined.

(** ** The page: rows and their chord boxes *)







(** ** The page: the result list *)

Lemma insertBucket_counts (chordCount : nat) (buckets : list Page.Bucket) :
  List.map fst (Page.insertBucket chordCount buckets) ≡ₚ chordCount :: List.map fst buckets.
Proof.
  induction buckets as [|b rest IH]; [done|]. simpl.
  destruct (chordCount <? b.1)%nat; [done|]. simpl. rewrite IH. apply Permutation_swap.
Qed.

Lemma insertBucket_sorted (chordCount : nat) (buckets : list Page.Bucket) :
  bucketsSorted buckets ->
  chordCount ∉ List.map fst buckets ->
  bucketsSorted (Page.insertBucket chordCount buckets).
Proof.
  unfold bucketsSorted. induction buckets as [|b rest IH]; intros Hs Hnot.
  - repeat constructor.
  - simpl in *. apply StronglySorted_inv in Hs as [Hrest Hall].
    destruct (chordCount <? b.1)%nat eqn:E.
    + apply Nat.ltb_lt in E. simpl. constructor; [by constructor|].
      constructor; [done|]. eapply Forall_impl; [exact Hall|]. simpl. lia.
    + apply Nat.ltb_ge in E. simpl. constructor.
      * apply IH; [done|]. intros H. apply Hnot. by right.
      * rewrite insertBucket_counts. constructor; [|done].
        assert (chordCount <> b.1) by (intros ->; apply Hnot; left). lia.
Qed.

Lemma existsb_counts (chordCount : nat) (buckets : list Page.Bucket) :
  existsb (fun b : Page.Bucket => Nat.eqb b.1 chordCount) buckets = true
  <-> chordCount ∈ List.map fst buckets.
Proof.
  induction buckets as [|b rest IH]; simpl.
  - split; [done | by intros H%elem_of_nil].
  - rewrite orb_true_iff, IH, Nat.eqb_eq, elem_of_cons.
    split; (intros [H|H]; [left; congruence | by right]).
Qed.

Lemma getOrCreateBucket_sorted (chordCount : nat) (buckets : list Page.Bucket) :
  bucketsSorted buckets -> bucketsSorted (Page.getOrCreateBucket buckets chordCount).
Proof.
  intros Hs. unfold Page.getOrCreateBucket.
  destruct (existsb _ buckets) eqn:E; [done|].
  apply insertBucket_sorted; [done|]. rewrite <- existsb_counts. congruence.
Qed.

Lemma getOrCreateBucket_has (chordCount : nat) (buckets : list Page.Bucket) :
  chordCount ∈ List.map fst (Page.getOrCreateBucket buckets chordCount).
Proof.
  unfold Page.getOrCreateBucket. destruct (existsb _ buckets) eqn:E.
  - by apply existsb_counts.
  - rewrite insertBucket_counts. left.
Qed.

Lemma insertBucket_rows (chordCount : nat) (buckets : list Page.Bucket) :
  flat_map snd (Page.insertBucket chordCount buckets) = flat_map snd buckets.
Proof.
  induction buckets as [|b rest IH]; [done|]. simpl.
  destruct (chordCount <? b.1)%nat; [done|]. simpl. by rewrite IH.
Qed.

Lemma getOrCreateBucket_rows (chordCount : nat) (buckets : list Page.Bucket) :
  flat_map snd (Page.getOrCreateBucket buckets chordCount) = flat_map snd buckets.
Proof.
  unfold Page.getOrCreateBucket. destruct (existsb _ buckets); [done|].
  apply insertBucket_rows.
Qed.

Lemma addRow_counts (chordCount : nat) (row : list Page.Box) (buckets : list Page.Bucket) :
  List.map fst (Page.addRow chordCount row buckets) = List.map fst buckets.
Proof.
  induction buckets as [|b rest IH]; [done|]. simpl.
  destruct (Nat.eqb b.1 chordCount); [done|]. simpl. by rewrite IH.
Qed.

Lemma addRow_rows (chordCount : nat) (row : list Page.Box) (buckets : list Page.Bucket) :
  chordCount ∈ List.map fst buckets ->
  length (flat_map snd (Page.addRow chordCount row buckets))
  = S (length (flat_map snd buckets)).
Proof.
  induction buckets as [|b rest IH]; simpl; [by intros H%elem_of_nil|].
  intros Hin. destruct (Nat.eqb_spec b.1 chordCount) as [E|E]; simpl.
  - rewrite !length_app. simpl. lia.
  - apply elem_of_cons in Hin as [Hin|Hin]; [congruence|].
    rewrite !length_app, IH by done. lia.
Qed.

Lemma appendChunk_sorted (spellings : list jsstring) (ways : list (list Strokes))
    (buckets : list Page.Bucket) :
  bucketsSorted buckets -> bucketsSorted (Page.appendChunk spellings ways buckets).
Proof.
  unfold Page.appendChunk. generalize (imap pair spellings). intros entries.
  revert buckets. induction entries as [|entry entries IH]; intros buckets Hs; [done|].
  simpl. apply IH. unfold bucketsSorted. rewrite addRow_counts.
  by apply getOrCreateBucket_sorted.
Qed.

Lemma appendChunk_rows (spellings : list jsstring) (ways : list (list Strokes))
    (buckets : list Page.Bucket) :
  length (flat_map snd (Page.appendChunk spellings ways buckets))
  = (length spellings + length (flat_map snd buckets))%nat.
Proof.
  unfold Page.appendChunk. rewrite <- (length_imap pair spellings).
  generalize (imap pair spellings). intros entries.
  revert buckets. induction entries as [|entry entries IH]; intros buckets; [done|].
  simpl. rewrite IH, addRow_rows by apply getOrCreateBucket_has.
  rewrite getOrCreateBucket_rows. lia.
Qed.

Lemma onmessage_sorted (trimLower : jsstring -> jsstring) (p : Page.Page) (m : Message) :
  bucketsSorted (Page.container (Page.output p)) ->
  bucketsSorted (Page.container (Page.output (Page.onmessage trimLower p m))).
Proof.
  intros Hs. unfold Page.onmessage. case_bool_decide.
  - assert (forall out, Page.output (Page.csvRow trimLower out p) = Page.output p) as Hcsv.
    { intros out. unfold Page.csvRow, Page.processNextCsvWord. simpl.
      by destruct (Page.csvWordQueue p). }
    destruct m as [id [|display spellings] ways|id total|id message].
    + done.
    + by rewrite Hcsv.
    + case_bool_decide; [by rewrite Hcsv | done].
    + by rewrite Hcsv.
  - case_bool_decide; simpl; [|done].
    destruct m as [id spellings ways|id total|id message]; simpl.
    + by apply appendChunk_sorted.
    + case_bool_decide; simpl; [constructor | done].
    + constructor.
Qed.

(** The result list stays in order: whatever messages arrive, the bucket
    elements of the container stand by strictly increasing chord count, so
    the Spellings of fewest chords come first and no count has two
    buckets. *)
Theorem result_buckets_sorted (trimLower : jsstring -> jsstring) (p : Page.Page)
    (msgs : list Message) :
  bucketsSorted (Page.container (Page.output p)) ->
  bucketsSorted (Page.container (Page.output (foldl (Page.onmessage trimLower) p msgs))).
Proof.
  revert p. induction msgs as [|m msgs IH]; intros p Hs; [done|].
  simpl. apply IH. by apply onmessage_sorted.
Qed.

Lemma result_buckets_sorted_witness :
  bucketsSorted
    (Page.container
       (Page.output
          (foldl (Page.onmessage id)
             (Page.requestUpdate (lit "tatata") None (Page.initialPage (lit "v1")))
             [ chunkOf 1 [Sample.t_; Sample.a_]; chunkOf 1 [Sample.ta];
               chunkOf 1 [Sample.ta; Sample.ta] ]))).
Proof. apply result_buckets_sorted. vm_compute. constructor. Defined.

(** ** The page and the worker together *)

Lemma newPosts_finished (w w1 : Worker) (msgs : list Message) :
  posted w1 = posted w -> newPosts w (finished w1 msgs) = msgs.
Proof.
  intros H. unfold newPosts, finished. simpl. rewrite H. by rewrite drop_app_length.
Qed.

Lemma closing_total (id : Z) (maxEntries : option Z) (gen : Generator) :
  closing id maxEntries 0 gen
  = resultDone id (Z.of_nat (length (shown maxEntries 0 gen))) \/
  closing id maxEntries 0 gen = error id NotIterable.
Proof.
  unfold closing, shown. destruct (capWithin _ _ _) eqn:Hcap.
  - left. f_equal. destruct maxEntries as [k|]; [|done].
    unfold capWithin in Hcap. apply Nat.leb_le in Hcap.
    unfold allowed. rewrite length_take. lia.
  - destruct (ending gen); [left; f_equal; lia | by right].
Qed.

Lemma chunks_counted (trimLower : jsstring -> jsstring) (id : Z) (ways : list Spelling) :
  id <> Page.CSV_REQUEST_ID ->
  forall p, Page.requestId p = id ->
  let p' := foldl (Page.onmessage trimLower) p (List.map (chunkOf id) ways) in
  Page.requestId p' = id /\
  rowCount (Page.output p') = (length ways + rowCount (Page.output p))%nat /\
  (ways = [] -> p' = p).
Proof.
  intros Hid. induction ways as [|way ways IH]; intros p Hp; [done|].
  cbn [List.map foldl].
  set (p1 := Page.onmessage trimLower p (chunkOf id way)).
  assert (Page.requestId p1 = id /\
          rowCount (Page.output p1) = S (rowCount (Page.output p))) as [H1 H2].
  { subst p1. unfold Page.onmessage, chunkOf. cbn [msgId].
    rewrite bool_decide_eq_false_2 by done.
    rewrite bool_decide_eq_true_2 by done. cbn [negb].
    split; [done|]. unfold rowCount. simpl. apply appendChunk_rows. }
  destruct (IH p1 H1) as (H3 & H4 & _).
  split; [done|]. split; [|done]. rewrite H4, H2. simpl. lia.
Qed.

(** The count the page ends on is the number of rows it shows. For a request
    the page sends ([requestUpdate] with a non-empty target) and a worker
    that runs the job of that request to its end while it stays the current
    one, the page, fed what the worker posted, ends either on "n way(s)"
    with exactly n rows in the result list (none, and the notice, when n is
    0), or, when the search threw, on the error with an empty count line. *)
Theorem count_line_matches_rows (trimLower : jsstring -> jsstring) (p0 : Page.Page)
    (target : jsstring) (maxEntries : option Z) (data : ChordData) (w : Worker) :
  0 <= Page.requestId p0 ->
  target <> [] ->
  let p := Page.requestUpdate target maxEntries p0 in
  let job := mkRequest (Page.requestId p0 + 1) (Page.versionValue p0) target maxEntries in
  isCurrent (req_id job) w = true ->
  Page.sent p = Page.sent p0 ++ [job] /\
  exists n,
    let w' := run (runJob (req_id job) data (req_target job) (req_maxEntries job) w)
                (replicate n (Tick (length (tasks w)))) in
    let p' := foldl (Page.onmessage trimLower) p (newPosts w w') in
    jobRunning w' = false /\
    (Page.outputCount p' = Page.Ways (Z.of_nat (rowCount (Page.output p'))) \/
     Page.outputCount p' = Page.Blank /\ Page.output p' = Page.Failed NotIterable).
Proof.
  intros Hreq Htarget p job Hcur.
  assert (truthy target = true) as Ht by (by apply truthy_true).
  assert (p = Page.postMessage job
                (Page.setOutput Page.Computing
                   (Page.setOutputCount Page.Blank
                      (Page.setTotalShownForRequest 0
                         (Page.setRequestId (Page.requestId p0 + 1) p0))))) as Hp.
  { subst p. unfold Page.requestUpdate. by rewrite Ht. }
  split; [by rewrite Hp|].
  cbn [req_id req_target req_maxEntries job] in *.
  set (id := Page.requestId p0 + 1) in *.
  assert (id <> Page.CSV_REQUEST_ID) as Hid by (unfold Page.CSV_REQUEST_ID; lia).
  unfold runJob.
  destruct (newGenerator (buildComponents data) target) as [ys e] eqn:Hgen.
  destruct (job_runs id maxEntries (length ys) ys e 0 (setJobRunning true w)) as [n Hn];
    [done|done|].
  exists n. cbn [tasks setJobRunning] in Hn. rewrite Hn.
  rewrite newPosts_finished by done. split; [done|].
  rewrite foldl_app.
  destruct (chunks_counted trimLower id (shown maxEntries 0 (mkGenerator ys e)) Hid p)
    as (Hrid & Hrows & Hnone); [by rewrite Hp|].
  set (p1 := foldl (Page.onmessage trimLower) p
               (List.map (chunkOf id) (shown maxEntries 0 (mkGenerator ys e)))) in *.
  assert (rowCount (Page.output p) = O) as Hp0 by (by rewrite Hp).
  rewrite Hp0, Nat.add_0_r in Hrows.
  cbn [foldl]. unfold Page.onmessage.
  destruct (closing_total id maxEntries (mkGenerator ys e)) as [-> | ->]; cbn [msgId].
  all: rewrite bool_decide_eq_false_2 by done.
  all: rewrite bool_decide_eq_true_2 by done.
  all: cbn [negb].
  - left. case_bool_decide as Hz; simpl.
    + by rewrite Hz.
    + by rewrite Hrows.
  - by right.
Qed.

Lemma count_line_matches_rows_witness :
  exists n,
    let w := setCurrentJobId (Some 1) initialWorker in
    let p := Page.requestUpdate (lit "tatata") None (Page.initialPage (lit "v1")) in
    let w' := run (runJob 1 Sample.table (lit "tatata") None w)
                (replicate n (Tick (length (tasks w)))) in
    let p' := foldl (Page.onmessage id) p (newPosts w w') in
    jobRunning w' = false /\
    (Page.outputCount p' = Page.Ways (Z.of_nat (rowCount (Page.output p'))) \/
     Page.outputCount p' = Page.Blank /\ Page.output p' = Page.Failed NotIterable).
Proof.
  refine (proj2 (count_line_matches_rows id (Page.initialPage (lit "v1")) (lit "tatata") None
                   Sample.table (setCurrentJobId (Some 1) initialWorker) _ _ _)).
  - done.
  - done.
  - reflexivity.
Defined.

(** *** The CSV run *)




(** ** The page: reading the keys of a stroke *)

Lemma byKeyLengthDesc_key (a b : jsstring) :
  Page.byKeyLengthDesc a b = Z.of_nat (length b) - Z.of_nat (length a).
Proof. reflexivity. Qed.

Lemma keyNamesSorted_elem (keyNames : list jsstring) (k : jsstring) :
  k ∈ Page.keyNamesSorted keyNames <-> k ∈ keyNames /\ k <> [].
Proof.
  unfold Page.keyNamesSorted. rewrite (sort_perm Page.byKeyLengthDesc).
  rewrite (filter_reflect _ (fun k : jsstring => k <> [])).
  - rewrite list_elem_of_filter. tauto.
  - intros x. rewrite Nat.ltb_lt. destruct x; simpl; split; (done || lia).
Qed.

Lemma find_first {A : Type} (f : A -> bool) (R : A -> A -> Prop) (l : list A) (x : A) :
  StronglySorted R l -> List.find f l = Some x ->
  x ∈ l /\ f x = true /\ forall y, y ∈ l -> f y = true -> y = x \/ R x y.
Proof.
  induction 1 as [|a l Hl IH Ha]; simpl; [done|].
  destruct (f a) eqn:E.
  - intros [= ->]. split; [left|]. split; [done|].
    intros y Hy _. apply elem_of_cons in Hy as [->|Hy]; [by left|right].
    by eapply Forall_forall in Ha.
  - intros Hfind. destruct (IH Hfind) as (Hin & Hfx & Hfirst).
    split; [by right|]. split; [done|].
    intros y Hy Hfy. apply elem_of_cons in Hy as [->|Hy]; [congruence|]. by apply Hfirst.
Qed.

Lemma find_nothing {A : Type} (f : A -> bool) (l : list A) :
  List.find f l = None -> forall y, y ∈ l -> f y = false.
Proof.
  induction l as [|a l IH]; simpl; [by intros _ y H%elem_of_nil|].
  destruct (f a) eqn:E; [done|]. intros Hfind y Hy.
  apply elem_of_cons in Hy as [->|Hy]; [done|]. by apply IH.
Qed.

Lemma firstKey_longest (keyNames : list jsstring) (rest k : jsstring) :
  Page.firstKey (Page.keyNamesSorted keyNames) rest = Some k ->
  k ∈ keyNames /\ k <> [] /\ k `prefix_of` rest /\
  forall k', k' ∈ keyNames -> k' `prefix_of` rest -> (length k' <= length k)%nat.
Proof.
  unfold Page.firstKey. intros Hfind.
  apply (find_first _ (fun a b : jsstring => (length b <= length a)%nat)) in Hfind
    as (Hin & Hpre & Hfirst).
  - apply keyNamesSorted_elem in Hin as [Hin Hne].
    apply startsWith_prefix in Hpre.
    split; [done|]. split; [done|]. split; [done|].
    intros k' Hk' Hpre'. destruct k' as [|c k']; [simpl; lia|].
    destruct (Hfirst (c :: k')) as [->|Hle]; [| |done|done].
    + apply keyNamesSorted_elem. by split.
    + by apply startsWith_prefix.
  - apply (sort_sorted (fun k : jsstring => length k) _ byKeyLengthDesc_key).
Qed.

Lemma firstKey_none (keyNames : list jsstring) (rest : jsstring) :
  Page.firstKey (Page.keyNamesSorted keyNames) rest = None ->
  forall k, k ∈ keyNames -> k <> [] -> ~ k `prefix_of` rest.
Proof.
  unfold Page.firstKey. intros Hfind k Hk Hne Hpre.
  apply startsWith_prefix in Hpre.
  rewrite (find_nothing _ _ Hfind k) in Hpre; [done|].
  apply keyNamesSorted_elem. by split.
Qed.

Lemma setAdd_elem (key k : jsstring) (keys : list jsstring) :
  k ∈ Page.setAdd key keys <-> k ∈ keys \/ k = key.
Proof.
  unfold Page.setAdd. case_bool_decide as Hin.
  - split; [by left|]. by intros [H | ->].
  - rewrite elem_of_app, list_elem_of_singleton. tauto.
Qed.

Lemma setAdd_NoDup (key : jsstring) (keys : list jsstring) :
  NoDup keys -> NoDup (Page.setAdd key keys).
Proof.
  intros Hnd. unfold Page.setAdd. case_bool_decide as Hin; [done|].
  apply NoDup_app. split; [done|]. split; [|apply NoDup_singleton].
  intros x Hx Hx'. apply list_elem_of_singleton in Hx'. by subst.
Qed.

Lemma parseLoop_greedy (keyNames : list jsstring) (fuel : nat) :
  forall keys rest keys' rest',
    Page.parseLoop fuel (Page.keyNamesSorted keyNames) keys rest = Some (keys', rest') ->
    exists taken,
      greedy keyNames taken rest rest' /\
      (forall k, k ∈ keys' <-> k ∈ keys \/ k ∈ taken) /\
      (NoDup keys -> NoDup keys').
Proof.
  induction fuel as [|fuel IH]; intros keys rest keys' rest'; [done|].
  cbn [Page.parseLoop]. destruct (truthy rest) eqn:Ht; cbn [negb].
  - destruct (Page.firstKey _ rest) as [key|] eqn:Hfirst.
    + intros Hloop. apply firstKey_longest in Hfirst as (Hin & Hne & [s ->] & Hlong).
      unfold slice in Hloop. rewrite drop_app_length in Hloop.
      destruct (IH _ _ _ _ Hloop) as (taken & Hg & Hkeys & Hnd).
      exists (key :: taken). split; [by constructor|]. split.
      * intros k. rewrite Hkeys, setAdd_elem, elem_of_cons. tauto.
      * intros H. apply Hnd. by apply setAdd_NoDup.
    + intros [= <- <-]. exists []. split.
      * constructor. by apply firstKey_none.
      * split; [|done]. intros k. rewrite elem_of_nil. tauto.
  - intros [= <- <-]. apply truthy_false in Ht as ->. exists []. split.
    + constructor. intros k _ Hne Hpre. by apply prefix_nil_inv in Hpre.
    + split; [|done]. intros k. rewrite elem_of_nil. tauto.
Qed.

Lemma parseLoop_total (keyNames : list jsstring) (fuel : nat) :
  forall keys rest,
    (length rest < fuel)%nat ->
    is_Some (Page.parseLoop fuel (Page.keyNamesSorted keyNames) keys rest).
Proof.
  induction fuel as [|fuel IH]; intros keys rest Hlen; [lia|].
  cbn [Page.parseLoop]. destruct (truthy rest) eqn:Ht; cbn [negb]; [|by eexists].
  destruct (Page.firstKey _ rest) as [key|] eqn:Hfirst; [|by eexists].
  apply firstKey_longest in Hfirst as (_ & Hne & [s ->] & _).
  apply IH. unfold slice. rewrite drop_app_length.
  rewrite length_app in Hlen. destruct key; [done|]. simpl in Hlen. lia.
Qed.

Lemma greedy_concat (keyNames taken : list jsstring) (s rest : jsstring) :
  greedy keyNames taken s rest -> s = concat taken ++ rest.
Proof.
  induction 1 as [rest H|k taken s rest Hk Hne Hlong Hg IH]; [done|].
  simpl. rewrite <- app_assoc. by rewrite <- IH.
Qed.

(** [parseChordToKeys] always returns, and what it returns is the greedy
    reading of the chord string: the string is a sequence of key names, each
    the longest (non-empty) key name the string starts with at that point,
    followed by a rest that no non-empty key name starts; the set returned
    holds exactly the key names of that sequence, each once. Key names that
    are empty are never taken, which is what makes the loop end. *)
Theorem parseChordToKeys_greedy (chordStr : jsstring) (keyNames : list jsstring) :
  exists keys taken rest,
    Page.parseChordToKeys chordStr keyNames = Some keys /\
    greedy keyNames taken chordStr rest /\
    chordStr = concat taken ++ rest /\
    NoDup keys /\
    forall k, k ∈ keys <-> k ∈ taken.
Proof.
  unfold Page.parseChordToKeys.
  destruct (parseLoop_total keyNames (S (length chordStr)) [] chordStr) as [[keys rest] Hloop];
    [lia|].
  destruct (parseLoop_greedy keyNames _ _ _ _ _ Hloop) as (taken & Hg & Hkeys & Hnd).
  exists keys, taken, rest. rewrite Hloop. split; [done|]. split; [done|].
  split; [by apply (greedy_concat keyNames)|]. split; [apply Hnd; constructor|].
  intros k. rewrite Hkeys, elem_of_nil. tauto.
Qed.

(** The greedy reading can miss a reading that exists: with the key names
    "a", "ab" and "bc", the string "abc" is "a" then "bc", but the loop takes
    "ab" and stops at "c". *)
Example parseChordToKeys_misses :
  Page.parseChordToKeys (lit "abc") [lit "a"; lit "ab"; lit "bc"] = Some [lit "ab"].
Proof. reflexivity. Qed.

(** ** The page: CSV fields *)

Lemma doubleQuotes_inj (a b : jsstring) :
  Page.doubleQuotes a = Page.doubleQuotes b -> a = b.
Proof.
  revert b. induction a as [|c a IH]; intros b.
  - destruct b as [|d b]; [done|]. simpl. by destruct (N.eqb d 34).
  - destruct b as [|d b]; simpl.
    + by destruct (N.eqb c 34).
    + destruct (N.eqb_spec c 34) as [->|Hc]; destruct (N.eqb_spec d 34) as [->|Hd]; simpl.
      * intros [= H]. f_equal. by apply IH.
      * intros [= H _]. congruence.
      * intros [= H _]. congruence.
      * intros [= -> H]. f_equal. by apply IH.
Qed.

Lemma needsQuotes_false (val : jsstring) :
  Page.needsQuotes val = false -> 34%N ∉ val.
Proof.
  unfold Page.needsQuotes. intros H Hin.
  apply not_true_iff_false in H. apply H.
  apply existsb_exists. exists 34%N. split; [|done].
  by apply list_elem_of_In.
Qed.

(** [escapeCsv] loses nothing: two values with the same CSV field are the
    same value. *)
Theorem escapeCsv_injective (a b : jsstring) :
  Page.escapeCsv a = Page.escapeCsv b -> a = b.
Proof.
  unfold Page.escapeCsv.
  destruct (Page.needsQuotes a) eqn:Ha; destruct (Page.needsQuotes b) eqn:Hb; cbn [negb].
  - intros [= H]. apply app_inj_tail in H as [H _]. by apply doubleQuotes_inj.
  - intros <-. apply needsQuotes_false in Hb. exfalso. apply Hb. left.
  - intros ->. apply needsQuotes_false in Ha. exfalso. apply Ha. left.
  - done.
Qed.

Lemma escapeCsv_injective_witness :
  Page.escapeCsv (lit "T,A") = [34; 84; 44; 65; 34]%N /\ lit "T,A" = [84; 44; 65]%N.
Proof. split; [reflexivity | apply escapeCsv_injective; reflexivity]. Defined.

(** ** The worker: the superseding job *)




